(** * Akita: the atomic unified-diff applier ([akita/tools/diff.py])

    A shallow embedding of [DiffApplier.apply_unified_diff] and of the
    file-system operations it performs, followed by the properties of the
    applier: the scenarios of the tests, patches without a target, path
    confinement, the order of the rollback, backup artifacts, creation
    and modification of a file, the frame of a call, and the fidelity of
    the rollback where it holds.  The further properties cover
    [DiffApplier.apply_whole_file], the outcomes of the applier (a
    backup directory that cannot be made, a missing target, a diff
    without targets, a target that is a directory, a hunk that does not
    apply, what a successful call has done, when a call returns), the
    lines read and written, two calls on one file, and provider
    detection ([akita/core/providers.py]).

    Modelling conventions.
    - A path is the list of its components from the root; the base
      directory is given in resolved form (absolute, no [..], no symbolic
      link).  There are no symbolic links, so [Path.resolve] is the lexical
      normalisation of the joined path.
    - The file system maps a path to a node, a regular file with its text
      or a directory.  Text is a [string] whose characters are the decoded
      characters of the file (code points below 256; the separators
      U+2028 and U+2029 are outside the model).  Permissions, disk errors
      and decoding errors are outside the model: a primitive raises only
      for the reasons a well-permissioned POSIX file system gives
      (missing file, directory in place of a file, file in place of a
      directory, destination exists).
    - The diff text is already parsed: the applier receives the list that
      [whatthepatch.parse_patch] yields, one patch for each file of a
      diff whose headers carry the time stamp that [diff -u] writes
      after the path.  Hunk application
      ([whatthepatch.apply_diff]) is a parameter of the applier; the
      algorithm of the design document is given separately and used for
      the concrete scenarios.
    - Every primitive appends the call and its path arguments to a log
      (also when it fails), so that confinement and the order of
      restoration can be stated.  [copy2] and [move] act on the
      destination or, when it is a directory, on the entry of that
      directory named after the source. *)

From Stdlib Require Import String Ascii List Bool Arith Lia.
Import ListNotations.
Open Scope string_scope.
Open Scope list_scope.

(** ** Paths *)

Definition path := list string.

Fixpoint path_eqb (p q : path) : bool :=
  match p, q with
  | [], [] => true
  | x :: p', y :: q' => String.eqb x y && path_eqb p' q'
  | _, _ => false
  end.

(** [strip_prefix p q] is [Some r] when [q = p ++ r]. *)
Fixpoint strip_prefix (p q : path) : option path :=
  match p, q with
  | [], _ => Some q
  | x :: p', y :: q' => if String.eqb x y then strip_prefix p' q' else None
  | _ :: _, [] => None
  end.

(** [under d p]: [p] is [d] or lies below [d]. *)
Definition under (d p : path) : bool :=
  match strip_prefix d p with Some _ => true | None => false end.

(** [Path.parent]: the parent of the root is the root. *)
Definition parent (p : path) : path := removelast p.

(** [Path.name]: the final component, empty for the root. *)
Definition name (p : path) : string := last p "".

(** The prefixes of [p] from the first component to [p] itself. *)
Fixpoint prefixes_from (acc p : path) : list path :=
  match p with
  | [] => []
  | x :: p' => (acc ++ [x]) :: prefixes_from (acc ++ [x]) p'
  end.

Definition prefixes (p : path) : list path := prefixes_from [] p.

(** [str.split("/")]. *)
Fixpoint split_slash_from (cur s : string) : list string :=
  match s with
  | EmptyString => [cur]
  | String c s' =>
      if Ascii.eqb c "/"%char then cur :: split_slash_from "" s'
      else split_slash_from (cur ++ String c "") s'
  end.

Definition split_slash (s : string) : list string := split_slash_from "" s.

Definition is_absolute (s : string) : bool := String.prefix "/" s.

(** One component of the lexical normalisation: empty components and [.]
    are dropped, [..] removes the last component (and stays at the root). *)
Definition resolve_step (acc : path) (c : string) : path :=
  if String.eqb c "" || String.eqb c "." then acc
  else if String.eqb c ".." then removelast acc
  else acc ++ [c].

(** [(base / rel).resolve()]: joining with an absolute [rel] replaces
    [base]. *)
Definition resolve (base : path) (rel : string) : path :=
  fold_left resolve_step (split_slash rel)
            (if is_absolute rel then [] else base).

(** ** Text *)

(** The line boundaries of [str.splitlines] among the characters of the
    model: LF, VT, FF, CR, FS, GS, RS and NEL. *)
Definition is_linebreak (c : ascii) : bool :=
  let n := nat_of_ascii c in
  Nat.eqb n 10 || Nat.eqb n 11 || Nat.eqb n 12 || Nat.eqb n 13
  || Nat.eqb n 28 || Nat.eqb n 29 || Nat.eqb n 30 || Nat.eqb n 133.

Definition is_cr (c : ascii) : bool := Nat.eqb (nat_of_ascii c) 13.
Definition is_lf (c : ascii) : bool := Nat.eqb (nat_of_ascii c) 10.

(** [str.splitlines()]: CR LF is one boundary, and no empty last line is
    produced after a final boundary. *)
Fixpoint splitlines_from (cur s : string) : list string :=
  match s with
  | EmptyString => if String.eqb cur "" then [] else [cur]
  | String c s' =>
      if is_cr c then
        match s' with
        | String c2 s'' =>
            if is_lf c2 then cur :: splitlines_from "" s''
            else cur :: splitlines_from "" s'
        | EmptyString => [cur]
        end
      else if is_linebreak c then cur :: splitlines_from "" s'
      else splitlines_from (cur ++ String c "") s'
  end.

Definition splitlines (s : string) : list string := splitlines_from "" s.

(** Reading in text mode translates CR LF and a lone CR to LF. *)
Fixpoint universal_newlines (s : string) : string :=
  match s with
  | EmptyString => EmptyString
  | String c s' =>
      if is_cr c then
        match s' with
        | String c2 s'' =>
            if is_lf c2 then String "010"%char (universal_newlines s'')
            else String "010"%char (universal_newlines s')
        | EmptyString => String "010"%char EmptyString
        end
      else String c (universal_newlines s')
  end.

Definition NL : string := String "010"%char EmptyString.

(** ["\n".join(lines) + "\n"] *)
Definition join_lines (ls : list string) : string :=
  String.concat NL ls ++ NL.

(** ** The file system *)

Inductive node : Type :=
| File (content : string)
| Dir.

Definition filesystem := path -> option node.

(** The root is always a directory. *)
Definition node_at (f : filesystem) (p : path) : option node :=
  match p with
  | [] => Some Dir
  | _ => f p
  end.

Definition upd (p : path) (v : option node) (f : filesystem) : filesystem :=
  fun q => if path_eqb q p then v else f q.

Definition is_dir (f : filesystem) (p : path) : bool :=
  match node_at f p with Some Dir => true | _ => false end.

Definition is_file (f : filesystem) (p : path) : bool :=
  match node_at f p with Some (File _) => true | _ => false end.

Definition exists_at (f : filesystem) (p : path) : bool :=
  match node_at f p with Some _ => true | None => false end.

(** The text of the regular file at [p], if there is one. *)
Definition file_at (f : filesystem) (p : path) : option string :=
  match node_at f p with Some (File c) => Some c | _ => None end.

(** [mkdirs ps f] makes a directory of every path of [ps]. *)
Fixpoint mkdirs (ps : list path) (f : filesystem) : filesystem :=
  match ps with
  | [] => f
  | p :: ps' => mkdirs ps' (upd p (Some Dir) f)
  end.

(** [os.rename] of the node at [src], with everything below it, to
    [dst]. *)
Definition relocate (src dst : path) (f : filesystem) : filesystem :=
  fun q =>
    match strip_prefix dst q with
    | Some r => f (src ++ r)
    | None => if under src q then None else f q
    end.

(** ** State, exceptions and the applier's monad *)

Inductive event : Type :=
| EStat (p : path)
| ERead (p : path)
| EWrite (p : path)
| EMkdir (p : path)
| ECopy (src dst : path)
| EMove (src dst : path)
| EUnlink (p : path).

Inductive exn : Type :=
| FileNotFoundError
| IsADirectoryError
| NotADirectoryError
| FileExistsError
| ShutilError
| PatchFailure.

(** The transaction: [backups] is the local list of the call, in the
    order the entries were appended; [log] is the history of file-system
    accesses, oldest first. *)
Record state : Type := mkState {
  fs : filesystem;
  backups : list (path * option path);
  log : list event
}.

Inductive result (A : Type) : Type :=
| Ok (a : A)
| Raise (e : exn).

Arguments Ok {A} a.
Arguments Raise {A} e.

Definition M (A : Type) : Type := state -> result A * state.

Definition ret {A} (a : A) : M A := fun st => (Ok a, st).

Definition raise {A} (e : exn) : M A := fun st => (Raise e, st).

Definition bind {A B} (m : M A) (k : A -> M B) : M B :=
  fun st =>
    match m st with
    | (Ok a, st') => k a st'
    | (Raise e, st') => (Raise e, st')
    end.

(** [try: m except Exception: h] *)
Definition try_except {A} (m : M A) (h : exn -> M A) : M A :=
  fun st =>
    match m st with
    | (Ok a, st') => (Ok a, st')
    | (Raise e, st') => h e st'
    end.

Declare Scope monad_scope.
Delimit Scope monad_scope with monad.
Notation "x <- m ;; k" := (bind m (fun x => k))
  (at level 61, m at next level, right associativity) : monad_scope.
Notation "m ;;; k" := (bind m (fun _ => k))
  (at level 61, right associativity) : monad_scope.
Open Scope monad_scope.

Definition emit (e : event) : M unit :=
  fun st => (Ok tt, mkState (fs st) (backups st) (log st ++ [e])).

Definition get_fs : M filesystem := fun st => (Ok (fs st), st).

Definition put_fs (f : filesystem) : M unit :=
  fun st => (Ok tt, mkState f (backups st) (log st)).

Definition get_backups : M (list (path * option path)) :=
  fun st => (Ok (backups st), st).

(** [backups = []] *)
Definition reset_backups : M unit :=
  fun st => (Ok tt, mkState (fs st) [] (log st)).

(** [backups.append(entry)] *)
Definition push_backup (entry : path * option path) : M unit :=
  fun st => (Ok tt, mkState (fs st) (backups st ++ [entry]) (log st)).

(** ** File-system primitives *)

(** [Path.exists()] *)
Definition path_exists (p : path) : M bool :=
  emit (EStat p) ;;;
  f <- get_fs ;;
  ret (exists_at f p).

(** [Path.mkdir(parents=True, exist_ok=True)]: fails when [p] or one of
    its ancestors is a regular file. *)
Definition mkdir_parents (p : path) : M unit :=
  emit (EMkdir p) ;;;
  f <- get_fs ;;
  if is_file f p then raise FileExistsError
  else if existsb (is_file f) (prefixes p) then raise NotADirectoryError
  else put_fs (mkdirs (prefixes p) f).

(** [open(p, "r", encoding="utf-8").read()] *)
Definition read_text (p : path) : M string :=
  emit (ERead p) ;;;
  f <- get_fs ;;
  match node_at f p with
  | Some (File c) => ret (universal_newlines c)
  | Some Dir => raise IsADirectoryError
  | None => raise FileNotFoundError
  end.

(** [open(p, "w", encoding="utf-8").write(c)] *)
Definition write_text (p : path) (c : string) : M unit :=
  emit (EWrite p) ;;;
  f <- get_fs ;;
  if is_dir f p then raise IsADirectoryError
  else if is_dir f (parent p) then put_fs (upd p (Some (File c)) f)
  else raise FileNotFoundError.

(** [shutil.copy2(src, dst)]: a directory [dst] receives the copy under
    the name of [src]. *)
Definition copy2 (src dst : path) : M unit :=
  emit (ECopy src dst) ;;;
  f <- get_fs ;;
  match node_at f src with
  | None => raise FileNotFoundError
  | Some Dir => raise IsADirectoryError
  | Some (File c) =>
      let real_dst := if is_dir f dst then dst ++ [name src] else dst in
      if path_eqb src real_dst then raise ShutilError
      else if is_dir f real_dst then raise IsADirectoryError
      else if is_dir f (parent real_dst)
           then put_fs (upd real_dst (Some (File c)) f)
           else raise FileNotFoundError
  end.

(** [Path.unlink()] *)
Definition unlink (p : path) : M unit :=
  emit (EUnlink p) ;;;
  f <- get_fs ;;
  match node_at f p with
  | Some (File _) => put_fs (upd p None f)
  | Some Dir => raise IsADirectoryError
  | None => raise FileNotFoundError
  end.

(** [shutil.move(src, dst)].  A directory [dst] receives [src] under its
    own name, which must be free.  A regular file is renamed over [dst].
    A directory is renamed when the destination is free and outside it;
    when the parent of the destination is missing the rename fails and
    the copying fallback makes the parents and moves the tree. *)
Definition shutil_move (src dst : path) : M unit :=
  emit (EMove src dst) ;;;
  f <- get_fs ;;
  let real_dst := if is_dir f dst then dst ++ [name src] else dst in
  if is_dir f dst && path_eqb src dst then ret tt
  else if is_dir f dst && exists_at f real_dst then raise ShutilError
  else
    match node_at f src with
    | None => raise FileNotFoundError
    | Some (File c) =>
        if is_dir f (parent real_dst)
        then put_fs (upd real_dst (Some (File c)) (upd src None f))
        else raise FileNotFoundError
    | Some Dir =>
        if under src real_dst then raise ShutilError
        else if exists_at f real_dst then raise FileExistsError
        else if existsb (is_file f) (prefixes (parent real_dst))
             then raise NotADirectoryError
             else put_fs (relocate src real_dst
                            (mkdirs (prefixes (parent real_dst)) f))
    end.

(** ** Patches *)

(** The header of a parsed patch: each side is a string or [None]. *)
Record Header : Type := mkHeader {
  old_path : option string;
  new_path : option string
}.

Inductive tag : Type := Context | Add | Delete.

Record Hunk : Type := mkHunk {
  old_start : nat;
  old_count : nat;
  new_start : nat;
  new_count : nat;
  lines : list (tag * string)
}.

Record Patch : Type := mkPatch {
  header : option Header;
  hunks : list Hunk
}.

Definition DEV_NULL : string := "/dev/null".

(** Truth value of an optional string: [None] and the empty string are
    false. *)
Definition truthy (s : option string) : bool :=
  match s with
  | Some s => negb (String.eqb s "")
  | None => false
  end.

(** [a or b] *)
Definition py_or (a b : option string) : option string :=
  if truthy a then a else b.

Definition opt_is (s : option string) (t : string) : bool :=
  match s with
  | Some s => String.eqb s t
  | None => false
  end.

Definition is_new (h : Header) : bool := opt_is (old_path h) DEV_NULL.
Definition is_delete (h : Header) : bool := opt_is (new_path h) DEV_NULL.

(** Lines 32-41: the side of the header that names the target. *)
Definition select_path (h : Header) : option string :=
  if is_new h then new_path h
  else if is_delete h then old_path h
  else py_or (new_path h) (old_path h).

(** Lines 43-48: [None] when the patch is skipped, otherwise the path
    without a leading [a/] or [b/]. *)
Definition rel_path (h : Header) : option string :=
  match select_path h with
  | None => None
  | Some r =>
      if String.eqb r "" || String.eqb r DEV_NULL then None
      else if String.prefix "a/" r || String.prefix "b/" r
           then Some (String.substring 2 (String.length r - 2) r)
           else Some r
  end.

(** ** The applier *)

Section Applier.

(** [whatthepatch.apply_diff]: the patched lines, or no result when a
    hunk does not apply. *)
Variable apply_diff : Patch -> list string -> option (list string).

(** [Path(base_path)] *)
Variable base : path.

Definition backup_dir : path := base ++ [".akita"; "backups"].

Definition backup_file (target : path) : path :=
  backup_dir ++ [(name target ++ ".bak")%string].

Definition target_of (h : Header) : option path :=
  option_map (resolve base) (rel_path h).

(** The body of the loop for one patch.  [Some b] is [return b];
    [None] goes on to the next patch. *)
Definition patch_step (p : Patch) : M (option bool) :=
  match header p with
  | None => ret None
  | Some h =>
      match target_of h with
      | None => ret None
      | Some target_file =>
          missing <- (if is_new h then ret false
                      else e <- path_exists target_file ;; ret (negb e)) ;;
          if missing then ret (Some false)
          else
            (* 1. Create backup *)
            e <- path_exists target_file ;;
            (if e then
               copy2 target_file (backup_file target_file) ;;;
               push_backup (target_file, Some (backup_file target_file))
             else push_backup (target_file, None)) ;;;
            (* 2. Apply patch *)
            e <- path_exists target_file ;;
            content <- (if e then read_text target_file else ret "") ;;
            match apply_diff p (splitlines content) with
            | None => raise PatchFailure
            | Some patched_lines =>
                (* 3. Write new content *)
                mkdir_parents (parent target_file) ;;;
                write_text target_file (join_lines patched_lines) ;;;
                ret None
            end
      end
  end.

Fixpoint apply_loop (patches : list Patch) : M bool :=
  match patches with
  | [] => ret true
  | p :: rest =>
      r <- patch_step p ;;
      match r with
      | Some b => ret b
      | None => apply_loop rest
      end
  end.

(** One entry of the rollback loop. *)
Definition rollback_entry (entry : path * option path) : M unit :=
  match entry with
  | (target, Some backup) =>
      e <- path_exists backup ;;
      if e then shutil_move backup target else ret tt
  | (target, None) =>
      e <- path_exists target ;;
      if e then unlink target else ret tt
  end.

Fixpoint rollback_loop (entries : list (path * option path)) : M unit :=
  match entries with
  | [] => ret tt
  | entry :: rest => rollback_entry entry ;;; rollback_loop rest
  end.

(** The [except] clause. *)
Definition rollback (e : exn) : M bool :=
  bs <- get_backups ;;
  rollback_loop bs ;;;
  ret false.

(** [DiffApplier.apply_unified_diff], on the parsed patches. *)
Definition apply_unified_diff (patches : list Patch) : M bool :=
  match patches with
  | [] => ret false
  | _ =>
      reset_backups ;;;
      mkdir_parents backup_dir ;;;
      try_except (apply_loop patches) rollback
  end.

End Applier.

(** ** Hunk application *)

(** Modelled from the spec: hunk application, which the source delegates
    to [whatthepatch.apply_diff] (not part of the repository).  The state
    is the number of original lines consumed, the original lines after
    the cursor and the output so far. *)
Fixpoint apply_hunk_lines (ls : list (tag * string)) (pos : nat)
    (rest out : list string) : option (nat * list string * list string) :=
  match ls with
  | [] => Some (pos, rest, out)
  | (Add, l) :: ls' => apply_hunk_lines ls' pos rest (out ++ [l])
  | (Context, l) :: ls' =>
      match rest with
      | x :: rest' =>
          if String.eqb x l then apply_hunk_lines ls' (S pos) rest' (out ++ [l])
          else None
      | [] => None
      end
  | (Delete, l) :: ls' =>
      match rest with
      | x :: rest' =>
          if String.eqb x l then apply_hunk_lines ls' (S pos) rest' out
          else None
      | [] => None
      end
  end.

(** Modelled from the spec: the lines before a hunk are copied from the
    cursor up to [old_start - 1], then the hunk is walked; after the last
    hunk the remaining lines are copied. *)
Fixpoint apply_hunks (hs : list Hunk) (pos : nat) (rest out : list string)
    : option (list string) :=
  match hs with
  | [] => Some (out ++ rest)
  | h :: hs' =>
      let n := old_start h - 1 - pos in
      match apply_hunk_lines (lines h) (pos + n) (skipn n rest)
                             (out ++ firstn n rest) with
      | Some (pos', rest', out') => apply_hunks hs' pos' rest' out'
      | None => None
      end
  end.

(** Modelled from the spec: the hunk application algorithm on a patch. *)
Definition spec_apply_diff (p : Patch) (orig : list string)
    : option (list string) :=
  apply_hunks (hunks p) 0 orig [].

(** ** Calls *)

(** The state in which a call starts on the file system [f]. *)
Definition init (f : filesystem) : state := mkState f [] [].

(** A call of the applier on the file system [f]: what it returns (or
    the exception that escapes) and the state it leaves. *)
Definition call (apply_diff : Patch -> list string -> option (list string))
    (base : path) (patches : list Patch) (f : filesystem)
    : result bool * state :=
  apply_unified_diff apply_diff base patches (init f).

(** The applier with the hunk algorithm of the design. *)
Definition apply (base : path) (patches : list Patch) (f : filesystem)
    : result bool * state :=
  call spec_apply_diff base patches f.

(** The state in which the handler starts when the loop raises: the
    backup directory is made and the loop has run. *)
Definition loop_state
    (apply_diff : Patch -> list string -> option (list string))
    (base : path) (patches : list Patch) (f : filesystem) : state :=
  snd (apply_loop apply_diff base patches
         (snd (mkdir_parents (backup_dir base) (init f)))).

(** File systems for the scenarios: [add_file] also makes the
    directories above the file. *)
Definition empty_fs : filesystem := fun _ => None.

Definition add_dir (p : path) (f : filesystem) : filesystem :=
  mkdirs (prefixes p) f.

Definition add_file (p : path) (c : string) (f : filesystem) : filesystem :=
  upd p (Some (File c)) (add_dir (parent p) f).

(** ** Predicates of the statements *)

(** [Subseq s l]: [s] is [l] with some elements left out, in the same
    order. *)
Inductive Subseq {A : Type} : list A -> list A -> Prop :=
| Subseq_nil : forall l, Subseq [] l
| Subseq_skip : forall s x l, Subseq s l -> Subseq s (x :: l)
| Subseq_take : forall s x l, Subseq s l -> Subseq (x :: s) (x :: l).

(** A well-formed file system: whatever exists lies in a directory. *)
Definition wf (f : filesystem) : Prop :=
  forall p x, f (p ++ [x]) <> None -> is_dir f p = true.

(** The path arguments of a logged call. *)
Definition event_paths (e : event) : list path :=
  match e with
  | EStat p | ERead p | EWrite p | EMkdir p | EUnlink p => [p]
  | ECopy src dst | EMove src dst => [src; dst]
  end.

(** The target a logged call restores: the destination of a move, the
    file an unlink removes. *)
Definition restored (e : event) : list path :=
  match e with
  | EMove _ dst => [dst]
  | EUnlink p => [p]
  | _ => []
  end.

(** The resolved target of a patch, when it has one. *)
Definition patch_target (base : path) (p : Patch) : option path :=
  match header p with
  | Some h => target_of base h
  | None => None
  end.

(** The resolved targets of the patches of a diff, in diff order. *)
Definition targets (base : path) (patches : list Patch) : list path :=
  flat_map (fun p => match patch_target base p with
                     | Some t => [t]
                     | None => []
                     end) patches.

(** Hoare triples over the applier's monad; the postcondition sees the
    result, also when it is an exception. *)
Definition hoare {A : Type} (P : state -> Prop) (m : M A)
    (Q : result A -> state -> Prop) : Prop :=
  forall st, P st -> Q (fst (m st)) (snd (m st)).

(** [m] keeps the invariant [I], however it ends. *)
Definition keeps {A : Type} (I : state -> Prop) (m : M A) : Prop :=
  hoare I m (fun _ st => I st).

(** [effect evs st st']: from [st] to [st'] the calls [evs] were logged
    and the list of backups is the same. *)
Definition effect (evs : list event) (st st' : state) : Prop :=
  backups st' = backups st /\ log st' = log st ++ evs.

(** [grows f f']: what exists in [f] exists in [f'], and directories
    stay directories. *)
Definition grows (f f' : filesystem) : Prop :=
  forall q, (exists_at f q = true -> exists_at f' q = true) /\
            (is_dir f q = true -> is_dir f' q = true).

(** Every path argument of the logged calls lies in [d]. *)
Definition log_within (d : path) (l : list event) : Prop :=
  Forall (fun e => forall p, In p (event_paths e) -> under d p = true) l.

(** Every recorded target and backup lies in [d]. *)
Definition backups_within (d : path) (bs : list (path * option path)) : Prop :=
  Forall (fun entry => under d (fst entry) = true /\
                       forall b, snd entry = Some b -> under d b = true) bs.

(** A relative path without [..]: joined to a base and resolved, it stays
    in the base. *)
Definition plain_relative (r : string) : bool :=
  negb (is_absolute r) &&
  forallb (fun c => negb (String.eqb c "..")) (split_slash r).

(** A path as a header has it that stays of that kind when the leading
    [a/] or [b/] is taken off: relative, without [..], and not beginning
    with [a//] or [b//]. *)
Definition plain_header_path (s : string) : bool :=
  plain_relative s && negb (String.prefix "a//" s)
  && negb (String.prefix "b//" s).

(** Every patch of the diff that names a path names one of that kind. *)
Definition plain_diff (patches : list Patch) : Prop :=
  forall p h s, In p patches -> header p = Some h ->
                select_path h = Some s -> plain_header_path s = true.

(** The invariant of the loop for confinement: the base is a directory
    and everything logged or recorded lies in it. *)
Definition confined (base : path) (st : state) : Prop :=
  is_dir (fs st) base = true /\
  log_within base (log st) /\
  backups_within base (backups st).

(** The same without the directory, for the rollback. *)
Definition confined_log (base : path) (st : state) : Prop :=
  log_within base (log st) /\ backups_within base (backups st).

(** The file a logged call writes. *)
Definition written (e : event) : list path :=
  match e with
  | EWrite p => [p]
  | _ => []
  end.

(** [Prefix a b]: [b] starts with [a]. *)
Definition Prefix {A : Type} (a b : list A) : Prop := exists r, b = a ++ r.

(** [progress st0 ts ws st]: since [st0] nothing was restored, the
    writes [ws] were logged and the targets [ts] were recorded. *)
Definition progress (st0 : state) (ts ws : list path) (st : state) : Prop :=
  exists evs,
    log st = log st0 ++ evs /\
    flat_map restored evs = [] /\
    flat_map written evs = ws /\
    map fst (backups st) = map fst (backups st0) ++ ts.

(** The target of a patch as a list: empty or one path. *)
Definition target_list (base : path) (p : Patch) : list path :=
  match patch_target base p with
  | Some t => [t]
  | None => []
  end.

(** The invariant of the loop for the backup artifacts: the file system
    has only grown since [f0], and the backup of every target of [done]
    that existed in [f0] exists. *)
Definition backups_kept (f0 : filesystem) (base : path) (done : list path)
    (st : state) : Prop :=
  grows f0 (fs st) /\
  forall t, In t done -> exists_at f0 t = true ->
            exists_at (fs st) (backup_file base t) = true.

Definition is_add (t : tag) : bool :=
  match t with Add => true | _ => false end.

(** The lines a patch adds, in order: the text of the hunk lines tagged
    [Add]. *)
Definition added_lines (p : Patch) : list string :=
  flat_map (fun hk => map snd (filter (fun l => is_add (fst l)) (lines hk)))
           (hunks p).

(** Every line of every hunk of the patch is an added line. *)
Definition only_adds (p : Patch) : bool :=
  forallb (fun hk => forallb (fun l => is_add (fst l)) (lines hk)) (hunks p).

(** Each line followed by the separator. *)
Definition terminated_lines (ls : list string) : string :=
  String.concat "" (map (fun l => (l ++ NL)%string) ls).

(** A path outside the reach of a call: not the target of a patch and
    not in the backup directory. *)
Definition outside (base : path) (ts : list path) (p : path) : Prop :=
  ~ In p ts /\ under (backup_dir base) p = false.

(** The invariant of a call for the frame: the file system is well
    formed, the regular files of [f0] outside the reach of the call are
    as they were, and every recorded entry has its target among [ts] and
    its backup in the backup directory. *)
Definition framed (f0 : filesystem) (base : path) (ts : list path)
    (st : state) : Prop :=
  wf (fs st) /\
  (forall p c, outside base ts p ->
               file_at f0 p = Some c -> file_at (fs st) p = Some c) /\
  Forall (fun entry =>
            In (fst entry) ts /\
            forall b, snd entry = Some b ->
                      under (backup_dir base) b = true) (backups st).

(** What a recorded entry promises about the file system [f]: a backup
    holds the text the target had in [f0] and the target is a regular
    file; a target recorded as new was no regular file in [f0] and is a
    regular file now, or is the target [cur] being patched and no
    directory. *)
Definition entry_faithful (f0 : filesystem) (base : path)
    (cur : option path) (f : filesystem) (entry : path * option path)
    : Prop :=
  match snd entry with
  | Some b =>
      b = backup_file base (fst entry) /\
      (exists c, file_at f0 (fst entry) = Some c /\ file_at f b = Some c) /\
      is_file f (fst entry) = true
  | None =>
      file_at f0 (fst entry) = None /\
      (is_file f (fst entry) = true \/
       (cur = Some (fst entry) /\ is_dir f (fst entry) = false))
  end.

(** The invariant of the loop for the rollback: the targets [done] are
    recorded, in that order and once each; the targets not yet recorded
    are as in [f0]; no directory stands in place of a backup; every
    entry keeps its promise. *)
Definition faithful (f0 : filesystem) (base : path) (ts : list path)
    (cur : option path) (done : list path) (st : state) : Prop :=
  map fst (backups st) = done /\
  NoDup done /\
  incl done ts /\
  grows f0 (fs st) /\
  (forall t, In t ts -> ~ In t done -> file_at (fs st) t = file_at f0 t) /\
  (forall t, In t ts -> is_dir (fs st) (backup_file base t) = false) /\
  Forall (entry_faithful f0 base cur (fs st)) (backups st).

(** The invariant of the rollback: the entries [rest] are still to be
    restored and keep their promise; every other target is as in
    [f0]. *)
Definition restoring (f0 : filesystem) (base : path) (ts : list path)
    (cur : option path) (rest : list (path * option path)) (st : state)
    : Prop :=
  NoDup (map fst rest) /\
  incl (map fst rest) ts /\
  (forall t, In t ts -> ~ In t (map fst rest) ->
             file_at (fs st) t = file_at f0 t) /\
  Forall (entry_faithful f0 base cur (fs st)) rest.

(** Every patch that does not create its target has a target that
    exists in [f]. *)
Definition targets_present (base : path) (patches : list Patch)
    (f : filesystem) : Prop :=
  forall p h t, In p patches -> header p = Some h ->
                target_of base h = Some t -> is_new h = false ->
                exists_at f t = true.

(** ** Writing a whole file *)

(** [DiffApplier.apply_whole_file]; the path is given in resolved form,
    as the base directory of the applier is. *)
Definition apply_whole_file (target : path) (content : string) : M bool :=
  mkdir_parents (parent target) ;;;
  write_text target content ;;;
  ret true.

(** ** Provider detection ([akita/core/providers.py]) *)

Inductive Provider : Type :=
| OpenAIProvider
| AnthropicProvider
| OllamaProvider
| GeminiProvider
| GroqProvider.

(** [str.lower] on one character below 256: the letters A to Z and the
    capital letters of Latin-1 (192 to 222 without the multiplication
    sign) move up by 32. *)
Definition lower_char (c : ascii) : ascii :=
  let n := nat_of_ascii c in
  if (Nat.leb 65 n && Nat.leb n 90)
     || (Nat.leb 192 n && Nat.leb n 222 && negb (Nat.eqb n 215))
  then ascii_of_nat (n + 32)
  else c.

(** [str.lower] *)
Fixpoint lower (s : string) : string :=
  match s with
  | EmptyString => EmptyString
  | String c s' => String (lower_char c) (lower s')
  end.

(** [detect_provider]: the tests are made in this order. *)
Definition detect_provider (api_key : string) : option Provider :=
  if String.eqb (lower api_key) "ollama" then Some OllamaProvider
  else if String.prefix "sk-ant-" api_key then Some AnthropicProvider
  else if String.prefix "gsk_" api_key then Some GroqProvider
  else if String.prefix "sk-" api_key then Some OpenAIProvider
  else if String.prefix "AIza" api_key then Some GeminiProvider
  else None.

(** [validate_key] of each provider.  [request_ok] tells whether the one
    request that [OpenAIProvider] and [OllamaProvider] make answers with
    status 200 and without an exception; the other providers make no
    request. *)
Definition validate_key (request_ok : bool) (p : Provider)
    (api_key : string) : bool :=
  match p with
  | OpenAIProvider =>
      if negb (String.prefix "sk-" api_key) then false else request_ok
  | AnthropicProvider =>
      if negb (String.prefix "sk-ant-" api_key) then false else true
  | OllamaProvider => request_ok
  | GeminiProvider =>
      if negb (String.prefix "AIza" api_key) then false else true
  | GroqProvider =>
      if negb (String.prefix "gsk_" api_key) then false else true
  end.

(** ** Predicates of the further properties *)

(** The text holds a character at which [str.splitlines] breaks. *)
Fixpoint has_linebreak (s : string) : bool :=
  match s with
  | EmptyString => false
  | String c s' => is_linebreak c || has_linebreak s'
  end.

(** The text holds a carriage return. *)
Fixpoint has_cr (s : string) : bool :=
  match s with
  | EmptyString => false
  | String c s' => is_cr c || has_cr s'
  end.

(** Every path of [done] is a regular file. *)
Definition files_kept (done : list path) (st : state) : Prop :=
  forall t, In t done -> is_file (fs st) t = true.

(** ** Scenarios *)

Module Scenario.

(** The base directory of the scenarios (a [tmp_path] of the tests). *)
Definition tmp : path := ["tmp"; "pytest"].

(** A patch that replaces line 1, [old], by [new] in [file]. *)
Definition modify (file old new : string) : Patch :=
  mkPatch (Some (mkHeader (Some file) (Some file)))
          [mkHunk 1 1 1 1 [(Delete, old); (Add, new)]].

(** A patch that creates [file] with the one line [l]. *)
Definition create (file l : string) : Patch :=
  mkPatch (Some (mkHeader (Some DEV_NULL) (Some file)))
          [mkHunk 0 0 1 1 [(Add, l)]].

(** A patch that deletes [file], whose one line is [l]. *)
Definition remove (file l : string) : Patch :=
  mkPatch (Some (mkHeader (Some file) (Some DEV_NULL)))
          [mkHunk 1 1 0 0 [(Delete, l)]].

(** [test_apply_unified_diff_success] *)
Definition hello_py : path := tmp ++ ["hello.py"].
Definition hello_fs : filesystem :=
  add_file hello_py ("print('hello')" ++ NL) (add_dir tmp empty_fs).
Definition hello_diff : list Patch :=
  [modify "hello.py" "print('hello')" "print('hello world')"].

(** [test_apply_new_file] *)
Definition new_file_diff : list Patch :=
  [create "new_file.py" "print('new file')"].

(** Two files of the same name in two directories; the second patch
    has a wrong context. *)
Definition dir1_x : path := tmp ++ ["dir1"; "x.py"].
Definition dir2_x : path := tmp ++ ["dir2"; "x.py"].
Definition same_name_fs : filesystem :=
  add_file dir2_x ("two" ++ NL)
    (add_file dir1_x ("one" ++ NL) (add_dir tmp empty_fs)).
Definition same_name_diff : list Patch :=
  [modify "dir1/x.py" "one" "uno"; modify "dir2/x.py" "WRONG" "dos"].

(** One file [f.py]; the second patch names a file that is missing. *)
Definition f_py : path := tmp ++ ["f.py"].
Definition one_file_fs : filesystem :=
  add_file f_py ("a" ++ NL) (add_dir tmp empty_fs).
Definition missing_target_diff : list Patch :=
  [modify "f.py" "a" "b"; modify "missing.py" "x" "y"].

(** A patch that deletes [f.py]. *)
Definition delete_diff : list Patch := [remove "f.py" "a"].

(** A patch with the sentinel on both sides. *)
Definition null_patch : Patch :=
  mkPatch (Some (mkHeader (Some DEV_NULL) (Some DEV_NULL))) [].

(** A patch whose path leaves the base directory. *)
Definition escaping_diff : list Patch := [create "../evil.txt" "x"].
Definition evil_txt : path := ["tmp"; "evil.txt"].

(** The two files of [test_apply_unified_diff_rollback], with a diff of
    one patch for each; the second patch has a wrong context. *)
Definition file1 : path := tmp ++ ["file1.py"].
Definition file2 : path := tmp ++ ["file2.py"].
Definition two_fs : filesystem :=
  add_file file2 ("content 2" ++ NL)
    (add_file file1 ("content 1" ++ NL) (add_dir tmp empty_fs)).
Definition two_diff : list Patch :=
  [modify "file1.py" "content 1" "modified 1";
   modify "file2.py" "WRONG CONTENT" "modified 2"].

(** Three files; the third patch has a wrong context. *)
Definition f1 : path := tmp ++ ["f1.py"].
Definition f2 : path := tmp ++ ["f2.py"].
Definition f3 : path := tmp ++ ["f3.py"].
Definition three_fs : filesystem :=
  add_file f3 ("c" ++ NL)
    (add_file f2 ("b" ++ NL)
       (add_file f1 ("a" ++ NL) (add_dir tmp empty_fs))).
Definition three_diff : list Patch :=
  [modify "f1.py" "a" "A"; modify "f2.py" "b" "B";
   modify "f3.py" "WRONG" "C"].

(** The directory of [hello.py] with a second file, which no patch
    names. *)
Definition notes_txt : path := tmp ++ ["notes.txt"].
Definition notes_fs : filesystem := add_file notes_txt "keep" hello_fs.

(** A base directory in which [.akita] is a regular file. *)
Definition blocked_fs : filesystem :=
  add_file (tmp ++ [".akita"]) "x" (add_dir tmp empty_fs).

(** A file to be written whole, two directories below the base. *)
Definition deep_txt : path := tmp ++ ["out"; "deep"; "a.txt"].

(** A diff that creates [n.py] and then modifies it, before a patch of
    [g.py] that has a wrong context; [g.py] is there and [n.py] is
    not. *)
Definition n_py : path := tmp ++ ["n.py"].
Definition g_py : path := tmp ++ ["g.py"].
Definition g_fs : filesystem :=
  add_file g_py ("g" ++ NL) (add_dir tmp empty_fs).
Definition created_then_modified_diff : list Patch :=
  [create "n.py" "a"; modify "n.py" "a" "b"; modify "g.py" "WRONG" "x"].

End Scenario.

(** * Properties *)

(** ** Paths *)

Lemma path_eqb_eq (p q : path) : path_eqb p q = true <-> p = q.
Proof.
  revert q; induction p as [|x p IH]; intros [|y q]; simpl;
    try (split; [discriminate | congruence]); try tauto.
  rewrite andb_true_iff, String.eqb_eq, IH.
  split; [intros [-> ->]; reflexivity | intros H; inversion H; auto].
Qed.

Lemma path_eqb_refl (p : path) : path_eqb p p = true.
Proof. apply path_eqb_eq; reflexivity. Qed.

Lemma path_eqb_neq (p q : path) : path_eqb p q = false <-> p <> q.
Proof.
  rewrite <- path_eqb_eq. destruct (path_eqb p q); split; congruence.
Qed.

Lemma strip_prefix_spec (p q r : path) :
  strip_prefix p q = Some r <-> q = p ++ r.
Proof.
  revert q; induction p as [|x p IH]; intros q; simpl.
  - split; congruence.
  - destruct q as [|y q]; [split; discriminate|].
    destruct (String.eqb x y) eqn:E.
    + apply String.eqb_eq in E; subst y. rewrite IH.
      split; [intros ->; reflexivity | intros H; inversion H; auto].
    + apply String.eqb_neq in E. split; [discriminate | congruence].
Qed.

Lemma strip_prefix_app (p r : path) : strip_prefix p (p ++ r) = Some r.
Proof. apply strip_prefix_spec; reflexivity. Qed.

Lemma under_spec (d p : path) : under d p = true <-> exists r, p = d ++ r.
Proof.
  unfold under. destruct (strip_prefix d p) as [r|] eqn:E.
  - apply strip_prefix_spec in E. split; eauto.
  - split; [discriminate|]. intros [r Hr].
    apply strip_prefix_spec in Hr. congruence.
Qed.

Lemma under_app (d r : path) : under d (d ++ r) = true.
Proof. apply under_spec; eauto. Qed.

Lemma under_refl (d : path) : under d d = true.
Proof. apply under_spec; exists []; symmetry; apply app_nil_r. Qed.

Lemma under_trans (a b c : path) :
  under a b = true -> under b c = true -> under a c = true.
Proof.
  rewrite !under_spec. intros [r ->] [s ->].
  exists (r ++ s). symmetry; apply app_assoc.
Qed.

Lemma under_false_app (d p r : path) :
  under d p = true -> under d (p ++ r) = true.
Proof.
  intros H. eapply under_trans; [exact H | apply under_app].
Qed.

Lemma parent_snoc (p : path) (x : string) : parent (p ++ [x]) = p.
Proof. apply removelast_last. Qed.

Lemma name_snoc (p : path) (x : string) : name (p ++ [x]) = x.
Proof. apply last_last. Qed.

Lemma path_snoc_cases (p : path) : p = [] \/ exists q x, p = q ++ [x].
Proof.
  induction p as [|x p _] using rev_ind; [left; reflexivity | right; eauto].
Qed.

(** ** Strings *)

Lemma prefix_nil (s : string) : String.prefix "" s = true.
Proof. destruct s; reflexivity. Qed.

Lemma prefix_cons (a : ascii) (p s : string) :
  String.prefix (String a p) s = true <->
  exists s', s = String a s' /\ String.prefix p s' = true.
Proof.
  destruct s as [|b s]; simpl.
  - split; [discriminate | intros (s' & E & _); discriminate].
  - destruct (ascii_dec a b) as [<- | Hne].
    + split; [eauto|]. intros (s' & E & H). inversion E; subst. exact H.
    + split; [discriminate|]. intros (s' & E & _). inversion E; congruence.
Qed.

Lemma substring_all (s : string) : String.substring 0 (String.length s) s = s.
Proof. induction s as [|c s IH]; simpl; [reflexivity | rewrite IH; reflexivity]. Qed.

(** ** Scenarios of the tests and of the defects *)

Module Evaluated.
Import Scenario.

(** C1.  Two patches, named [dir1/x.py] and [dir2/x.py]; only the
    second has a hunk that does not match.  Both backups are written to
    [.akita/backups/x.py.bak], so the rollback gives [dir1/x.py] the
    text of [dir2/x.py]: the call returns failure and a touched file
    differs from its content before the call. *)
Theorem rollback_restores_wrong_text :
  spec_apply_diff (modify "dir1/x.py" "one" "uno") ["one"] = Some ["uno"] /\
  spec_apply_diff (modify "dir2/x.py" "WRONG" "dos") ["two"] = None /\
  fst (apply tmp same_name_diff same_name_fs) = Ok false /\
  file_at same_name_fs dir1_x = Some ("one" ++ NL)%string /\
  file_at (fs (snd (apply tmp same_name_diff same_name_fs))) dir1_x
  = Some ("two" ++ NL)%string.
Proof. vm_compute. repeat split; reflexivity. Qed.

(** C2.  The second patch modifies a file that does not exist.  The
    call returns failure by the early [return False], which does not
    pass through the rollback: [f.py], written by the first patch,
    keeps its new text. *)
Theorem missing_target_keeps_earlier_writes :
  exists_at one_file_fs (tmp ++ ["missing.py"]) = false /\
  fst (apply tmp missing_target_diff one_file_fs) = Ok false /\
  file_at one_file_fs f_py = Some ("a" ++ NL)%string /\
  file_at (fs (snd (apply tmp missing_target_diff one_file_fs))) f_py
  = Some ("b" ++ NL)%string.
Proof. vm_compute. repeat split; reflexivity. Qed.

(** C4.  A patch whose new side is [/dev/null] and whose hunk deletes
    the one line of [f.py] applies cleanly; the call returns success
    and [f.py] still exists and holds one newline. *)
Theorem delete_patch_leaves_file :
  patch_target tmp (remove "f.py" "a") = Some f_py /\
  spec_apply_diff (remove "f.py" "a") ["a"] = Some [] /\
  fst (apply tmp delete_diff one_file_fs) = Ok true /\
  file_at (fs (snd (apply tmp delete_diff one_file_fs))) f_py = Some NL.
Proof. vm_compute. repeat split; reflexivity. Qed.

End Evaluated.

(** ** Patches without a usable target *)

Section Skipped.

Variable apply_diff : Patch -> list string -> option (list string).
Variable base : path.

Lemma patch_step_skips (p : Patch) (st : state) :
  patch_target base p = None ->
  patch_step apply_diff base p st = (Ok None, st).
Proof.
  unfold patch_target, patch_step. destruct (header p) as [h|]; [|reflexivity].
  intros ->. reflexivity.
Qed.

Lemma apply_loop_skips (before after : list Patch) (p : Patch) (st : state) :
  patch_target base p = None ->
  apply_loop apply_diff base (before ++ p :: after) st
  = apply_loop apply_diff base (before ++ after) st.
Proof.
  intros Hp. revert st. induction before as [|q before IH]; intros st; simpl.
  - unfold bind. rewrite (patch_step_skips p st Hp). reflexivity.
  - unfold bind. destruct (patch_step apply_diff base q st) as [[[b|]|e] st'];
      auto.
Qed.

(** The header sides for which the patch has no target: the selected
    side is absent, empty or the sentinel. *)
Lemma rel_path_none (h : Header) :
  rel_path h = None <->
  select_path h = None \/ select_path h = Some ""
  \/ select_path h = Some DEV_NULL.
Proof.
  unfold rel_path. destruct (select_path h) as [r|]; [|tauto].
  destruct (String.eqb r "") eqn:E1; simpl.
  - apply String.eqb_eq in E1; subst. tauto.
  - destruct (String.eqb r DEV_NULL) eqn:E2.
    + apply String.eqb_eq in E2; subst. tauto.
    + apply String.eqb_neq in E1, E2.
      destruct (String.prefix "a/" r || String.prefix "b/" r);
        (split; [discriminate | intros [H | [H | H]]; congruence]).
Qed.

Lemma both_sentinel_no_target (h : Header) :
  old_path h = Some DEV_NULL -> new_path h = Some DEV_NULL ->
  rel_path h = None.
Proof.
  intros Ho Hn. apply rel_path_none. right; right.
  unfold select_path, is_new, opt_is. rewrite Ho. simpl. exact Hn.
Qed.

(** C5, as the code has it.  A patch whose header gives no usable
    target (the selected side is absent, empty or the sentinel, which
    includes the sentinel on both sides) is passed over by [continue]:
    the loop behaves as on the diff without that patch, so does the
    call when other patches remain, and a call on that patch alone does
    not return failure. *)
Theorem unusable_patch_is_skipped (h : Header) (p : Patch)
    (before after : list Patch) :
  header p = Some h ->
  rel_path h = None ->
  (forall st, apply_loop apply_diff base (before ++ p :: after) st
              = apply_loop apply_diff base (before ++ after) st) /\
  (before ++ after <> [] ->
   forall f, call apply_diff base (before ++ p :: after) f
             = call apply_diff base (before ++ after) f) /\
  (forall f, fst (call apply_diff base [p] f) <> Ok false).
Proof.
  intros Hh Hr.
  assert (Hp : patch_target base p = None).
  { unfold patch_target, target_of. rewrite Hh, Hr. reflexivity. }
  split; [|split].
  - intros st. apply apply_loop_skips; assumption.
  - intros Hne f. unfold call, apply_unified_diff.
    destruct (before ++ after) as [|q l] eqn:E; [congruence|].
    destruct (before ++ p :: after) as [|q' l'] eqn:E';
      [destruct before; discriminate|].
    unfold bind, try_except.
    destruct (reset_backups (init f)) as [[[]|e] st0]; [|reflexivity].
    destruct (mkdir_parents (backup_dir base) st0) as [[[]|e] st1];
      [|reflexivity].
    rewrite <- E', <- E. rewrite apply_loop_skips by assumption.
    reflexivity.
  - intros f. unfold call, apply_unified_diff, bind, try_except.
    destruct (reset_backups (init f)) as [[[]|e] st0]; [|discriminate].
    destruct (mkdir_parents (backup_dir base) st0) as [[[]|e] st1];
      [|discriminate].
    simpl. unfold bind. rewrite patch_step_skips by assumption.
    simpl. discriminate.
Qed.

End Skipped.

(** C5 at the patch with the sentinel on both sides, before a patch of
    [f.py]. *)
Lemma unusable_patch_is_skipped_witness :
  (forall st, apply_loop spec_apply_diff Scenario.tmp
                ([] ++ Scenario.null_patch :: [Scenario.modify "f.py" "a" "b"]) st
              = apply_loop spec_apply_diff Scenario.tmp
                  ([] ++ [Scenario.modify "f.py" "a" "b"]) st) /\
  ([] ++ [Scenario.modify "f.py" "a" "b"] <> [] ->
   forall f, call spec_apply_diff Scenario.tmp
               ([] ++ Scenario.null_patch :: [Scenario.modify "f.py" "a" "b"]) f
             = call spec_apply_diff Scenario.tmp
                 ([] ++ [Scenario.modify "f.py" "a" "b"]) f) /\
  (forall f, fst (call spec_apply_diff Scenario.tmp [Scenario.null_patch] f)
             <> Ok false).
Proof.
  apply (unusable_patch_is_skipped spec_apply_diff Scenario.tmp
           (mkHeader (Some DEV_NULL) (Some DEV_NULL)) Scenario.null_patch
           [] [Scenario.modify "f.py" "a" "b"]); reflexivity.
Defined.

(** C5 as stated fails: the patch with the sentinel on both sides has no
    target, and the call on it returns success. *)
Lemma null_patch_call_succeeds :
  old_path (mkHeader (Some DEV_NULL) (Some DEV_NULL)) = Some DEV_NULL /\
  new_path (mkHeader (Some DEV_NULL) (Some DEV_NULL)) = Some DEV_NULL /\
  fst (apply Scenario.tmp [Scenario.null_patch] Scenario.one_file_fs)
  = Ok true.
Proof. vm_compute. repeat split; reflexivity. Qed.

(** ** The file system *)

Lemma upd_same (p : path) (v : option node) (f : filesystem) :
  upd p v f p = v.
Proof. unfold upd. rewrite path_eqb_refl. reflexivity. Qed.

Lemma upd_other (p q : path) (v : option node) (f : filesystem) :
  q <> p -> upd p v f q = f q.
Proof.
  intros H. unfold upd. apply path_eqb_neq in H. rewrite H. reflexivity.
Qed.

Lemma mkdirs_notin (ps : list path) (f : filesystem) (q : path) :
  ~ In q ps -> mkdirs ps f q = f q.
Proof.
  revert f. induction ps as [|p ps IH]; intros f Hn; simpl; [reflexivity|].
  rewrite IH by (intros H; apply Hn; right; exact H).
  apply upd_other. intros ->. apply Hn. left; reflexivity.
Qed.

Lemma mkdirs_in (ps : list path) (f : filesystem) (q : path) :
  In q ps -> mkdirs ps f q = Some Dir.
Proof.
  revert f. induction ps as [|p ps IH]; intros f; simpl; [tauto|].
  intros [-> | H]; [|auto].
  destruct (in_dec (list_eq_dec string_dec) q ps) as [Hin | Hnin]; [auto|].
  rewrite mkdirs_notin by exact Hnin. apply upd_same.
Qed.

Lemma mkdirs_cases (ps : list path) (f : filesystem) (q : path) :
  (In q ps /\ mkdirs ps f q = Some Dir) \/ (~ In q ps /\ mkdirs ps f q = f q).
Proof.
  destruct (in_dec (list_eq_dec string_dec) q ps) as [H | H].
  - left; split; [exact H | apply mkdirs_in; exact H].
  - right; split; [exact H | apply mkdirs_notin; exact H].
Qed.

Lemma prefixes_from_spec (acc p q : path) :
  In q (prefixes_from acc p) <->
  exists r s, r <> [] /\ p = r ++ s /\ q = acc ++ r.
Proof.
  revert acc; induction p as [|x p IH]; intros acc; simpl.
  - split; [tauto|]. intros (r & s & Hr & Hp & _).
    destruct r; [congruence | discriminate].
  - rewrite IH. split.
    + intros [<- | (r & s & Hr & -> & ->)].
      * exists [x], p. repeat split; congruence.
      * exists (x :: r), s. repeat split; [discriminate|].
        rewrite <- app_assoc. reflexivity.
    + intros (r & s & Hr & Hp & ->). destruct r as [|y r]; [congruence|].
      inversion Hp; subst. destruct r as [|z r].
      * left; reflexivity.
      * right. exists (z :: r), s. repeat split; [discriminate|].
        rewrite <- app_assoc. reflexivity.
Qed.

(** The members of [prefixes p] are the non-empty initial segments of
    [p]. *)
Lemma prefixes_spec (p q : path) :
  In q (prefixes p) <-> q <> [] /\ exists s, p = q ++ s.
Proof.
  unfold prefixes. rewrite prefixes_from_spec. simpl. split.
  - intros (r & s & Hr & -> & ->). split; eauto.
  - intros (Hq & s & ->). exists q, s. auto.
Qed.

Lemma prefixes_self (p : path) : p <> [] -> In p (prefixes p).
Proof.
  intros H. apply prefixes_spec. split; [exact H|].
  exists []. symmetry; apply app_nil_r.
Qed.

Lemma prefixes_app (p r q : path) : In q (prefixes p) -> In q (prefixes (p ++ r)).
Proof.
  rewrite !prefixes_spec. intros (Hq & s & ->). split; [exact Hq|].
  exists (s ++ r). symmetry; apply app_assoc.
Qed.

Lemma node_at_nonroot (f : filesystem) (p : path) :
  p <> [] -> node_at f p = f p.
Proof. destruct p; [congruence | reflexivity]. Qed.

Lemma node_at_mkdirs_in (ps : list path) (f : filesystem) (q : path) :
  In q ps -> node_at (mkdirs ps f) q = Some Dir.
Proof.
  intros H. destruct q; [reflexivity|]. simpl. apply mkdirs_in. exact H.
Qed.

Lemma node_at_mkdirs_notin (ps : list path) (f : filesystem) (q : path) :
  ~ In q ps -> node_at (mkdirs ps f) q = node_at f q.
Proof.
  intros H. destruct q; [reflexivity|]. simpl. apply mkdirs_notin. exact H.
Qed.

Lemma node_at_upd_same (p : path) (v : node) (f : filesystem) :
  p <> [] -> node_at (upd p (Some v) f) p = Some v.
Proof. intros H. rewrite node_at_nonroot by exact H. apply upd_same. Qed.

Lemma node_at_upd_other (p q : path) (v : option node) (f : filesystem) :
  q <> p -> node_at (upd p v f) q = node_at f q.
Proof.
  intros H. destruct q; [reflexivity|]. simpl. apply upd_other. exact H.
Qed.

Lemma is_dir_root (f : filesystem) : is_dir f [] = true.
Proof. reflexivity. Qed.

Lemma grows_refl (f : filesystem) : grows f f.
Proof. intros q; split; auto. Qed.

Lemma grows_trans (f g h : filesystem) : grows f g -> grows g h -> grows f h.
Proof.
  intros H1 H2 q. destruct (H1 q), (H2 q). split; auto.
Qed.

(** Making directories where no regular file stands. *)
Lemma grows_mkdirs (ps : list path) (f : filesystem) :
  grows f (mkdirs ps f).
Proof.
  intros q. unfold exists_at, is_dir.
  destruct (mkdirs_cases ps f q) as [[Hin E] | [Hn E]].
  - rewrite (node_at_mkdirs_in _ _ _ Hin). auto.
  - rewrite (node_at_mkdirs_notin _ _ _ Hn). auto.
Qed.

(** Writing a regular file where no directory stands. *)
Lemma grows_upd_file (p : path) (c : string) (f : filesystem) :
  is_dir f p = false -> grows f (upd p (Some (File c)) f).
Proof.
  intros Hd q. unfold exists_at, is_dir in *.
  destruct (list_eq_dec string_dec q p) as [-> | Hne].
  - destruct p as [|x p]; [discriminate|].
    rewrite node_at_upd_same by discriminate.
    split; [reflexivity|]. intros H; rewrite H in Hd; discriminate.
  - rewrite node_at_upd_other by exact Hne. auto.
Qed.

(** ** What the primitives log, and what they keep *)

Ltac run_prim :=
  unfold path_exists, mkdir_parents, read_text, write_text, copy2, unlink,
         shutil_move, push_backup, reset_backups, get_backups,
         bind, emit, get_fs, put_fs, raise, ret;
  simpl.

Ltac break_match :=
  repeat match goal with
         | |- context [match ?x with _ => _ end] => destruct x eqn:?; simpl
         end.

Lemma effect_nil (st : state) : effect [] st st.
Proof. split; [reflexivity | symmetry; apply app_nil_r]. Qed.

Lemma effect_trans (e1 e2 : list event) (a b c : state) :
  effect e1 a b -> effect e2 b c -> effect (e1 ++ e2) a c.
Proof.
  intros [B1 L1] [B2 L2]. split; [congruence|].
  rewrite L2, L1. symmetry; apply app_assoc.
Qed.

Lemma path_exists_run (p : path) (st : state) :
  path_exists p st
  = (Ok (exists_at (fs st) p),
     mkState (fs st) (backups st) (log st ++ [EStat p])).
Proof. reflexivity. Qed.

Lemma mkdir_parents_effect (p : path) (st : state) :
  effect [EMkdir p] st (snd (mkdir_parents p st)).
Proof. run_prim. break_match; split; reflexivity. Qed.

Lemma read_text_effect (p : path) (st : state) :
  effect [ERead p] st (snd (read_text p st)).
Proof. run_prim. break_match; split; reflexivity. Qed.

Lemma write_text_effect (p : path) (c : string) (st : state) :
  effect [EWrite p] st (snd (write_text p c st)).
Proof. run_prim. break_match; split; reflexivity. Qed.

Lemma copy2_effect (src dst : path) (st : state) :
  effect [ECopy src dst] st (snd (copy2 src dst st)).
Proof. run_prim. break_match; split; reflexivity. Qed.

Lemma unlink_effect (p : path) (st : state) :
  effect [EUnlink p] st (snd (unlink p st)).
Proof. run_prim. break_match; split; reflexivity. Qed.

Lemma shutil_move_effect (src dst : path) (st : state) :
  effect [EMove src dst] st (snd (shutil_move src dst st)).
Proof. run_prim. break_match; split; reflexivity. Qed.

Lemma mkdir_parents_grows (p : path) (st : state) :
  grows (fs st) (fs (snd (mkdir_parents p st))).
Proof.
  run_prim. break_match; try apply grows_refl. apply grows_mkdirs.
Qed.

Lemma read_text_grows (p : path) (st : state) :
  grows (fs st) (fs (snd (read_text p st))).
Proof. run_prim. break_match; apply grows_refl. Qed.

Lemma write_text_grows (p : path) (c : string) (st : state) :
  grows (fs st) (fs (snd (write_text p c st))).
Proof.
  run_prim. break_match; try apply grows_refl.
  apply grows_upd_file; assumption.
Qed.

Lemma copy2_grows (src dst : path) (st : state) :
  grows (fs st) (fs (snd (copy2 src dst st))).
Proof.
  run_prim. break_match; try apply grows_refl;
    apply grows_upd_file; assumption.
Qed.

(** [copy2] of a directory raises. *)
Lemma copy2_dir_raises (src dst : path) (st : state) :
  is_dir (fs st) src = true -> exists e, fst (copy2 src dst st) = Raise e.
Proof.
  unfold is_dir. run_prim. break_match; try discriminate. eauto.
Qed.

(** A successful [mkdir] leaves a directory, below directories. *)
Lemma mkdir_parents_ok (q r : path) (st : state) :
  fst (mkdir_parents (q ++ r) st) = Ok tt ->
  is_dir (fs (snd (mkdir_parents (q ++ r) st))) q = true.
Proof.
  run_prim. break_match; try discriminate. intros _.
  destruct q as [|x q]; [reflexivity|].
  unfold is_dir. rewrite node_at_mkdirs_in; [reflexivity|].
  apply prefixes_app, prefixes_self. discriminate.
Qed.

(** [copy2] succeeds only from a regular file, and then its destination
    exists. *)
Lemma copy2_ok (src dst : path) (st : state) :
  fst (copy2 src dst st) = Ok tt ->
  is_file (fs st) src = true /\
  exists_at (fs (snd (copy2 src dst st))) dst = true.
Proof.
  unfold is_file. run_prim. break_match; try discriminate; intros _;
    (split; [reflexivity|]).
  - (* the destination is a directory *)
    unfold exists_at.
    rewrite node_at_upd_other.
    + unfold is_dir in *. destruct (node_at (fs st) dst); congruence.
    + intros E. apply (f_equal (@length string)) in E.
      rewrite length_app in E. simpl in E. lia.
  - unfold exists_at. destruct dst as [|x dst]; [reflexivity|].
    rewrite node_at_upd_same by discriminate. reflexivity.
Qed.

(** ** Rules for triples *)

Lemma hoare_ret {A} (P : state -> Prop) (a : A) (Q : result A -> state -> Prop) :
  (forall st, P st -> Q (Ok a) st) -> hoare P (ret a) Q.
Proof. intros H st HP. apply H, HP. Qed.

Lemma hoare_raise {A} (P : state -> Prop) (e : exn)
    (Q : result A -> state -> Prop) :
  (forall st, P st -> Q (Raise e) st) -> hoare P (raise e) Q.
Proof. intros H st HP. apply H, HP. Qed.

Lemma hoare_bind {A B} (P : state -> Prop) (m : M A) (k : A -> M B)
    (R : result A -> state -> Prop) (Q : result B -> state -> Prop) :
  hoare P m R ->
  (forall a, hoare (R (Ok a)) (k a) Q) ->
  (forall e st, R (Raise e) st -> Q (Raise e) st) ->
  hoare P (bind m k) Q.
Proof.
  intros Hm Hk He st HP. specialize (Hm st HP). unfold bind.
  destruct (m st) as [[a|e] st']; simpl in *.
  - apply Hk, Hm.
  - apply He, Hm.
Qed.

Lemma hoare_consequence {A} (P P' : state -> Prop) (m : M A)
    (Q Q' : result A -> state -> Prop) :
  hoare P' m Q' ->
  (forall st, P st -> P' st) ->
  (forall r st, Q' r st -> Q r st) ->
  hoare P m Q.
Proof. intros H HP HQ st Hst. apply HQ, H, HP, Hst. Qed.

Lemma hoare_try {A} (P : state -> Prop) (m : M A) (h : exn -> M A)
    (R Q : result A -> state -> Prop) :
  hoare P m R ->
  (forall a st, R (Ok a) st -> Q (Ok a) st) ->
  (forall e, hoare (R (Raise e)) (h e) Q) ->
  hoare P (try_except m h) Q.
Proof.
  intros Hm Hok Hh st HP. specialize (Hm st HP). unfold try_except.
  destruct (m st) as [[a|e] st']; simpl in *.
  - apply Hok, Hm.
  - apply Hh, Hm.
Qed.

Lemma keeps_ret {A} (I : state -> Prop) (a : A) : keeps I (ret a).
Proof. apply hoare_ret. auto. Qed.

Lemma keeps_raise {A} (I : state -> Prop) (e : exn) : keeps I (@raise A e).
Proof. apply hoare_raise. auto. Qed.

Lemma keeps_bind {A B} (I : state -> Prop) (m : M A) (k : A -> M B) :
  keeps I m -> (forall a, keeps I (k a)) -> keeps I (bind m k).
Proof.
  intros Hm Hk. eapply hoare_bind; [exact Hm | exact Hk | auto].
Qed.

Lemma keeps_try {A} (I : state -> Prop) (m : M A) (h : exn -> M A) :
  keeps I m -> (forall e, keeps I (h e)) -> keeps I (try_except m h).
Proof.
  intros Hm Hh. eapply hoare_try; [exact Hm | auto | exact Hh].
Qed.

Lemma keeps_if {A} (I : state -> Prop) (b : bool) (m1 m2 : M A) :
  keeps I m1 -> keeps I m2 -> keeps I (if b then m1 else m2).
Proof. destruct b; auto. Qed.

Lemma bind_ok {A B} (m : M A) (k : A -> M B) (st st' : state) (a : A) :
  m st = (Ok a, st') -> bind m k st = k a st'.
Proof. intros E. unfold bind. rewrite E. reflexivity. Qed.

(** A triple whose postcondition also records the result of
    [Path.exists]. *)
Lemma path_exists_hoare (I : state -> Prop) (p : path) :
  (forall st, I st ->
     I (mkState (fs st) (backups st) (log st ++ [EStat p]))) ->
  hoare I (path_exists p)
        (fun r st => I st /\ r = Ok (exists_at (fs st) p)).
Proof. intros H st HI. rewrite path_exists_run. simpl. auto. Qed.

(** ** The shape of a call *)

(** A call on a diff with patches makes the backup directory and runs
    the loop under the handler. *)
Lemma call_cons (apply_diff : Patch -> list string -> option (list string))
    (base : path) (p : Patch) (ps : list Patch) (f : filesystem) :
  call apply_diff base (p :: ps) f
  = match mkdir_parents (backup_dir base) (init f) with
    | (Ok _, st) =>
        try_except (apply_loop apply_diff base (p :: ps))
                   (rollback) st
    | (Raise e, st) => (Raise e, st)
    end.
Proof. reflexivity. Qed.

Lemma call_nil (apply_diff : Patch -> list string -> option (list string))
    (base : path) (f : filesystem) :
  call apply_diff base [] f = (Ok false, init f).
Proof. reflexivity. Qed.

Lemma rollback_loop_cons (entry : path * option path)
    (bs : list (path * option path)) (st : state) :
  rollback_loop (entry :: bs) st
  = match rollback_entry entry st with
    | (Ok _, st1) => rollback_loop bs st1
    | (Raise x, st1) => (Raise x, st1)
    end.
Proof. reflexivity. Qed.

(** What the handler leaves is what the rollback loop leaves. *)
Lemma rollback_state (e : exn) (st : state) :
  snd (rollback e st) = snd (rollback_loop (backups st) st) /\
  (fst (rollback e st) = Ok false \/ exists x, fst (rollback e st) = Raise x).
Proof.
  unfold rollback, bind, get_backups.
  destruct (rollback_loop (backups st) st) as [[[]|x] st']; simpl; eauto.
Qed.

(** ** Confinement to the base directory *)

Lemma resolve_step_under (base acc : path) (c : string) :
  String.eqb c ".." = false ->
  under base acc = true -> under base (resolve_step acc c) = true.
Proof.
  intros Hc H. unfold resolve_step.
  destruct (String.eqb c "" || String.eqb c "."); [exact H|].
  rewrite Hc. apply under_false_app. exact H.
Qed.

Lemma fold_resolve_under (base : path) (cs : list string) (acc : path) :
  forallb (fun c => negb (String.eqb c "..")) cs = true ->
  under base acc = true ->
  under base (fold_left resolve_step cs acc) = true.
Proof.
  revert acc. induction cs as [|c cs IH]; intros acc Hcs H; simpl; [exact H|].
  simpl in Hcs. apply andb_true_iff in Hcs. destruct Hcs as [Hc Hcs].
  apply IH; [exact Hcs|]. apply resolve_step_under; [|exact H].
  destruct (String.eqb c ".."); [discriminate | reflexivity].
Qed.

Lemma resolve_plain_under (base : path) (r : string) :
  plain_relative r = true -> under base (resolve base r) = true.
Proof.
  unfold plain_relative, resolve. intros H.
  apply andb_true_iff in H. destruct H as [Ha Hc].
  destruct (is_absolute r); [discriminate|].
  apply fold_resolve_under; [exact Hc | apply under_refl].
Qed.

Lemma under_parent (d p : path) :
  under d p = true -> p <> d -> under d (parent p) = true.
Proof.
  rewrite !under_spec. intros [r ->] Hne.
  destruct (path_snoc_cases r) as [-> | (q & x & ->)].
  - rewrite app_nil_r in Hne. congruence.
  - exists q. rewrite app_assoc. apply parent_snoc.
Qed.

Lemma is_dir_exists (f : filesystem) (p : path) :
  is_dir f p = true -> exists_at f p = true.
Proof. unfold is_dir, exists_at. destruct (node_at f p); congruence. Qed.

Section Confinement.

Variable apply_diff : Patch -> list string -> option (list string).
Variable base : path.

Lemma backup_dir_under : under base (backup_dir base) = true.
Proof. apply under_app. Qed.

Lemma backup_file_under (t : path) : under base (backup_file base t) = true.
Proof.
  unfold backup_file, backup_dir. rewrite <- app_assoc. apply under_app.
Qed.

Lemma log_within_snoc (l evs : list event) :
  log_within base l ->
  (forall e p, In e evs -> In p (event_paths e) -> under base p = true) ->
  log_within base (l ++ evs).
Proof.
  intros Hl He. unfold log_within. apply Forall_app. split; [exact Hl|].
  apply Forall_forall. intros e Hin p Hp. eapply He; eassumption.
Qed.

(** A primitive that only grows the file system and logs calls inside
    the base keeps the invariant. *)
Lemma confined_prim {A} (m : M A) (evs : list event) :
  (forall st, effect evs st (snd (m st))) ->
  (forall st, grows (fs st) (fs (snd (m st)))) ->
  (forall e p, In e evs -> In p (event_paths e) -> under base p = true) ->
  keeps (confined base) m.
Proof.
  intros He Hg Hu st (Hd & Hl & Hb).
  destruct (He st) as [Eb El]. repeat split.
  - apply (Hg st). exact Hd.
  - rewrite El. apply log_within_snoc; assumption.
  - rewrite Eb. exact Hb.
Qed.

Lemma confined_log_prim {A} (m : M A) (evs : list event) :
  (forall st, effect evs st (snd (m st))) ->
  (forall e p, In e evs -> In p (event_paths e) -> under base p = true) ->
  keeps (confined_log base) m.
Proof.
  intros He Hu st (Hl & Hb).
  destruct (He st) as [Eb El]. split.
  - rewrite El. apply log_within_snoc; assumption.
  - rewrite Eb. exact Hb.
Qed.

Ltac one_event :=
  let e := fresh "e" in let p := fresh "p" in
  intros e p [<- | []]; simpl; intuition (subst; auto).

Lemma confined_path_exists (t : path) :
  under base t = true -> keeps (confined base) (path_exists t).
Proof.
  intros Ht. apply (confined_prim _ [EStat t]).
  - intros st. rewrite path_exists_run. split; reflexivity.
  - intros st. rewrite path_exists_run. apply grows_refl.
  - one_event.
Qed.

Lemma confined_push (t : path) (b : option path) :
  under base t = true ->
  (forall b', b = Some b' -> under base b' = true) ->
  keeps (confined base) (push_backup (t, b)).
Proof.
  intros Ht Hb st (Hd & Hl & Hbs). repeat split; simpl; auto.
  unfold backups_within. apply Forall_app. split; [exact Hbs|].
  constructor; [|constructor]. simpl. auto.
Qed.

Lemma confined_copy2 (t : path) :
  under base t = true ->
  keeps (confined base) (copy2 t (backup_file base t)).
Proof.
  intros Ht. apply (confined_prim _ [ECopy t (backup_file base t)]).
  - apply copy2_effect.
  - apply copy2_grows.
  - pose proof (backup_file_under t). one_event.
Qed.

Lemma confined_read (t : path) :
  under base t = true -> keeps (confined base) (read_text t).
Proof.
  intros Ht. apply (confined_prim _ [ERead t]).
  - apply read_text_effect.
  - apply read_text_grows.
  - one_event.
Qed.

Lemma confined_write (t : path) (c : string) :
  under base t = true -> keeps (confined base) (write_text t c).
Proof.
  intros Ht. apply (confined_prim _ [EWrite t]).
  - apply write_text_effect.
  - apply write_text_grows.
  - one_event.
Qed.

Lemma confined_mkdir (t : path) :
  under base t = true -> keeps (confined base) (mkdir_parents t).
Proof.
  intros Ht. apply (confined_prim _ [EMkdir t]).
  - apply mkdir_parents_effect.
  - apply mkdir_parents_grows.
  - one_event.
Qed.

(** The rest of the loop body once the target is known to be there or
    to be created: backup, application, write. *)
Lemma confined_patch_step (p : Patch) :
  (forall t, patch_target base p = Some t -> under base t = true) ->
  keeps (confined base) (patch_step apply_diff base p).
Proof.
  unfold patch_target, patch_step. intros Ht.
  destruct (header p) as [h|]; [|apply keeps_ret].
  destruct (target_of base h) as [t|]; [|apply keeps_ret].
  specialize (Ht t eq_refl).
  apply keeps_bind.
  { destruct (is_new h); [apply keeps_ret|].
    apply keeps_bind; [apply confined_path_exists; exact Ht|].
    intros a. apply keeps_ret. }
  intros missing. destruct missing; [apply keeps_ret|].
  destruct (list_eq_dec string_dec t base) as [-> | Hne].
  - (* the target is the base directory: [copy2] raises *)
    eapply hoare_bind.
    + apply path_exists_hoare. intros st HI.
      apply (confined_path_exists base Ht st HI).
    + intros e st [HI He]. inversion He; subst e; clear He.
      pose proof (confined_copy2 base Ht st HI) as Hc.
      destruct HI as (Hd & Hl & Hb).
      rewrite (is_dir_exists _ _ Hd).
      destruct (copy2_dir_raises base (backup_file base base) st Hd)
        as [x Hx].
      unfold bind.
      destruct (copy2 base (backup_file base base) st) as [[u|x'] st1];
        simpl in *; [discriminate | exact Hc].
    + intros e st [HI _]. exact HI.
  - apply keeps_bind; [apply confined_path_exists; exact Ht|].
    intros e. apply keeps_bind.
    { destruct e.
      - apply keeps_bind; [apply confined_copy2; exact Ht|].
        intros _. apply confined_push; [exact Ht|].
        intros b' E. inversion E. apply backup_file_under.
      - apply confined_push; [exact Ht | discriminate]. }
    intros _. apply keeps_bind; [apply confined_path_exists; exact Ht|].
    intros e'. apply keeps_bind.
    { destruct e'; [apply confined_read; exact Ht | apply keeps_ret]. }
    intros content.
    destruct (apply_diff p (splitlines content)); [|apply keeps_raise].
    apply keeps_bind.
    { apply confined_mkdir. apply under_parent; assumption. }
    intros _. apply keeps_bind; [apply confined_write; exact Ht|].
    intros _. apply keeps_ret.
Qed.

Lemma confined_apply_loop (patches : list Patch) :
  (forall t, In t (targets base patches) -> under base t = true) ->
  keeps (confined base) (apply_loop apply_diff base patches).
Proof.
  induction patches as [|p ps IH]; intros Ht; simpl; [apply keeps_ret|].
  apply keeps_bind.
  - apply confined_patch_step. intros t E. apply Ht.
    unfold targets. simpl. rewrite E. left; reflexivity.
  - intros [b|]; [apply keeps_ret|]. apply IH. intros t Hin. apply Ht.
    unfold targets in *. simpl. apply in_or_app. right; exact Hin.
Qed.

Lemma confined_log_rollback_entry (t : path) (b : option path) :
  under base t = true ->
  (forall b', b = Some b' -> under base b' = true) ->
  keeps (confined_log base) (rollback_entry (t, b)).
Proof.
  intros Ht Hb. unfold rollback_entry. destruct b as [b|].
  - specialize (Hb b eq_refl). apply keeps_bind.
    + apply (confined_log_prim _ [EStat b]).
      * intros st. rewrite path_exists_run. split; reflexivity.
      * one_event.
    + intros [|]; [|apply keeps_ret].
      apply (confined_log_prim _ [EMove b t]).
      * apply shutil_move_effect.
      * one_event.
  - apply keeps_bind.
    + apply (confined_log_prim _ [EStat t]).
      * intros st. rewrite path_exists_run. split; reflexivity.
      * one_event.
    + intros [|]; [|apply keeps_ret].
      apply (confined_log_prim _ [EUnlink t]).
      * apply unlink_effect.
      * one_event.
Qed.

Lemma confined_log_rollback_loop (bs : list (path * option path)) :
  backups_within base bs ->
  keeps (confined_log base) (rollback_loop bs).
Proof.
  induction bs as [|[t b] bs IH]; intros Hbs; simpl; [apply keeps_ret|].
  inversion Hbs as [|? ? [Ht Hb] Hrest]; subst. simpl in *.
  apply keeps_bind; [apply confined_log_rollback_entry; assumption|].
  intros _. apply IH. exact Hrest.
Qed.

Lemma confined_log_rollback (e : exn) :
  keeps (confined_log base) (rollback e).
Proof.
  intros st HI. unfold rollback, bind, get_backups.
  pose proof (confined_log_rollback_loop (backups st) (proj2 HI) st HI) as H.
  destruct (rollback_loop (backups st) st) as [[u|x] st']; exact H.
Qed.

Lemma confined_call (patches : list Patch) (f : filesystem) :
  (forall t, In t (targets base patches) -> under base t = true) ->
  log_within base (log (snd (call apply_diff base patches f))).
Proof.
  intros Ht.
  destruct patches as [|p ps]; [constructor|].
  rewrite call_cons.
  remember (p :: ps) as patches eqn:Eps. clear Eps.
  pose proof (mkdir_parents_effect (backup_dir base) (init f)) as [Eb El].
  pose proof (mkdir_parents_ok base [".akita"; "backups"] (init f)) as Hok.
  fold (backup_dir base) in Hok.
  destruct (mkdir_parents (backup_dir base) (init f))
    as [[[]|e] st1]; simpl in *.
  - assert (HI : confined base st1).
    { repeat split.
      - apply Hok. reflexivity.
      - rewrite El. constructor; [|constructor]. simpl.
        intros q [<- | []]. apply backup_dir_under.
      - rewrite Eb. constructor. }
    refine (proj1 (hoare_try (confined base) _ _
              (fun _ st => confined base st)
              (fun _ st => confined_log base st) _ _ _ st1 HI)).
    + apply confined_apply_loop. exact Ht.
    + intros a st (Hd & Hl & Hb). split; assumption.
    + intros e st (Hd & Hl & Hb).
      apply confined_log_rollback. split; assumption.
  - rewrite El. constructor; [|constructor]. simpl.
    intros q [<- | []]. apply backup_dir_under.
Qed.

End Confinement.

(** Taking off the leading [a/] or [b/] keeps a path relative and free
    of [..], unless the path begins with [a//] or [b//]. *)
Lemma rel_path_plain (h : Header) (s r : string) :
  select_path h = Some s ->
  plain_header_path s = true ->
  rel_path h = Some r ->
  plain_relative r = true.
Proof.
  intros Hs Hp. unfold rel_path. rewrite Hs.
  destruct (String.eqb s "" || String.eqb s DEV_NULL); [discriminate|].
  unfold plain_header_path in Hp.
  apply andb_true_iff in Hp. destruct Hp as [Hp Hb].
  apply andb_true_iff in Hp. destruct Hp as [Hpl Ha].
  apply negb_true_iff in Ha, Hb.
  assert (Hstrip : forall c rest,
            plain_relative (String c (String "/" rest)) = true ->
            String.eqb (String c "") ".." = false ->
            is_absolute rest = false ->
            plain_relative rest = true).
  { intros c rest H Hc Habs. unfold plain_relative in *.
    rewrite Habs. simpl negb. rewrite andb_true_l.
    apply andb_true_iff in H. destruct H as [_ H].
    change (split_slash (String c (String "/" rest)))
      with (split_slash_from "" (String c (String "/" rest))) in H.
    cbn [split_slash_from] in H.
    destruct (Ascii.eqb c "/") eqn:Ec.
    - cbn [forallb] in H. apply andb_true_iff in H. destruct H as [_ H].
      cbn [split_slash_from] in H. rewrite Ascii.eqb_refl in H.
      cbn [forallb] in H. apply andb_true_iff in H. apply H.
    - cbn [split_slash_from] in H. rewrite Ascii.eqb_refl in H.
      cbn [forallb] in H. apply andb_true_iff in H. apply H. }
  destruct (String.prefix "a/" s) eqn:Ea.
  - apply prefix_cons in Ea. destruct Ea as (s1 & -> & Ea).
    apply prefix_cons in Ea. destruct Ea as (rest & -> & _).
    simpl. rewrite Nat.sub_0_r, substring_all.
    intros E. inversion E; subst r.
    apply (Hstrip "a"%char rest Hpl); [reflexivity|].
    simpl in Ha. exact Ha.
  - destruct (String.prefix "b/" s) eqn:Eb.
    + apply prefix_cons in Eb. destruct Eb as (s1 & -> & Eb).
      apply prefix_cons in Eb. destruct Eb as (rest & -> & _).
      simpl. rewrite Nat.sub_0_r, substring_all.
      intros E. inversion E; subst r.
      apply (Hstrip "b"%char rest Hpl); [reflexivity|].
      simpl in Hb. exact Hb.
    + simpl. intros E. inversion E; subst r. exact Hpl.
Qed.

(** Every target of a diff is the base joined with the stripped path of
    one of its patches. *)
Lemma in_targets (base : path) (patches : list Patch) (t : path) :
  In t (targets base patches) ->
  exists p h r, In p patches /\ header p = Some h /\
                rel_path h = Some r /\ t = resolve base r.
Proof.
  unfold targets. rewrite in_flat_map. intros (p & Hp & Ht).
  unfold patch_target, target_of in Ht.
  destruct (header p) as [h|] eqn:Eh; [|destruct Ht].
  destruct (rel_path h) as [r|] eqn:Er; [|destruct Ht].
  simpl in Ht. destruct Ht as [<- | []].
  exists p, h, r. auto.
Qed.

(** C3, as the code has it.  The target of a patch is the lexical
    normalisation of the base joined with the path of the header from
    which one leading [a/] or [b/] has been taken off.  It lies in the
    base when that stripped path is relative and has no [..] segment;
    for the path as the header has it this holds when it is relative,
    has no [..] segment and does not begin with [a//] or [b//] (the
    strip would leave an absolute path).  When the target of every
    patch lies in the base, in particular when every header path is of
    that kind, every path passed to a file-system call during the call
    (stat, read, copy, write, mkdir, move, unlink) lies in the base.
    Nothing in the applier checks the target against the base. *)
Theorem accesses_confined
    (apply_diff : Patch -> list string -> option (list string))
    (base : path) (patches : list Patch) :
  (forall h r t, rel_path h = Some r -> plain_relative r = true ->
                 target_of base h = Some t -> under base t = true) /\
  (forall h s t, select_path h = Some s -> plain_header_path s = true ->
                 target_of base h = Some t -> under base t = true) /\
  ((forall t, In t (targets base patches) -> under base t = true) ->
   forall f, log_within base (log (snd (call apply_diff base patches f)))) /\
  (plain_diff patches ->
   forall f, log_within base (log (snd (call apply_diff base patches f)))).
Proof.
  assert (A : forall h r t, rel_path h = Some r -> plain_relative r = true ->
                target_of base h = Some t -> under base t = true).
  { intros h r t Hr Hp Ht. unfold target_of in Ht. rewrite Hr in Ht.
    simpl in Ht. inversion Ht; subst t. apply resolve_plain_under. exact Hp. }
  assert (B : forall h s t, select_path h = Some s ->
                plain_header_path s = true ->
                target_of base h = Some t -> under base t = true).
  { intros h s t Hs Hp Ht.
    destruct (rel_path h) as [r|] eqn:Er.
    - apply (A h r t Er); [|exact Ht]. apply (rel_path_plain h s r); assumption.
    - unfold target_of in Ht. rewrite Er in Ht. discriminate. }
  split; [exact A | split; [exact B | split]].
  - intros Ht f. apply confined_call. exact Ht.
  - intros Hplain f. apply confined_call. intros t Hin.
    apply in_targets in Hin. destruct Hin as (p & h & r & Hp & Hh & Hr & ->).
    destruct (select_path h) as [s|] eqn:Es.
    + apply resolve_plain_under. apply (rel_path_plain h s r); auto.
      apply (Hplain p h s); assumption.
    + unfold rel_path in Hr. rewrite Es in Hr. discriminate.
Qed.

(** C3 at the diff of [hello.py]. *)
Lemma accesses_confined_witness :
  log_within Scenario.tmp
    (log (snd (call spec_apply_diff Scenario.tmp Scenario.hello_diff
                    Scenario.hello_fs))).
Proof.
  apply (proj2 (proj2 (proj2 (accesses_confined spec_apply_diff Scenario.tmp
                                Scenario.hello_diff)))).
  intros p h s [<- | []] Eh Es. inversion Eh; subst h.
  vm_compute in Es. inversion Es; subst s. reflexivity.
Defined.

(** The strip can make a relative path absolute: the header path
    [a//etc/passwd] is relative and has no [..] segment, and its target
    is [/etc/passwd]. *)
Lemma stripped_path_is_absolute :
  plain_relative "a//etc/passwd" = true /\
  plain_header_path "a//etc/passwd" = false /\
  rel_path (mkHeader (Some "a//etc/passwd") (Some "a//etc/passwd"))
  = Some "/etc/passwd" /\
  target_of Scenario.tmp (mkHeader (Some "a//etc/passwd") (Some "a//etc/passwd"))
  = Some ["etc"; "passwd"] /\
  under Scenario.tmp ["etc"; "passwd"] = false.
Proof. vm_compute. repeat split; reflexivity. Qed.

(** C3 as stated fails: a patch that creates [../evil.txt] is not
    rejected; its target resolves outside the base, and the call stats
    and writes it there and returns success. *)
Lemma escaping_patch_writes_outside :
  patch_target Scenario.tmp (Scenario.create "../evil.txt" "x")
  = Some Scenario.evil_txt /\
  under Scenario.tmp Scenario.evil_txt = false /\
  fst (apply Scenario.tmp Scenario.escaping_diff Scenario.one_file_fs)
  = Ok true /\
  file_at Scenario.one_file_fs Scenario.evil_txt = None /\
  file_at (fs (snd (apply Scenario.tmp Scenario.escaping_diff
                          Scenario.one_file_fs))) Scenario.evil_txt
  = Some ("x" ++ NL)%string /\
  log (snd (apply Scenario.tmp Scenario.escaping_diff Scenario.one_file_fs))
  = [EMkdir (Scenario.tmp ++ [".akita"; "backups"]);
     EStat Scenario.evil_txt; EStat Scenario.evil_txt;
     EMkdir ["tmp"]; EWrite Scenario.evil_txt].
Proof. vm_compute. repeat split; reflexivity. Qed.

(** ** The order of the rollback *)

Lemma Subseq_refl {A} (l : list A) : Subseq l l.
Proof. induction l; constructor; assumption. Qed.

Lemma Subseq_app {A} (s1 l1 s2 l2 : list A) :
  Subseq s1 l1 -> Subseq s2 l2 -> Subseq (s1 ++ s2) (l1 ++ l2).
Proof.
  intros H1 H2. induction H1; simpl.
  - induction l as [|x l IH]; simpl; [exact H2 | constructor; exact IH].
  - constructor; assumption.
  - constructor; assumption.
Qed.

Lemma Prefix_refl {A} (l : list A) : Prefix l l.
Proof. exists []. symmetry; apply app_nil_r. Qed.

Lemma Prefix_nil {A} (l : list A) : Prefix [] l.
Proof. exists l. reflexivity. Qed.

Lemma Prefix_app {A} (a b c : list A) : Prefix b c -> Prefix (a ++ b) (a ++ c).
Proof. intros [r ->]. exists r. apply app_assoc. Qed.

Lemma Prefix_app_r {A} (a b c : list A) : Prefix a b -> Prefix a (b ++ c).
Proof. intros [r ->]. exists (r ++ c). symmetry; apply app_assoc. Qed.

Lemma progress_start (st0 : state) : progress st0 [] [] st0.
Proof.
  exists []. repeat split; simpl; symmetry; apply app_nil_r.
Qed.

(** A primitive that records nothing moves [progress] by the writes it
    logs. *)
Lemma progress_prim {A} (m : M A) (evs : list event) (st0 : state)
    (ts ws : list path) :
  (forall st, effect evs st (snd (m st))) ->
  flat_map restored evs = [] ->
  hoare (progress st0 ts ws) m
        (fun _ st => progress st0 ts (ws ++ flat_map written evs) st).
Proof.
  intros He Hr st (evs0 & Hl & Hres & Hw & Hb).
  destruct (He st) as [Eb El].
  exists (evs0 ++ evs). repeat split.
  - rewrite El, Hl. symmetry; apply app_assoc.
  - rewrite flat_map_app, Hres, Hr. reflexivity.
  - rewrite flat_map_app, Hw. reflexivity.
  - rewrite Eb. exact Hb.
Qed.

Lemma progress_silent {A} (m : M A) (evs : list event) (st0 : state)
    (ts ws : list path) :
  (forall st, effect evs st (snd (m st))) ->
  flat_map restored evs = [] ->
  flat_map written evs = [] ->
  keeps (progress st0 ts ws) m.
Proof.
  intros He Hr Hw st HP.
  pose proof (progress_prim m evs st0 ts ws He Hr st HP) as H.
  simpl in H. rewrite Hw, app_nil_r in H. exact H.
Qed.

Lemma progress_path_exists (t : path) (st0 : state) (ts ws : list path) :
  keeps (progress st0 ts ws) (path_exists t).
Proof.
  apply (progress_silent _ [EStat t]); try reflexivity.
  intros st. rewrite path_exists_run. split; reflexivity.
Qed.

Lemma progress_push (entry : path * option path) (st0 : state)
    (ts ws : list path) :
  hoare (progress st0 ts ws) (push_backup entry)
        (fun _ st => progress st0 (ts ++ [fst entry]) ws st).
Proof.
  intros st (evs & Hl & Hres & Hw & Hb). exists evs. simpl.
  repeat split; try assumption.
  rewrite map_app, Hb. simpl. symmetry; apply app_assoc.
Qed.

Section Order.

Variable apply_diff : Patch -> list string -> option (list string).
Variable base : path.

(** One patch records at most its target and logs at most one write,
    of that target and after recording it; when the loop goes on, it
    has done both or the patch has no target. *)
Lemma progress_patch_step (p : Patch) (st0 : state) (ts ws : list path) :
  hoare (progress st0 ts ws) (patch_step apply_diff base p)
    (fun r st => exists ts1 ws1,
         progress st0 (ts ++ ts1) (ws ++ ws1) st /\
         Prefix ws1 ts1 /\ Prefix ts1 (target_list base p) /\
         (r = Ok None -> ws1 = ts1 /\ ts1 = target_list base p)).
Proof.
  unfold target_list, patch_target, patch_step.
  assert (Hnone : forall r st, progress st0 ts ws st ->
            exists ts1 ws1, progress st0 (ts ++ ts1) (ws ++ ws1) st /\
              Prefix ws1 ts1 /\ Prefix ts1 (@nil path) /\
              (r = @Ok (option bool) None -> ws1 = ts1 /\ ts1 = [])).
  { intros r st HP. exists [], []. rewrite !app_nil_r.
    repeat split; auto using Prefix_refl. }
  destruct (header p) as [h|]; [|apply hoare_ret; intros; apply Hnone; auto].
  destruct (target_of base h) as [t|];
    [|apply hoare_ret; intros; apply Hnone; auto].
  clear Hnone.
  assert (Hstop : forall (r : result (option bool)) st,
            r <> Ok None -> progress st0 ts ws st ->
            exists ts1 ws1, progress st0 (ts ++ ts1) (ws ++ ws1) st /\
              Prefix ws1 ts1 /\ Prefix ts1 [t] /\
              (r = Ok None -> ws1 = ts1 /\ ts1 = [t])).
  { intros r st Hr HP. exists [], []. rewrite !app_nil_r.
    repeat split; auto using Prefix_refl, Prefix_nil; congruence. }
  assert (Hpushed : forall (r : result (option bool)) st,
            r <> Ok None -> progress st0 (ts ++ [t]) ws st ->
            exists ts1 ws1, progress st0 (ts ++ ts1) (ws ++ ws1) st /\
              Prefix ws1 ts1 /\ Prefix ts1 [t] /\
              (r = Ok None -> ws1 = ts1 /\ ts1 = [t])).
  { intros r st Hr HP. exists [t], []. rewrite !app_nil_r.
    repeat split; auto using Prefix_refl, Prefix_nil; congruence. }
  eapply hoare_bind with (R := fun _ st => progress st0 ts ws st).
  { destruct (is_new h); [apply keeps_ret|].
    apply keeps_bind; [apply progress_path_exists|].
    intros a. apply keeps_ret. }
  2: { intros e st HP. apply Hstop; [discriminate | exact HP]. }
  intros missing. destruct missing.
  { apply hoare_ret. intros st HP. apply Hstop; [discriminate | exact HP]. }
  eapply hoare_bind with (R := fun _ st => progress st0 ts ws st);
    [apply progress_path_exists | |
     intros e st HP; apply Hstop; [discriminate | exact HP]].
  intros e.
  eapply hoare_bind
    with (R := fun r st =>
                 match r with
                 | Ok _ => progress st0 (ts ++ [t]) ws st
                 | Raise _ => progress st0 ts ws st
                 end).
  { destruct e.
    - eapply hoare_bind with (R := fun _ st => progress st0 ts ws st).
      + apply (progress_silent _ [ECopy t (backup_file base t)]);
          try reflexivity. apply copy2_effect.
      + intros _. apply (progress_push (t, Some (backup_file base t))).
      + auto.
    - apply (progress_push (t, None)). }
  2: { intros e' st HP. apply Hstop; [discriminate | exact HP]. }
  intros _.
  eapply hoare_bind with (R := fun _ st => progress st0 (ts ++ [t]) ws st);
    [apply progress_path_exists | |
     intros e' st HP; apply Hpushed; [discriminate | exact HP]].
  intros e'.
  eapply hoare_bind with (R := fun _ st => progress st0 (ts ++ [t]) ws st).
  { destruct e'; [|apply keeps_ret].
    apply (progress_silent _ [ERead t]); try reflexivity.
    apply read_text_effect. }
  2: { intros x st HP. apply Hpushed; [discriminate | exact HP]. }
  intros content.
  destruct (apply_diff p (splitlines content)) as [patched|].
  2: { apply hoare_raise. intros st HP.
       apply Hpushed; [discriminate | exact HP]. }
  eapply hoare_bind with (R := fun _ st => progress st0 (ts ++ [t]) ws st).
  { apply (progress_silent _ [EMkdir (parent t)]); try reflexivity.
    apply mkdir_parents_effect. }
  2: { intros x st HP. apply Hpushed; [discriminate | exact HP]. }
  intros _.
  eapply hoare_bind
    with (R := fun _ st => progress st0 (ts ++ [t]) (ws ++ [t]) st).
  { apply (progress_prim _ [EWrite t]); [|reflexivity].
    apply write_text_effect. }
  - intros _. apply hoare_ret. intros st HP. exists [t], [t].
    repeat split; auto using Prefix_refl.
  - intros x st HP. exists [t], [t].
    repeat split; auto using Prefix_refl.
Qed.

Lemma progress_apply_loop (patches : list Patch) (st0 : state) :
  forall ts ws,
  hoare (progress st0 ts ws) (apply_loop apply_diff base patches)
    (fun _ st => exists ts1 ws1,
         progress st0 (ts ++ ts1) (ws ++ ws1) st /\
         Prefix ws1 ts1 /\ Prefix ts1 (targets base patches)).
Proof.
  induction patches as [|p ps IH]; intros ts ws; simpl.
  - apply hoare_ret. intros st HP. exists [], []. rewrite !app_nil_r.
    repeat split; auto using Prefix_refl.
  - eapply hoare_bind; [apply progress_patch_step | |].
    + intros a st (ts1 & ws1 & HP & Hw & Ht & Hgo).
      unfold targets. simpl. fold (targets base ps).
      fold (target_list base p).
      destruct a as [b|].
      * exists ts1, ws1. repeat split; auto using Prefix_app_r.
      * destruct (Hgo eq_refl) as [-> ->].
        destruct (IH (ts ++ target_list base p) (ws ++ target_list base p)
                     st HP) as (ts2 & ws2 & HP2 & Hw2 & Ht2).
        exists (target_list base p ++ ts2), (target_list base p ++ ws2).
        rewrite !app_assoc. repeat split; auto using Prefix_app.
    + intros e st (ts1 & ws1 & HP & Hw & Ht & _).
      unfold targets. simpl. fold (targets base ps).
      fold (target_list base p).
      exists ts1, ws1. repeat split; auto using Prefix_app_r.
Qed.

Lemma rollback_entry_log (t : path) (b : option path) (st : state) :
  exists evs,
    effect evs st (snd (rollback_entry (t, b) st)) /\
    Subseq (flat_map restored evs) [t] /\
    flat_map written evs = [].
Proof.
  unfold rollback_entry. destruct b as [b|]; unfold bind;
    rewrite path_exists_run.
  - destruct (exists_at (fs st) b).
    + exists ([EStat b] ++ [EMove b t]). split; [|split].
      * eapply effect_trans; [|apply shutil_move_effect].
        split; reflexivity.
      * simpl. apply Subseq_refl.
      * reflexivity.
    + exists [EStat b]. split; [|split]; try reflexivity.
      * split; reflexivity.
      * simpl. constructor.
  - destruct (exists_at (fs st) t).
    + exists ([EStat t] ++ [EUnlink t]). split; [|split].
      * eapply effect_trans; [|apply unlink_effect].
        split; reflexivity.
      * simpl. apply Subseq_refl.
      * reflexivity.
    + exists [EStat t]. split; [|split]; try reflexivity.
      * split; reflexivity.
      * simpl. constructor.
Qed.

(** The rollback visits the entries in the order of the list. *)
Lemma rollback_loop_log (bs : list (path * option path)) (st : state) :
  exists evs,
    effect evs st (snd (rollback_loop bs st)) /\
    Subseq (flat_map restored evs) (map fst bs) /\
    flat_map written evs = [].
Proof.
  revert st. induction bs as [|[t b] bs IH]; intros st.
  - exists []. split; [apply effect_nil | split; [constructor | reflexivity]].
  - destruct (rollback_entry_log t b st) as (evs1 & He1 & Hs1 & Hw1).
    rewrite rollback_loop_cons. simpl map.
    destruct (rollback_entry (t, b) st) as [[u|x] st1]; simpl in He1 |- *.
    + destruct (IH st1) as (evs2 & He2 & Hs2 & Hw2).
      exists (evs1 ++ evs2). split; [|split].
      * eapply effect_trans; eassumption.
      * rewrite flat_map_app. apply (Subseq_app _ [t]); assumption.
      * rewrite flat_map_app, Hw1, Hw2. reflexivity.
    + exists evs1. split; [exact He1 | split; [|exact Hw1]].
      rewrite <- (app_nil_r (flat_map restored evs1)).
      apply (Subseq_app _ [t]); [exact Hs1 | constructor].
Qed.

End Order.

(** The order of the log.  The targets are recorded in [backups] in
    the order of the patches, each before it is written; the writes
    follow that order, and what the handler restores (by a move of the
    backup over the target or an unlink of a new file) it restores in
    the order of [backups], the first recorded target first. *)
Theorem rollback_in_recorded_order
    (apply_diff : Patch -> list string -> option (list string))
    (base : path) (patches : list Patch) (f : filesystem) :
  Prefix (map fst (backups (snd (call apply_diff base patches f))))
         (targets base patches) /\
  Prefix (flat_map written (log (snd (call apply_diff base patches f))))
         (map fst (backups (snd (call apply_diff base patches f)))) /\
  Subseq (flat_map restored (log (snd (call apply_diff base patches f))))
         (map fst (backups (snd (call apply_diff base patches f)))).
Proof.
  destruct patches as [|p ps].
  { rewrite call_nil. simpl. repeat split; try apply Prefix_nil. constructor. }
  rewrite call_cons.
  remember (p :: ps) as patches eqn:Eps. clear Eps p ps.
  pose proof (mkdir_parents_effect (backup_dir base) (init f)) as [Eb El].
  destruct (mkdir_parents (backup_dir base) (init f)) as [[[]|e] st1];
    simpl in Eb, El.
  2: { simpl. rewrite Eb, El. simpl.
       repeat split; try apply Prefix_nil. constructor. }
  pose proof (progress_apply_loop apply_diff base patches st1 [] [] st1
                (progress_start st1)) as (ts & ws & HP & Hw & Ht).
  destruct HP as (evs & Hl & Hres & Hwr & Hb).
  rewrite Eb in Hb. simpl in Hb, Hwr. rewrite El in Hl.
  unfold try_except.
  destruct (apply_loop apply_diff base patches st1) as [[b|e] st2];
    simpl in Hl, Hb.
  - simpl. rewrite Hb, Hl. simpl. rewrite Hres, Hwr.
    repeat split; auto. constructor.
  - destruct (rollback_loop_log (backups st2) st2)
      as (evs' & [Eb' El'] & Hs' & Hw').
    rewrite (proj1 (rollback_state e st2)), Eb', El', Hb, Hl.
    rewrite !flat_map_app. simpl. rewrite Hres, Hwr, Hw', app_nil_r.
    repeat split; auto. rewrite <- Hb. exact Hs'.
Qed.

(** Three files: [f1.py] and [f2.py] are written in that order, the
    third patch does not apply, and the rollback restores [f1.py] first
    and [f2.py] after it, which is not the reverse order. *)
Lemma rollback_is_not_reversed :
  fst (apply Scenario.tmp Scenario.three_diff Scenario.three_fs) = Ok false /\
  flat_map written
    (log (snd (apply Scenario.tmp Scenario.three_diff Scenario.three_fs)))
  = [Scenario.f1; Scenario.f2] /\
  flat_map restored
    (log (snd (apply Scenario.tmp Scenario.three_diff Scenario.three_fs)))
  = [Scenario.f1; Scenario.f2; Scenario.f3] /\
  flat_map restored
    (log (snd (apply Scenario.tmp Scenario.three_diff Scenario.three_fs)))
  <> rev (map fst
     (backups (snd (apply Scenario.tmp Scenario.three_diff Scenario.three_fs)))).
Proof. vm_compute. repeat split; try reflexivity. discriminate. Qed.

(** C6.  A diff that creates [n.py], modifies it, and then has a patch
    of [g.py] whose context does not match.  The call returns failure.
    The handler walks [backups] from the first entry: [n.py], recorded
    first as a new file, is unlinked, and is then made again by the move
    of the backup that the second patch took of it, so that after the
    failed call [n.py] exists although it did not exist before.  The
    restoring calls are logged in the order of recording, not in its
    reverse.  Restoring the same entries from the same state in reverse
    order leaves [n.py] absent and [g.py] with its text. *)
Theorem forward_rollback_keeps_created_file :
  exists_at Scenario.g_fs Scenario.n_py = false /\
  fst (apply Scenario.tmp Scenario.created_then_modified_diff Scenario.g_fs)
  = Ok false /\
  map fst (backups (snd (apply Scenario.tmp Scenario.created_then_modified_diff
                               Scenario.g_fs)))
  = [Scenario.n_py; Scenario.n_py; Scenario.g_py] /\
  flat_map restored
    (log (snd (apply Scenario.tmp Scenario.created_then_modified_diff
                     Scenario.g_fs)))
  = [Scenario.n_py; Scenario.n_py; Scenario.g_py] /\
  file_at (fs (snd (apply Scenario.tmp Scenario.created_then_modified_diff
                          Scenario.g_fs))) Scenario.n_py
  = Some ("a" ++ NL)%string /\
  fst (rollback_loop
         (rev (backups (loop_state spec_apply_diff Scenario.tmp
                          Scenario.created_then_modified_diff Scenario.g_fs)))
         (loop_state spec_apply_diff Scenario.tmp
            Scenario.created_then_modified_diff Scenario.g_fs))
  = Ok tt /\
  exists_at
    (fs (snd (rollback_loop
                (rev (backups (loop_state spec_apply_diff Scenario.tmp
                                 Scenario.created_then_modified_diff
                                 Scenario.g_fs)))
                (loop_state spec_apply_diff Scenario.tmp
                   Scenario.created_then_modified_diff Scenario.g_fs))))
    Scenario.n_py = false /\
  file_at
    (fs (snd (rollback_loop
                (rev (backups (loop_state spec_apply_diff Scenario.tmp
                                 Scenario.created_then_modified_diff
                                 Scenario.g_fs)))
                (loop_state spec_apply_diff Scenario.tmp
                   Scenario.created_then_modified_diff Scenario.g_fs))))
    Scenario.g_py = Some ("g" ++ NL)%string.
Proof. vm_compute. repeat split; reflexivity. Qed.

(** ** Backup artifacts *)

Lemma string_length_app (s t : string) :
  String.length (s ++ t) = String.length s + String.length t.
Proof. induction s as [|c s IH]; simpl; [reflexivity | rewrite IH; reflexivity]. Qed.

Lemma string_app_inv_r (s1 s2 t : string) :
  (s1 ++ t)%string = (s2 ++ t)%string -> s1 = s2.
Proof.
  revert s2. induction s1 as [|c s1 IH]; intros [|d s2] H; simpl in H.
  - reflexivity.
  - apply (f_equal String.length) in H. simpl in H.
    rewrite string_length_app in H. lia.
  - apply (f_equal String.length) in H. simpl in H.
    rewrite string_length_app in H. lia.
  - inversion H; subst. f_equal. apply IH. assumption.
Qed.

(** Two targets share a backup artifact exactly when they have the same
    final component. *)
Lemma backup_file_eq (base t1 t2 : path) :
  backup_file base t1 = backup_file base t2 <-> name t1 = name t2.
Proof.
  unfold backup_file. split.
  - intros H. apply app_inv_head in H. inversion H as [E].
    apply string_app_inv_r in E. exact E.
  - intros ->. reflexivity.
Qed.

Section Artifacts.

Variable apply_diff : Patch -> list string -> option (list string).
Variable base : path.
Variable f0 : filesystem.

Lemma kept_incl (d1 d2 : list path) (st : state) :
  (forall t, In t d1 -> In t d2) ->
  backups_kept f0 base d2 st -> backups_kept f0 base d1 st.
Proof. intros Hi [Hg Hk]. split; auto. Qed.

Lemma kept_prim {A} (m : M A) (done : list path) :
  (forall st, grows (fs st) (fs (snd (m st)))) ->
  keeps (backups_kept f0 base done) m.
Proof.
  intros Hm st [Hg Hk]. split.
  - eapply grows_trans; [exact Hg | apply Hm].
  - intros t Hin He. apply (Hm st). auto.
Qed.

Lemma kept_path_exists (t : path) (done : list path) :
  keeps (backups_kept f0 base done) (path_exists t).
Proof.
  apply kept_prim. intros st. rewrite path_exists_run. apply grows_refl.
Qed.

Lemma kept_push (entry : path * option path) (done : list path) :
  keeps (backups_kept f0 base done) (push_backup entry).
Proof. apply kept_prim. intros st. apply grows_refl. Qed.

(** One patch keeps the artifacts made so far, returns at most [False],
    and when the loop goes on the artifact of its target is there if the
    target existed before the call. *)
Lemma kept_patch_step (p : Patch) (done : list path) :
  hoare (backups_kept f0 base done) (patch_step apply_diff base p)
    (fun r st =>
       backups_kept f0 base done st /\ r <> Ok (Some true) /\
       (r = Ok None ->
        backups_kept f0 base (target_list base p ++ done) st)).
Proof.
  unfold target_list, patch_target, patch_step.
  destruct (header p) as [h|];
    [|apply hoare_ret; intros st H;
      split; [exact H | split; [discriminate | intros _; exact H]]].
  destruct (target_of base h) as [t|];
    [|apply hoare_ret; intros st H;
      split; [exact H | split; [discriminate | intros _; exact H]]].
  assert (Hweak : forall (r : result (option bool)) st,
            r <> Ok (Some true) ->
            backups_kept f0 base ([t] ++ done) st ->
            backups_kept f0 base done st /\ r <> Ok (Some true) /\
            (r = Ok None -> backups_kept f0 base ([t] ++ done) st)).
  { intros r st Hr H. split; [|split; [exact Hr | intros _; exact H]].
    apply (kept_incl done ([t] ++ done)); [|exact H].
    intros x Hx. right. exact Hx. }
  assert (Hstop : forall (r : result (option bool)) st,
            r <> Ok (Some true) -> r <> Ok None ->
            backups_kept f0 base done st ->
            backups_kept f0 base done st /\ r <> Ok (Some true) /\
            (r = Ok None -> backups_kept f0 base ([t] ++ done) st)).
  { intros r st Hr Hn H. split; [exact H | split; [exact Hr | congruence]]. }
  eapply hoare_bind with (R := fun _ st => backups_kept f0 base done st).
  { destruct (is_new h); [apply keeps_ret|].
    apply keeps_bind; [apply kept_path_exists|].
    intros a. apply keeps_ret. }
  2: { intros e st H. apply Hstop; [discriminate | discriminate | exact H]. }
  intros missing. destruct missing.
  { apply hoare_ret. intros st H.
    apply Hstop; [discriminate | discriminate | exact H]. }
  eapply hoare_bind;
    [apply (path_exists_hoare _ t); apply (kept_path_exists t done) | |
     intros e st [H _]; apply Hstop; [discriminate | discriminate | exact H]].
  intros e.
  eapply hoare_bind
    with (R := fun r st =>
                 match r with
                 | Ok _ => backups_kept f0 base ([t] ++ done) st
                 | Raise _ => backups_kept f0 base done st
                 end).
  { destruct e.
    - eapply hoare_bind
        with (R := fun r st =>
                     backups_kept f0 base done st /\
                     (r = Ok tt ->
                      exists_at (fs st) (backup_file base t) = true)).
      + intros st [H _]. split.
        * apply (kept_prim (copy2 t (backup_file base t)) done);
            [apply copy2_grows | exact H].
        * intros E. apply (copy2_ok _ _ _ E).
      + intros [] st [[Hg Hk] Hc]. simpl. split; [exact Hg|].
        intros x [<- | Hx] He; [apply Hc; reflexivity | apply Hk; assumption].
      + intros x st [H _]. exact H.
    - intros st [[Hg Hk] He]. simpl. split; [exact Hg|].
      intros x [<- | Hx] Hx0; [|apply Hk; assumption].
      inversion He as [E]. apply (Hg t) in Hx0. congruence. }
  2: { intros x st H. apply Hstop; [discriminate | discriminate | exact H]. }
  intros _.
  eapply hoare_bind
    with (R := fun _ st => backups_kept f0 base ([t] ++ done) st);
    [apply kept_path_exists | |
     intros x st H; apply Hweak; [discriminate | exact H]].
  intros e'.
  eapply hoare_bind
    with (R := fun _ st => backups_kept f0 base ([t] ++ done) st).
  { destruct e'; [|apply keeps_ret].
    apply kept_prim. apply read_text_grows. }
  2: { intros x st H. apply Hweak; [discriminate | exact H]. }
  intros content.
  destruct (apply_diff p (splitlines content)) as [patched|].
  2: { apply hoare_raise. intros st H.
       apply Hweak; [discriminate | exact H]. }
  eapply hoare_bind
    with (R := fun _ st => backups_kept f0 base ([t] ++ done) st).
  { apply kept_prim. apply mkdir_parents_grows. }
  2: { intros x st H. apply Hweak; [discriminate | exact H]. }
  intros _.
  eapply hoare_bind
    with (R := fun _ st => backups_kept f0 base ([t] ++ done) st).
  { apply kept_prim. apply write_text_grows. }
  - intros _. apply hoare_ret. intros st H.
    apply Hweak; [discriminate | exact H].
  - intros x st H. apply Hweak; [discriminate | exact H].
Qed.

Lemma kept_apply_loop (patches : list Patch) :
  forall done,
  hoare (backups_kept f0 base done) (apply_loop apply_diff base patches)
    (fun r st =>
       backups_kept f0 base done st /\
       (r = Ok true ->
        backups_kept f0 base (targets base patches ++ done) st)).
Proof.
  induction patches as [|p ps IH]; intros done; simpl.
  - apply hoare_ret. intros st H. split; auto.
  - eapply hoare_bind; [apply kept_patch_step | |].
    + intros [b|] st (H & Hb & Hgo).
      * simpl. split; [exact H|]. intros E. inversion E; subst. congruence.
      * specialize (Hgo eq_refl).
        destruct (IH (target_list base p ++ done) st Hgo) as [H1 H2].
        split.
        -- apply (kept_incl done (target_list base p ++ done)); [|exact H1].
           intros x Hx. apply in_or_app. right. exact Hx.
        -- intros E. specialize (H2 E).
           apply (kept_incl _ (targets base ps ++ target_list base p ++ done));
             [|exact H2].
           unfold targets. simpl. fold (targets base ps).
           fold (target_list base p).
           intros x Hx. rewrite !in_app_iff in *. tauto.
    + intros e st (H & _). split; [exact H | discriminate].
Qed.

End Artifacts.

(** C7, as the code has it.  The backup of a target is the file
    [.akita/backups/<name>.bak] of the base directory, where [<name>] is
    the final component of the target: the key holds no transaction
    identifier, and two targets share the artifact exactly when they
    have the same final component.  The artifacts are not removed on the
    success path: when the call returns success, the artifact of every
    target that existed before the call is on disk. *)
Theorem backup_artifacts_stay
    (apply_diff : Patch -> list string -> option (list string))
    (base : path) (patches : list Patch) :
  (forall t1 t2,
     backup_file base t1 = backup_file base t2 <-> name t1 = name t2) /\
  (forall f,
     fst (call apply_diff base patches f) = Ok true ->
     forall t, In t (targets base patches) -> exists_at f t = true ->
     exists_at (fs (snd (call apply_diff base patches f)))
               (backup_file base t) = true).
Proof.
  split; [intros t1 t2; apply backup_file_eq|].
  intros f. destruct patches as [|p ps]; [rewrite call_nil; discriminate|].
  rewrite call_cons.
  remember (p :: ps) as patches eqn:Eps. clear Eps p ps.
  pose proof (mkdir_parents_grows (backup_dir base) (init f)) as Hg.
  destruct (mkdir_parents (backup_dir base) (init f)) as [[[]|e] st1];
    simpl in Hg; [|discriminate].
  assert (H0 : backups_kept f base [] st1).
  { split; [exact Hg | intros t []]. }
  pose proof (kept_apply_loop apply_diff base f patches [] st1 H0) as [_ H].
  unfold try_except.
  destruct (apply_loop apply_diff base patches st1) as [[b|e] st2];
    simpl in *.
  - intros E t Hin He. inversion E; subst b.
    apply (proj2 (H eq_refl)); [|exact He].
    apply in_or_app. left. exact Hin.
  - intros E. destruct (rollback_state e st2) as [_ [E' | [x E']]];
      congruence.
Qed.

(** C7 at the diff of [hello.py]. *)
Lemma backup_artifacts_stay_witness :
  exists_at
    (fs (snd (call spec_apply_diff Scenario.tmp Scenario.hello_diff
                   Scenario.hello_fs)))
    (backup_file Scenario.tmp Scenario.hello_py) = true.
Proof.
  apply (proj2 (backup_artifacts_stay spec_apply_diff Scenario.tmp
                  Scenario.hello_diff) Scenario.hello_fs).
  - vm_compute. reflexivity.
  - simpl. left. reflexivity.
  - reflexivity.
Defined.

(** C7 as stated fails: two distinct targets of one diff have the same
    backup artifact, and after a call that returns success the artifact
    of [hello.py] is still on disk with the old text. *)
Lemma backup_artifacts_collide_and_remain :
  Scenario.dir1_x <> Scenario.dir2_x /\
  backup_file Scenario.tmp Scenario.dir1_x
  = backup_file Scenario.tmp Scenario.dir2_x /\
  fst (apply Scenario.tmp Scenario.hello_diff Scenario.hello_fs) = Ok true /\
  file_at (fs (snd (apply Scenario.tmp Scenario.hello_diff Scenario.hello_fs)))
          (Scenario.tmp ++ [".akita"; "backups"; "hello.py.bak"])
  = Some ("print('hello')" ++ NL)%string.
Proof. vm_compute. repeat split; try reflexivity. discriminate. Qed.

(** ** Creation of a file *)

Lemma mkdir_parents_run (p : path) (st : state) :
  existsb (is_file (fs st)) (prefixes p) = false ->
  mkdir_parents p st
  = (Ok tt, mkState (mkdirs (prefixes p) (fs st)) (backups st)
                    (log st ++ [EMkdir p])).
Proof.
  intros H. run_prim. rewrite H.
  destruct (is_file (fs st) p) eqn:E; [|reflexivity].
  destruct p as [|x p]; [discriminate|].
  assert (Hin : In (x :: p) (prefixes (x :: p)))
    by (apply prefixes_self; discriminate).
  assert (Hex : existsb (is_file (fs st)) (prefixes (x :: p)) = true)
    by (apply existsb_exists; eauto).
  congruence.
Qed.

Lemma write_text_run (p : path) (c : string) (st : state) :
  is_dir (fs st) p = false ->
  is_dir (fs st) (parent p) = true ->
  write_text p c st
  = (Ok tt, mkState (upd p (Some (File c)) (fs st)) (backups st)
                    (log st ++ [EWrite p])).
Proof. intros H1 H2. run_prim. rewrite H1, H2. reflexivity. Qed.

Lemma apply_hunk_lines_adds (ls : list (tag * string)) (pos : nat)
    (out : list string) :
  Forall (fun l => fst l = Add) ls ->
  apply_hunk_lines ls pos [] out = Some (pos, [], out ++ map snd ls).
Proof.
  revert out. induction ls as [|[tg l] ls IH]; intros out H; simpl.
  - rewrite app_nil_r. reflexivity.
  - inversion H as [|? ? Hl Hls]; subst. simpl in Hl. subst tg.
    rewrite IH by exact Hls. rewrite <- app_assoc. reflexivity.
Qed.

Lemma apply_hunks_adds (hs : list Hunk) (pos : nat) (out : list string) :
  Forall (fun hk => Forall (fun l => fst l = Add) (lines hk)) hs ->
  apply_hunks hs pos [] out
  = Some (out ++ flat_map (fun hk => map snd (lines hk)) hs).
Proof.
  revert pos out. induction hs as [|hk hs IH]; intros pos out H; simpl.
  - reflexivity.
  - inversion H as [|? ? Hk Hhs]; subst.
    rewrite skipn_nil, firstn_nil, app_nil_r.
    rewrite apply_hunk_lines_adds by exact Hk.
    rewrite IH by exact Hhs. rewrite <- app_assoc. reflexivity.
Qed.

Lemma filter_adds (ls : list (tag * string)) :
  forallb (fun l => is_add (fst l)) ls = true ->
  filter (fun l => is_add (fst l)) ls = ls.
Proof.
  induction ls as [|l ls IH]; [reflexivity|].
  cbn [forallb filter]. intros H.
  apply andb_true_iff in H. destruct H as [Hl Hls].
  rewrite Hl, (IH Hls). reflexivity.
Qed.

Lemma added_lines_all (hs : list Hunk) :
  forallb (fun hk => forallb (fun l => is_add (fst l)) (lines hk)) hs = true ->
  flat_map (fun hk => map snd (filter (fun l => is_add (fst l)) (lines hk))) hs
  = flat_map (fun hk => map snd (lines hk)) hs.
Proof.
  induction hs as [|hk hs IH]; [reflexivity|].
  cbn [forallb flat_map]. intros H.
  apply andb_true_iff in H. destruct H as [Hk Hs].
  rewrite (filter_adds _ Hk), (IH Hs). reflexivity.
Qed.

(** On an empty original, a patch of added lines yields those lines. *)
Lemma spec_apply_diff_adds (p : Patch) :
  only_adds p = true -> spec_apply_diff p [] = Some (added_lines p).
Proof.
  intros H. unfold added_lines. rewrite (added_lines_all _ H).
  unfold spec_apply_diff. apply (apply_hunks_adds _ 0 []).
  unfold only_adds in H. rewrite forallb_forall in H.
  apply Forall_forall. intros hk Hin. specialize (H hk Hin).
  rewrite forallb_forall in H. apply Forall_forall. intros l Hl.
  specialize (H l Hl). destruct (fst l); [discriminate | reflexivity | discriminate].
Qed.

Lemma string_app_assoc (a b c : string) :
  ((a ++ b) ++ c)%string = (a ++ (b ++ c))%string.
Proof. induction a as [|x a IH]; simpl; [reflexivity | rewrite IH; reflexivity]. Qed.

(** Joining with the separator and appending one separator terminates
    every line, when there is a line. *)
Lemma join_lines_terminated (ls : list string) :
  ls <> [] -> join_lines ls = terminated_lines ls.
Proof.
  unfold join_lines, terminated_lines.
  induction ls as [|l ls IH]; [congruence|]. intros _.
  destruct ls as [|l' ls].
  - simpl. reflexivity.
  - change (String.concat NL (l :: l' :: ls))
      with (l ++ NL ++ String.concat NL (l' :: ls))%string.
    change (String.concat "" (map (fun l0 => (l0 ++ NL)%string) (l :: l' :: ls)))
      with ((l ++ NL) ++ "" ++
            String.concat "" (map (fun l0 => (l0 ++ NL)%string) (l' :: ls)))%string.
    rewrite <- IH by discriminate. simpl.
    rewrite !string_app_assoc. reflexivity.
Qed.

(** The loop body on a patch that creates a file which is not there. *)
Lemma patch_step_create
    (apply_diff : Patch -> list string -> option (list string))
    (base : path) (p : Patch) (h : Header)
    (r : string) (out : list string) (st : state) :
  header p = Some h ->
  old_path h = Some DEV_NULL ->
  rel_path h = Some r ->
  exists_at (fs st) (resolve base r) = false ->
  existsb (is_file (fs st)) (prefixes (parent (resolve base r))) = false ->
  apply_diff p [] = Some out ->
  patch_step apply_diff base p st
  = (Ok None,
     mkState (upd (resolve base r)
                  (Some (File (join_lines out)))
                  (mkdirs (prefixes (parent (resolve base r))) (fs st)))
             (backups st ++ [(resolve base r, None)])
             (log st ++ [EStat (resolve base r)] ++ [EStat (resolve base r)]
                     ++ [EMkdir (parent (resolve base r))]
                     ++ [EWrite (resolve base r)])).
Proof.
  intros Hh Ho Hr Hnew Hpar Hadds.
  set (t := resolve base r) in *.
  assert (Ht : t <> []) by (intros E; rewrite E in Hnew; discriminate).
  unfold patch_step. rewrite Hh. unfold target_of. rewrite Hr.
  unfold option_map. fold t.
  unfold is_new, opt_is. rewrite Ho, String.eqb_refl.
  erewrite bind_ok by reflexivity. cbv beta iota.
  erewrite bind_ok by apply path_exists_run. cbv beta iota. rewrite Hnew.
  erewrite bind_ok by reflexivity. cbv beta iota.
  erewrite bind_ok by apply path_exists_run. cbv beta iota.
  simpl fs. rewrite Hnew.
  erewrite bind_ok by reflexivity. cbv beta iota.
  change (splitlines "") with (@nil string).
  rewrite Hadds.
  erewrite bind_ok by (apply mkdir_parents_run; exact Hpar). cbv beta iota.
  erewrite bind_ok.
  2: { apply write_text_run; simpl fs.
       - unfold is_dir. rewrite node_at_mkdirs_notin.
         + unfold exists_at in Hnew. destruct (node_at (fs st) t); congruence.
         + rewrite prefixes_spec. intros [_ [s Hs]].
           destruct (path_snoc_cases t) as [E | (q & x & E)]; [congruence|].
           rewrite E, parent_snoc in Hs.
           apply (f_equal (@length string)) in Hs.
           rewrite !length_app in Hs. simpl in Hs. lia.
       - destruct (path_snoc_cases (parent t)) as [E | (q & x & E)].
         + rewrite E. reflexivity.
         + unfold is_dir. rewrite node_at_mkdirs_in; [reflexivity|].
           apply prefixes_self. rewrite E. destruct q; discriminate. }
  simpl. rewrite <- !app_assoc. reflexivity.
Qed.

Lemma is_file_mkdirs (ps : list path) (f : filesystem) (q : path) :
  is_file (mkdirs ps f) q = true -> is_file f q = true.
Proof.
  unfold is_file. destruct (mkdirs_cases ps f q) as [[Hin E] | [Hn E]].
  - rewrite (node_at_mkdirs_in _ _ _ Hin). discriminate.
  - rewrite (node_at_mkdirs_notin _ _ _ Hn). auto.
Qed.

Lemma no_file_mkdirs (ps qs : list path) (f : filesystem) :
  existsb (is_file f) qs = false ->
  existsb (is_file (mkdirs ps f)) qs = false.
Proof.
  intros H. destruct (existsb (is_file (mkdirs ps f)) qs) eqn:E; [|reflexivity].
  apply existsb_exists in E. destruct E as (q & Hq & Hf).
  apply is_file_mkdirs in Hf.
  assert (existsb (is_file f) qs = true) by (apply existsb_exists; eauto).
  congruence.
Qed.

Lemma existsb_path_eqb (q : path) (ps : list path) :
  existsb (path_eqb q) ps = false -> ~ In q ps.
Proof.
  intros H Hin.
  assert (existsb (path_eqb q) ps = true).
  { apply existsb_exists. exists q. split; [exact Hin | apply path_eqb_refl]. }
  congruence.
Qed.

(** C9, as the code has it.  A diff of one patch whose old side is
    [/dev/null], whose new side names a path whose target does not
    exist, and whose hunks apply to the empty original and give the
    added lines.  Provided no regular file stands where the backup
    directory or the parents of the target are to be made, and the
    target is not one of the directories the call makes for its
    backups, the call returns success, the parent of the target is a
    directory, and the target is a file that holds the added lines
    joined by the line separator plus one separator: each added line
    followed by the separator when there is one, and a lone separator
    when the patch adds no line. *)
Theorem create_patch_creates_file
    (apply_diff : Patch -> list string -> option (list string))
    (base : path) (p : Patch) (h : Header) (r : string) (f : filesystem) :
  header p = Some h ->
  old_path h = Some DEV_NULL ->
  rel_path h = Some r ->
  exists_at f (resolve base r) = false ->
  existsb (path_eqb (resolve base r)) (prefixes (backup_dir base)) = false ->
  existsb (is_file f) (prefixes (backup_dir base)) = false ->
  existsb (is_file f) (prefixes (parent (resolve base r))) = false ->
  apply_diff p [] = Some (added_lines p) ->
  fst (call apply_diff base [p] f) = Ok true /\
  is_dir (fs (snd (call apply_diff base [p] f))) (parent (resolve base r))
  = true /\
  file_at (fs (snd (call apply_diff base [p] f))) (resolve base r)
  = Some (join_lines (added_lines p)) /\
  (added_lines p <> [] ->
   join_lines (added_lines p) = terminated_lines (added_lines p)) /\
  (added_lines p = [] -> join_lines (added_lines p) = NL).
Proof.
  intros Hh Ho Hr Hnew Hnp Hbd Hpar Hadds.
  apply existsb_path_eqb in Hnp.
  set (t := resolve base r) in *.
  assert (Ht : t <> []) by (intros E; rewrite E in Hnew; discriminate).
  rewrite call_cons.
  rewrite (mkdir_parents_run (backup_dir base) (init f) Hbd).
  unfold try_except. simpl apply_loop.
  erewrite bind_ok.
  2: { apply (patch_step_create apply_diff base p h r (added_lines p));
         try assumption; simpl fs; fold t.
       - unfold exists_at in *. rewrite node_at_mkdirs_notin by exact Hnp.
         exact Hnew.
       - apply no_file_mkdirs. exact Hpar. }
  fold t. simpl.
  split; [reflexivity | split; [|split; [|split]]].
  - destruct (path_snoc_cases t) as [E | (q & x & E)]; [congruence|].
    rewrite E, parent_snoc. unfold is_dir.
    rewrite node_at_upd_other.
    + destruct q as [|y q]; [reflexivity|].
      rewrite node_at_mkdirs_in; [reflexivity|].
      apply prefixes_self. discriminate.
    + intros E'. apply (f_equal (@length string)) in E'.
      rewrite length_app in E'. simpl in E'. lia.
  - unfold file_at. rewrite node_at_upd_same by exact Ht. reflexivity.
  - apply join_lines_terminated.
  - intros ->. reflexivity.
Qed.

(** C9 on [test_apply_new_file]: the diff creates [new_file.py] in a
    directory that holds nothing else. *)
Lemma create_patch_creates_file_witness :
  fst (apply Scenario.tmp Scenario.new_file_diff
             (add_dir Scenario.tmp empty_fs)) = Ok true /\
  is_dir (fs (snd (apply Scenario.tmp Scenario.new_file_diff
                         (add_dir Scenario.tmp empty_fs))))
         (parent (resolve Scenario.tmp "new_file.py")) = true /\
  file_at (fs (snd (apply Scenario.tmp Scenario.new_file_diff
                          (add_dir Scenario.tmp empty_fs))))
          (resolve Scenario.tmp "new_file.py")
  = Some (join_lines ["print('new file')"]) /\
  (["print('new file')"] <> [] ->
   join_lines ["print('new file')"] = terminated_lines ["print('new file')"]) /\
  (["print('new file')"] = [] -> join_lines ["print('new file')"] = NL).
Proof.
  apply (create_patch_creates_file spec_apply_diff Scenario.tmp
           (Scenario.create "new_file.py" "print('new file')")
           (mkHeader (Some DEV_NULL) (Some "new_file.py"))
           "new_file.py" (add_dir Scenario.tmp empty_fs));
    reflexivity.
Defined.

(** C9 as stated fails: the patch that creates [.akita] has the
    sentinel on its old side and a target that does not exist before
    the call; the call makes the directory for its backups there, the
    copy of that directory raises, and the call returns failure.  So
    does the call that creates [f.py/x], where the regular file [f.py]
    stands in place of the parent directory; the target is not
    created. *)
Lemma create_patch_can_fail :
  old_path (mkHeader (Some DEV_NULL) (Some ".akita")) = Some DEV_NULL /\
  exists_at Scenario.one_file_fs (resolve Scenario.tmp ".akita") = false /\
  fst (apply Scenario.tmp [Scenario.create ".akita" "x"] Scenario.one_file_fs)
  = Ok false /\
  file_at (fs (snd (apply Scenario.tmp [Scenario.create ".akita" "x"]
                          Scenario.one_file_fs)))
          (resolve Scenario.tmp ".akita") = None /\
  exists_at Scenario.one_file_fs (resolve Scenario.tmp "f.py/x") = false /\
  fst (apply Scenario.tmp [Scenario.create "f.py/x" "x"] Scenario.one_file_fs)
  = Ok false /\
  file_at (fs (snd (apply Scenario.tmp [Scenario.create "f.py/x" "x"]
                          Scenario.one_file_fs)))
          (resolve Scenario.tmp "f.py/x") = None.
Proof. vm_compute. repeat split; reflexivity. Qed.

(** ** Well-formed file systems *)

Lemma snoc_neq_self (p : path) (x : string) : p ++ [x] <> p.
Proof.
  intros E. apply (f_equal (@length string)) in E.
  rewrite length_app in E. simpl in E. lia.
Qed.

Lemma snoc_not_nil (p : path) (x : string) : p ++ [x] <> [].
Proof. destruct p; discriminate. Qed.

Lemma is_dir_upd_other (p q : path) (v : option node) (f : filesystem) :
  q <> p -> is_dir (upd p v f) q = is_dir f q.
Proof. intros H. unfold is_dir. rewrite node_at_upd_other by exact H. reflexivity. Qed.

(** In a well-formed file system everything above a node is a
    directory. *)
Lemma wf_ancestors (f : filesystem) (q r : path) :
  wf f -> r <> [] -> f (q ++ r) <> None -> is_dir f q = true.
Proof.
  intros Hwf. induction r as [|x r IH] using rev_ind; [congruence|].
  intros _ H. rewrite app_assoc in H. apply Hwf in H.
  destruct r as [|y r].
  - rewrite app_nil_r in H. exact H.
  - apply IH; [discriminate|].
    unfold is_dir in H. rewrite node_at_nonroot in H.
    + destruct (f (q ++ y :: r)); [discriminate | discriminate].
    + destruct q; discriminate.
Qed.

Lemma wf_upd_file (f : filesystem) (p : path) (c : string) :
  wf f -> is_dir f p = false -> is_dir f (parent p) = true ->
  wf (upd p (Some (File c)) f).
Proof.
  intros Hwf Hnd Hpar q x Hq.
  destruct (list_eq_dec string_dec q p) as [-> | Hqp].
  - (* a node below [p], which is not a directory *)
    rewrite upd_other in Hq by apply snoc_neq_self.
    apply Hwf in Hq. congruence.
  - rewrite is_dir_upd_other by exact Hqp.
    destruct (list_eq_dec string_dec (q ++ [x]) p) as [E | Hne].
    + rewrite <- E, parent_snoc in Hpar. exact Hpar.
    + rewrite upd_other in Hq by exact Hne. apply Hwf in Hq. exact Hq.
Qed.

Lemma wf_upd_none (f : filesystem) (p : path) :
  wf f -> is_dir f p = false -> wf (upd p None f).
Proof.
  intros Hwf Hnd q x Hq.
  destruct (list_eq_dec string_dec (q ++ [x]) p) as [E | Hne].
  - rewrite <- E, upd_same in Hq. congruence.
  - rewrite upd_other in Hq by exact Hne. apply Hwf in Hq.
    destruct (list_eq_dec string_dec q p) as [-> | Hqp]; [congruence|].
    rewrite is_dir_upd_other by exact Hqp. exact Hq.
Qed.

Lemma wf_mkdirs (f : filesystem) (p : path) :
  wf f -> existsb (is_file f) (prefixes p) = false ->
  wf (mkdirs (prefixes p) f).
Proof.
  intros Hwf Hnf q x Hq.
  destruct (mkdirs_cases (prefixes p) f (q ++ [x])) as [[Hin E] | [Hn E]].
  - (* a directory that was made: so was its parent *)
    destruct q as [|y q]; [reflexivity|].
    unfold is_dir. rewrite node_at_mkdirs_in; [reflexivity|].
    apply prefixes_spec in Hin. destruct Hin as [_ [s Hs]].
    apply prefixes_spec. split; [discriminate|].
    exists ([x] ++ s). rewrite Hs. rewrite <- app_assoc. reflexivity.
  - rewrite E in Hq. apply Hwf in Hq.
    apply (grows_mkdirs (prefixes p) f q). exact Hq.
Qed.

Lemma strip_prefix_none_app (d p r : path) :
  strip_prefix d (p ++ r) = None -> strip_prefix d p = None.
Proof.
  intros H. destruct (strip_prefix d p) as [s|] eqn:E; [|reflexivity].
  apply strip_prefix_spec in E. subst p.
  rewrite <- app_assoc, strip_prefix_app in H. discriminate.
Qed.

Lemma under_app_false (d p r : path) :
  under d (p ++ r) = false -> under d p = false.
Proof.
  intros H. destruct (under d p) eqn:E; [|reflexivity].
  rewrite (under_false_app d p r E) in H. discriminate.
Qed.

(** Renaming a node to a free place whose parent is a directory, and
    that is not inside the node. *)
Lemma wf_relocate (f : filesystem) (src dst : path) :
  wf f -> under src dst = false -> exists_at f dst = false ->
  is_dir f (parent dst) = true ->
  wf (relocate src dst f).
Proof.
  intros Hwf Hns Hfree Hpar q x Hq.
  assert (Hdst : dst <> []) by (intros ->; discriminate).
  unfold relocate in Hq.
  destruct (strip_prefix dst (q ++ [x])) as [r|] eqn:E.
  - apply strip_prefix_spec in E.
    destruct (path_snoc_cases r) as [-> | (r' & x' & ->)].
    + (* the node itself *)
      rewrite app_nil_r in E. subst dst. rewrite parent_snoc in Hpar.
      destruct q as [|y q]; [reflexivity|].
      unfold is_dir, relocate. rewrite node_at_nonroot by discriminate.
      destruct (strip_prefix ((y :: q) ++ [x]) (y :: q)) as [s|] eqn:E2.
      { apply strip_prefix_spec in E2.
        apply (f_equal (@length string)) in E2.
        rewrite !length_app in E2. simpl in E2. lia. }
      apply under_app_false in Hns. rewrite Hns.
      unfold is_dir in Hpar. rewrite node_at_nonroot in Hpar by discriminate.
      exact Hpar.
    + (* a node below it *)
      rewrite app_assoc in E. apply app_inj_tail in E. destruct E as [-> ->].
      rewrite app_assoc in Hq. apply Hwf in Hq.
      unfold is_dir, relocate.
      rewrite node_at_nonroot by (destruct dst; [congruence | discriminate]).
      rewrite strip_prefix_app.
      unfold is_dir in Hq. rewrite node_at_nonroot in Hq; [exact Hq|].
      intros E. apply app_eq_nil in E. destruct E as [-> ->].
      discriminate.
  - destruct (under src (q ++ [x])) eqn:Eu; [congruence|].
    apply Hwf in Hq. destruct q as [|y q]; [reflexivity|].
    unfold is_dir, relocate. rewrite node_at_nonroot by discriminate.
    rewrite (strip_prefix_none_app _ _ _ E).
    rewrite (under_app_false _ _ _ Eu).
    unfold is_dir in Hq. rewrite node_at_nonroot in Hq by discriminate.
    exact Hq.
Qed.

(** ** The frame of a call *)

Lemma file_at_upd_other (p q : path) (v : option node) (f : filesystem) :
  q <> p -> file_at (upd p v f) q = file_at f q.
Proof.
  intros H. unfold file_at. rewrite node_at_upd_other by exact H. reflexivity.
Qed.

(** Making directories where no regular file stands keeps every regular
    file. *)
Lemma file_at_mkdirs (f : filesystem) (p q : path) (c : string) :
  existsb (is_file f) (prefixes p) = false ->
  file_at f q = Some c -> file_at (mkdirs (prefixes p) f) q = Some c.
Proof.
  intros Hnf Hq. unfold file_at in *.
  destruct (mkdirs_cases (prefixes p) f q) as [[Hin E] | [Hn E]].
  - assert (existsb (is_file f) (prefixes p) = true).
    { apply existsb_exists. exists q. split; [exact Hin|].
      unfold is_file. destruct (node_at f q) as [[c'|]|]; congruence. }
    congruence.
  - rewrite node_at_mkdirs_notin by exact Hn. exact Hq.
Qed.

Section Frame.

Variable apply_diff : Patch -> list string -> option (list string).
Variable base : path.
Variable f0 : filesystem.
Variable ts : list path.

(** A step that leaves the file system and the backups alone. *)
Lemma framed_same (st st' : state) :
  fs st' = fs st -> backups st' = backups st ->
  framed f0 base ts st -> framed f0 base ts st'.
Proof.
  intros Ef Eb (Hwf & Hfr & Hen). unfold framed. rewrite Ef, Eb. auto.
Qed.

(** A step that changes the file system. *)
Lemma framed_fs (st st' : state) :
  backups st' = backups st ->
  wf (fs st') ->
  (forall p c, outside base ts p ->
               file_at (fs st) p = Some c -> file_at (fs st') p = Some c) ->
  framed f0 base ts st -> framed f0 base ts st'.
Proof.
  intros Eb Hwf' Hstep (Hwf & Hfr & Hen). unfold framed. rewrite Eb.
  repeat split; auto.
Qed.

Lemma framed_path_exists (t : path) :
  keeps (framed f0 base ts) (path_exists t).
Proof.
  intros st H. rewrite path_exists_run. apply (framed_same st); auto.
Qed.

Lemma framed_read_text (t : path) :
  keeps (framed f0 base ts) (read_text t).
Proof.
  intros st H. apply (framed_same st); [| |exact H];
    run_prim; break_match; reflexivity.
Qed.

Lemma framed_push (t : path) (b : option path) :
  In t ts ->
  (forall b', b = Some b' -> under (backup_dir base) b' = true) ->
  keeps (framed f0 base ts) (push_backup (t, b)).
Proof.
  intros Ht Hb st (Hwf & Hfr & Hen). unfold framed. simpl.
  repeat split; auto. apply Forall_app. split; [exact Hen|].
  constructor; [|constructor]. simpl. auto.
Qed.

Lemma framed_mkdir_parents (q : path) :
  keeps (framed f0 base ts) (mkdir_parents q).
Proof.
  intros st H. unfold mkdir_parents, bind, emit, get_fs, put_fs, raise. simpl.
  destruct (is_file (fs st) q); [apply (framed_same st); auto|].
  destruct (existsb (is_file (fs st)) (prefixes q)) eqn:E;
    [apply (framed_same st); auto|].
  apply (framed_fs st); simpl; auto.
  - apply wf_mkdirs; [apply H | exact E].
  - intros p c _. apply file_at_mkdirs. exact E.
Qed.

Lemma framed_write_text (t : path) (c : string) :
  In t ts -> keeps (framed f0 base ts) (write_text t c).
Proof.
  intros Ht st H. unfold write_text, bind, emit, get_fs, put_fs, raise. simpl.
  destruct (is_dir (fs st) t) eqn:E1; [apply (framed_same st); auto|].
  destruct (is_dir (fs st) (parent t)) eqn:E2;
    [|apply (framed_same st); auto].
  apply (framed_fs st); simpl; auto.
  - apply wf_upd_file; [apply H | exact E1 | exact E2].
  - intros p c' [Hp _] Hc. rewrite file_at_upd_other; [exact Hc|].
    intros ->. contradiction.
Qed.

Lemma framed_unlink (t : path) :
  In t ts -> keeps (framed f0 base ts) (unlink t).
Proof.
  intros Ht st H. unfold unlink, bind, emit, get_fs, put_fs, raise. simpl.
  destruct (node_at (fs st) t) as [[c|]|] eqn:E;
    try (apply (framed_same st); auto; fail).
  apply (framed_fs st); simpl; auto.
  - apply wf_upd_none; [apply H|]. unfold is_dir. rewrite E. reflexivity.
  - intros p c' [Hp _] Hc. rewrite file_at_upd_other; [exact Hc|].
    intros ->. contradiction.
Qed.

(** [copy2] into the backup directory. *)
Lemma framed_copy2 (src dst : path) :
  under (backup_dir base) dst = true ->
  keeps (framed f0 base ts) (copy2 src dst).
Proof.
  intros Hd st H. unfold copy2, bind, emit, get_fs, put_fs, raise. simpl.
  destruct (node_at (fs st) src) as [[c|]|] eqn:E;
    try (apply (framed_same st); auto; fail).
  set (real_dst := if is_dir (fs st) dst then dst ++ [name src] else dst).
  assert (Hr : under (backup_dir base) real_dst = true).
  { unfold real_dst. destruct (is_dir (fs st) dst);
      [apply under_false_app|]; exact Hd. }
  destruct (path_eqb src real_dst); [apply (framed_same st); auto|].
  destruct (is_dir (fs st) real_dst) eqn:E1; [apply (framed_same st); auto|].
  destruct (is_dir (fs st) (parent real_dst)) eqn:E2;
    [|apply (framed_same st); auto].
  apply (framed_fs st); simpl; auto.
  - apply wf_upd_file; [apply H | exact E1 | exact E2].
  - intros p c' [_ Hp] Hc. rewrite file_at_upd_other; [exact Hc|].
    intros ->. congruence.
Qed.

(** [shutil.move] of a backup over a target. *)
Lemma framed_shutil_move (src dst : path) :
  under (backup_dir base) src = true -> In dst ts ->
  keeps (framed f0 base ts) (shutil_move src dst).
Proof.
  intros Hs Hd st H.
  unfold shutil_move, bind, emit, get_fs, put_fs, raise, ret. simpl.
  set (f := fs st).
  set (real_dst := if is_dir f dst then dst ++ [name src] else dst).
  destruct (is_dir f dst && path_eqb src dst); [apply (framed_same st); auto|].
  destruct (is_dir f dst && exists_at f real_dst) eqn:Efree;
    [apply (framed_same st); auto|].
  assert (Hnd : is_dir f real_dst = false).
  { unfold real_dst in *. destruct (is_dir f dst) eqn:Ed; [|exact Ed].
    simpl in Efree. unfold is_dir, exists_at in *.
    destruct (node_at f (dst ++ [name src])); congruence. }
  assert (Hout : forall p c, outside base ts p -> file_at f p = Some c ->
                             p <> real_dst).
  { intros p c [Hp _] Hc ->. unfold real_dst in *.
    destruct (is_dir f dst) eqn:Ed; [|contradiction].
    simpl in Efree. unfold file_at, exists_at in *.
    destruct (node_at f (dst ++ [name src])); congruence. }
  assert (Hsrc : forall p, outside base ts p -> under src p = false).
  { intros p [_ Hp]. destruct (under src p) eqn:E; [|reflexivity].
    rewrite (under_trans _ _ _ Hs E) in Hp. discriminate. }
  destruct (node_at f src) as [[c|]|] eqn:Esrc;
    [| |apply (framed_same st); auto].
  - (* a regular file *)
    destruct (is_dir f (parent real_dst)) eqn:Epar;
      [|apply (framed_same st); auto].
    assert (Hsd : is_dir f src = false)
      by (unfold is_dir; rewrite Esrc; reflexivity).
    assert (Hdir : forall q, is_dir f q = true ->
                             is_dir (upd src None f) q = true).
    { intros q Hq. rewrite is_dir_upd_other; [exact Hq|].
      intros ->. congruence. }
    apply (framed_fs st); simpl; auto.
    + apply wf_upd_file.
      * apply wf_upd_none; [apply H | exact Hsd].
      * destruct (list_eq_dec string_dec real_dst src) as [E | E].
        -- rewrite E. unfold is_dir.
           destruct src as [|x src]; [discriminate|].
           simpl. rewrite upd_same. reflexivity.
        -- rewrite is_dir_upd_other by exact E. exact Hnd.
      * apply Hdir. exact Epar.
    + intros p c' Hp Hc.
      rewrite file_at_upd_other by (eapply Hout; eassumption).
      rewrite file_at_upd_other; [exact Hc|].
      intros ->. specialize (Hsrc src Hp). rewrite under_refl in Hsrc.
      discriminate.
  - (* a directory *)
    destruct (under src real_dst) eqn:Eu; [apply (framed_same st); auto|].
    destruct (exists_at f real_dst) eqn:Eex; [apply (framed_same st); auto|].
    destruct (existsb (is_file f) (prefixes (parent real_dst))) eqn:Enf;
      [apply (framed_same st); auto|].
    assert (Hreal : real_dst <> []) by (intros E; rewrite E in Eex; discriminate).
    assert (Hnin : ~ In real_dst (prefixes (parent real_dst))).
    { rewrite prefixes_spec. intros [_ [s Hs']].
      destruct (path_snoc_cases real_dst) as [E | (q & x & E)]; [congruence|].
      rewrite E, parent_snoc in Hs'.
      apply (f_equal (@length string)) in Hs'.
      rewrite !length_app in Hs'. simpl in Hs'. lia. }
    assert (Hwf1 : wf (mkdirs (prefixes (parent real_dst)) f))
      by (apply wf_mkdirs; [apply H | exact Enf]).
    assert (Hex1 : exists_at (mkdirs (prefixes (parent real_dst)) f) real_dst
                   = false).
    { unfold exists_at in *. rewrite node_at_mkdirs_notin by exact Hnin.
      exact Eex. }
    apply (framed_fs st); simpl; auto.
    + apply wf_relocate; auto.
      destruct (path_snoc_cases (parent real_dst)) as [E | (q & x & E)].
      * rewrite E. reflexivity.
      * unfold is_dir. rewrite node_at_mkdirs_in; [reflexivity|].
        apply prefixes_self. rewrite E. apply snoc_not_nil.
    + intros p c' Hp Hc. fold f in Hc.
      pose proof (file_at_mkdirs f (parent real_dst) p c' Enf Hc) as Hc1.
      assert (Hpn : p <> []) by (intros ->; discriminate).
      unfold file_at in *. rewrite node_at_nonroot in * by exact Hpn.
      unfold relocate.
      destruct (strip_prefix real_dst p) as [r|] eqn:Er.
      * exfalso. apply strip_prefix_spec in Er. subst p.
        destruct r as [|y r].
        -- rewrite app_nil_r in Hc1. unfold exists_at in Hex1.
           rewrite node_at_nonroot in Hex1 by exact Hreal.
           destruct (mkdirs (prefixes (parent real_dst)) f real_dst);
             discriminate.
        -- assert (Hd' : is_dir (mkdirs (prefixes (parent real_dst)) f)
                                real_dst = true).
           { apply (wf_ancestors _ real_dst (y :: r) Hwf1); [discriminate|].
             destruct (mkdirs (prefixes (parent real_dst)) f
                              (real_dst ++ y :: r)); discriminate. }
           apply is_dir_exists in Hd'. congruence.
      * rewrite (Hsrc p Hp). exact Hc1.
Qed.

Lemma framed_patch_step (p : Patch) :
  (forall t, patch_target base p = Some t -> In t ts) ->
  keeps (framed f0 base ts) (patch_step apply_diff base p).
Proof.
  unfold patch_target, patch_step. intros Ht.
  destruct (header p) as [h|]; [|apply keeps_ret].
  destruct (target_of base h) as [t|]; [|apply keeps_ret].
  specialize (Ht t eq_refl).
  apply keeps_bind.
  { destruct (is_new h); [apply keeps_ret|].
    apply keeps_bind; [apply framed_path_exists|].
    intros a. apply keeps_ret. }
  intros missing. destruct missing; [apply keeps_ret|].
  apply keeps_bind; [apply framed_path_exists|].
  intros e. apply keeps_bind.
  { destruct e.
    - apply keeps_bind.
      + apply framed_copy2. unfold backup_file. apply under_app.
      + intros _. apply framed_push; [exact Ht|].
        intros b' E. inversion E. unfold backup_file. apply under_app.
    - apply framed_push; [exact Ht | discriminate]. }
  intros _. apply keeps_bind; [apply framed_path_exists|].
  intros e'. apply keeps_bind.
  { destruct e'; [apply framed_read_text | apply keeps_ret]. }
  intros content.
  destruct (apply_diff p (splitlines content)); [|apply keeps_raise].
  apply keeps_bind; [apply framed_mkdir_parents|].
  intros _. apply keeps_bind; [apply framed_write_text; exact Ht|].
  intros _. apply keeps_ret.
Qed.

Lemma framed_apply_loop (patches : list Patch) :
  (forall t, In t (targets base patches) -> In t ts) ->
  keeps (framed f0 base ts) (apply_loop apply_diff base patches).
Proof.
  induction patches as [|p ps IH]; intros Ht; simpl; [apply keeps_ret|].
  apply keeps_bind.
  - apply framed_patch_step. intros t E. apply Ht.
    unfold targets. simpl. rewrite E. left; reflexivity.
  - intros [b|]; [apply keeps_ret|]. apply IH. intros t Hin. apply Ht.
    unfold targets in *. simpl. apply in_or_app. right; exact Hin.
Qed.

Lemma framed_rollback_loop (bs : list (path * option path)) :
  Forall (fun entry =>
            In (fst entry) ts /\
            forall b, snd entry = Some b ->
                      under (backup_dir base) b = true) bs ->
  keeps (framed f0 base ts) (rollback_loop bs).
Proof.
  induction bs as [|[t b] bs IH]; intros Hbs; simpl; [apply keeps_ret|].
  inversion Hbs as [|? ? [Ht Hb] Hrest]; subst. simpl in *.
  apply keeps_bind; [|intros _; apply IH; exact Hrest].
  destruct b as [b|].
  - apply keeps_bind; [apply framed_path_exists|].
    intros [|]; [|apply keeps_ret].
    apply framed_shutil_move; [apply Hb; reflexivity | exact Ht].
  - apply keeps_bind; [apply framed_path_exists|].
    intros [|]; [|apply keeps_ret].
    apply framed_unlink. exact Ht.
Qed.

Lemma framed_rollback (e : exn) :
  keeps (framed f0 base ts) (rollback e).
Proof.
  intros st H.
  rewrite (proj1 (rollback_state e st)).
  apply framed_rollback_loop; [apply H | exact H].
Qed.

End Frame.

Lemma wf_empty_fs : wf empty_fs.
Proof. intros p x H. exfalso. apply H. reflexivity. Qed.

Lemma wf_add_dir (p : path) (f : filesystem) :
  wf f -> existsb (is_file f) (prefixes p) = false -> wf (add_dir p f).
Proof. intros Hwf Hnf. apply wf_mkdirs; assumption. Qed.

Lemma wf_add_file (p : path) (c : string) (f : filesystem) :
  wf f -> existsb (is_file f) (prefixes (parent p)) = false ->
  is_dir (add_dir (parent p) f) p = false ->
  is_dir (add_dir (parent p) f) (parent p) = true ->
  wf (add_file p c f).
Proof.
  intros Hwf Hnf Hnd Hpar. unfold add_file.
  apply wf_upd_file; [apply wf_add_dir; assumption | exact Hnd | exact Hpar].
Qed.

(** C10.  In a well-formed file system, a regular file whose path is
    neither the resolved target of a patch of the diff nor in the
    [.akita/backups] directory of the base has, after the call, the
    content it had before, whatever the call returns (success, failure
    or an exception that escapes). *)
Theorem call_frame
    (apply_diff : Patch -> list string -> option (list string))
    (base : path) (patches : list Patch) (f : filesystem)
    (p : path) (c : string) :
  wf f ->
  ~ In p (targets base patches) ->
  under (backup_dir base) p = false ->
  file_at f p = Some c ->
  file_at (fs (snd (call apply_diff base patches f))) p = Some c.
Proof.
  intros Hwf Hnt Hnb Hc.
  destruct patches as [|q qs]; [rewrite call_nil; exact Hc|].
  rewrite call_cons.
  remember (q :: qs) as patches eqn:Eps. clear Eps q qs.
  assert (H0 : framed f base (targets base patches) (init f)).
  { repeat split; simpl; auto. }
  pose proof (framed_mkdir_parents base f (targets base patches)
                (backup_dir base) (init f) H0) as H1.
  destruct (mkdir_parents (backup_dir base) (init f)) as [[[]|e] st1];
    simpl in H1.
  - assert (H2 : framed f base (targets base patches)
                   (snd (try_except (apply_loop apply_diff base patches)
                                    rollback st1))).
    { apply (keeps_try (framed f base (targets base patches))); [| |exact H1].
      - apply framed_apply_loop. auto.
      - intros e. apply framed_rollback. }
    destruct H2 as (_ & Hfr & _). apply Hfr; [split; assumption | exact Hc].
  - destruct H1 as (_ & Hfr & _). apply Hfr; [split; assumption | exact Hc].
Qed.

(** C10 on the diff of [hello.py] in a directory that also holds
    [notes.txt]. *)
Lemma call_frame_witness :
  file_at (fs (snd (call spec_apply_diff Scenario.tmp Scenario.hello_diff
                         Scenario.notes_fs))) Scenario.notes_txt
  = Some "keep".
Proof.
  apply (call_frame spec_apply_diff Scenario.tmp Scenario.hello_diff
           Scenario.notes_fs Scenario.notes_txt "keep").
  - apply wf_add_file; try reflexivity.
    apply wf_add_file; try reflexivity.
    apply wf_add_dir; try reflexivity.
    apply wf_empty_fs.
  - simpl. intros [E | []]. discriminate.
  - reflexivity.
  - reflexivity.
Defined.


(** ** Modification of a file *)

Lemma copy2_run (src dst : path) (c : string) (st : state) :
  node_at (fs st) src = Some (File c) ->
  is_dir (fs st) dst = false ->
  src <> dst ->
  is_dir (fs st) (parent dst) = true ->
  copy2 src dst st
  = (Ok tt, mkState (upd dst (Some (File c)) (fs st)) (backups st)
                    (log st ++ [ECopy src dst])).
Proof.
  intros Hs Hd Hne Hp. run_prim. rewrite Hs, Hd. simpl.
  apply path_eqb_neq in Hne. rewrite Hne, Hd, Hp. reflexivity.
Qed.

Lemma read_text_run (p : path) (c : string) (st : state) :
  node_at (fs st) p = Some (File c) ->
  read_text p st
  = (Ok (universal_newlines c),
     mkState (fs st) (backups st) (log st ++ [ERead p])).
Proof. intros H. run_prim. rewrite H. reflexivity. Qed.

Lemma target_not_backup_file (base t : path) : t <> backup_file base t.
Proof.
  intros E. apply (f_equal name) in E. unfold backup_file in E.
  rewrite name_snoc in E. apply (f_equal String.length) in E.
  rewrite string_length_app in E. simpl in E. lia.
Qed.

(** The loop body on a patch that modifies a file which is there. *)
Lemma patch_step_modify
    (apply_diff : Patch -> list string -> option (list string))
    (base : path) (p : Patch) (h : Header)
    (r c : string) (out : list string) (st : state) :
  header p = Some h ->
  is_new h = false ->
  rel_path h = Some r ->
  node_at (fs st) (resolve base r) = Some (File c) ->
  is_dir (fs st) (backup_file base (resolve base r)) = false ->
  is_dir (fs st) (backup_dir base) = true ->
  existsb (is_file (fs st)) (prefixes (parent (resolve base r))) = false ->
  existsb (path_eqb (backup_file base (resolve base r)))
          (prefixes (parent (resolve base r))) = false ->
  apply_diff p (splitlines (universal_newlines c)) = Some out ->
  patch_step apply_diff base p st
  = (Ok None,
     mkState (upd (resolve base r) (Some (File (join_lines out)))
                (mkdirs (prefixes (parent (resolve base r)))
                   (upd (backup_file base (resolve base r))
                        (Some (File c)) (fs st))))
             (backups st
              ++ [(resolve base r, Some (backup_file base (resolve base r)))])
             (log st ++ [EStat (resolve base r)] ++ [EStat (resolve base r)]
                ++ [ECopy (resolve base r) (backup_file base (resolve base r))]
                ++ [EStat (resolve base r)] ++ [ERead (resolve base r)]
                ++ [EMkdir (parent (resolve base r))]
                ++ [EWrite (resolve base r)])).
Proof.
  intros Hh Hn Hr Hfile Hbf Hbd Hpar Hnp Hout.
  set (t := resolve base r) in *.
  set (bf := backup_file base t) in *.
  assert (Ht : t <> []) by (intros E; rewrite E in Hfile; discriminate).
  assert (Hex : exists_at (fs st) t = true)
    by (unfold exists_at; rewrite Hfile; reflexivity).
  assert (Hne : t <> bf) by apply target_not_backup_file.
  assert (Hfile' : node_at (upd bf (Some (File c)) (fs st)) t = Some (File c))
    by (rewrite node_at_upd_other by exact Hne; exact Hfile).
  unfold patch_step. rewrite Hh. unfold target_of. rewrite Hr.
  unfold option_map. fold t. rewrite Hn.
  erewrite bind_ok.
  2: { erewrite bind_ok by apply path_exists_run. reflexivity. }
  rewrite Hex. cbn [negb]. cbv beta iota.
  erewrite bind_ok by apply path_exists_run. cbv beta iota.
  simpl fs. rewrite Hex.
  erewrite bind_ok.
  2: { erewrite bind_ok.
       2: { fold bf. apply (copy2_run t bf c); simpl fs; auto.
            unfold bf, backup_file. rewrite parent_snoc. exact Hbd. }
       reflexivity. }
  cbv beta iota.
  erewrite bind_ok by apply path_exists_run. cbv beta iota. simpl fs.
  assert (Hex' : exists_at (upd bf (Some (File c)) (fs st)) t = true)
    by (unfold exists_at; rewrite Hfile'; reflexivity).
  rewrite Hex'.
  erewrite bind_ok by (apply (read_text_run t c); exact Hfile').
  cbv beta iota. rewrite Hout.
  erewrite bind_ok.
  2: { apply mkdir_parents_run. simpl fs.
       destruct (existsb (is_file (upd bf (Some (File c)) (fs st)))
                         (prefixes (parent t))) eqn:E; [|reflexivity].
       apply existsb_exists in E. destruct E as (q & Hq & Hf).
       assert (q <> bf).
       { intros ->. apply existsb_path_eqb in Hnp. contradiction. }
       unfold is_file in Hf. rewrite node_at_upd_other in Hf by assumption.
       assert (existsb (is_file (fs st)) (prefixes (parent t)) = true)
         by (apply existsb_exists; eauto).
       congruence. }
  cbv beta iota.
  erewrite bind_ok.
  2: { apply write_text_run; simpl fs.
       - unfold is_dir. rewrite node_at_mkdirs_notin.
         + rewrite Hfile'. reflexivity.
         + rewrite prefixes_spec. intros [_ [s Hs]].
           destruct (path_snoc_cases t) as [E | (q & x & E)]; [congruence|].
           rewrite E, parent_snoc in Hs.
           apply (f_equal (@length string)) in Hs.
           rewrite !length_app in Hs. simpl in Hs. lia.
       - destruct (path_snoc_cases (parent t)) as [E | (q & x & E)].
         + rewrite E. reflexivity.
         + unfold is_dir. rewrite node_at_mkdirs_in; [reflexivity|].
           apply prefixes_self. rewrite E. apply snoc_not_nil. }
  simpl. rewrite <- !app_assoc. reflexivity.
Qed.

Lemma existsb_false (A : Type) (g : A -> bool) (l : list A) :
  existsb g l = false <-> forall x, In x l -> g x = false.
Proof.
  split.
  - intros H x Hin. destruct (g x) eqn:E; [|reflexivity].
    assert (existsb g l = true) by (apply existsb_exists; eauto).
    congruence.
  - intros H. destruct (existsb g l) eqn:E; [|reflexivity].
    apply existsb_exists in E. destruct E as (x & Hin & Hx).
    rewrite (H x Hin) in Hx. discriminate.
Qed.

(** C8.  [hello.py] in the base directory holds [print('hello')] and a
    newline; the diff has one patch whose one hunk deletes that line and
    adds [print('hello world')], so that hunk application turns the one
    line into the new one.  Provided the backup directory can be made
    and no directory stands in place of the backup artifact, the call
    returns success and the file holds the patched lines joined by
    the separator plus one separator, that is the new line followed by
    one newline. *)
Theorem hello_world_applied
    (apply_diff : Patch -> list string -> option (list string))
    (base : path) (f : filesystem) :
  file_at f (base ++ ["hello.py"]) = Some ("print('hello')" ++ NL)%string ->
  existsb (is_file f) (prefixes (backup_dir base)) = false ->
  is_dir f (backup_file base (base ++ ["hello.py"])) = false ->
  apply_diff (Scenario.modify "hello.py" "print('hello')" "print('hello world')")
             ["print('hello')"] = Some ["print('hello world')"] ->
  fst (call apply_diff base Scenario.hello_diff f) = Ok true /\
  file_at (fs (snd (call apply_diff base Scenario.hello_diff f)))
          (base ++ ["hello.py"])
  = Some (join_lines ["print('hello world')"]) /\
  join_lines ["print('hello world')"] = ("print('hello world')" ++ NL)%string.
Proof.
  intros Hfile Hbd Hbf Hdiff.
  assert (Er : resolve base "hello.py" = base ++ ["hello.py"]) by reflexivity.
  set (t := base ++ ["hello.py"]) in *.
  assert (Hnode : node_at f t = Some (File ("print('hello')" ++ NL)%string)).
  { unfold file_at in Hfile. destruct (node_at f t) as [[c|]|]; congruence. }
  rewrite existsb_false in Hbd.
  assert (Hnin : ~ In t (prefixes (backup_dir base))).
  { intros Hin. specialize (Hbd t Hin). unfold is_file in Hbd.
    rewrite Hnode in Hbd. discriminate. }
  unfold Scenario.hello_diff. rewrite call_cons.
  rewrite mkdir_parents_run by (apply existsb_false; exact Hbd).
  unfold try_except. simpl apply_loop.
  erewrite bind_ok.
  2: { apply (patch_step_modify apply_diff base _
                (mkHeader (Some "hello.py") (Some "hello.py")) "hello.py"
                ("print('hello')" ++ NL)%string ["print('hello world')"]);
       try reflexivity; try exact Hdiff; rewrite ?Er; fold t; simpl fs.
       - rewrite node_at_mkdirs_notin by exact Hnin. exact Hnode.
       - unfold is_dir. rewrite node_at_mkdirs_notin; [exact Hbf|].
         rewrite prefixes_spec. intros [_ [s Hs]].
         unfold backup_file in Hs. rewrite <- app_assoc in Hs.
         apply (f_equal (@length string)) in Hs.
         rewrite !length_app in Hs. simpl in Hs. lia.
       - unfold is_dir. rewrite node_at_mkdirs_in; [reflexivity|].
         apply prefixes_self. unfold backup_dir. destruct base; discriminate.
       - unfold t. rewrite parent_snoc. apply no_file_mkdirs.
         apply existsb_false. intros q Hq. apply Hbd.
         unfold backup_dir. apply prefixes_app. exact Hq.
       - unfold t. rewrite parent_snoc. apply existsb_false. intros q Hq.
         apply path_eqb_neq. intros E. subst q.
         apply prefixes_spec in Hq. destruct Hq as [_ [s Hs]].
         unfold backup_file, backup_dir in Hs. rewrite <- !app_assoc in Hs.
         apply (f_equal (@length string)) in Hs.
         rewrite !length_app in Hs. simpl in Hs. lia. }
  rewrite Er. fold t. simpl. split; [reflexivity | split; [|reflexivity]].
  unfold file_at. rewrite node_at_upd_same; [reflexivity|].
  unfold t. apply snoc_not_nil.
Qed.

(** C8 on [test_apply_unified_diff_success]. *)
Lemma hello_world_applied_witness :
  fst (apply Scenario.tmp Scenario.hello_diff Scenario.hello_fs) = Ok true /\
  file_at (fs (snd (apply Scenario.tmp Scenario.hello_diff Scenario.hello_fs)))
          (Scenario.tmp ++ ["hello.py"])
  = Some (join_lines ["print('hello world')"]) /\
  join_lines ["print('hello world')"] = ("print('hello world')" ++ NL)%string.
Proof.
  apply (hello_world_applied spec_apply_diff Scenario.tmp Scenario.hello_fs);
    reflexivity.
Defined.


(** ** What a primitive does to the file system *)

Lemma mkdir_parents_cases (p : path) (st : state) :
  backups (snd (mkdir_parents p st)) = backups st /\
  ((exists e, fst (mkdir_parents p st) = Raise e) /\
   fs (snd (mkdir_parents p st)) = fs st
   \/
   fst (mkdir_parents p st) = Ok tt /\
   existsb (is_file (fs st)) (prefixes p) = false /\
   fs (snd (mkdir_parents p st)) = mkdirs (prefixes p) (fs st)).
Proof.
  run_prim. break_match; split; eauto.
Qed.

Lemma write_text_cases (p : path) (c : string) (st : state) :
  backups (snd (write_text p c st)) = backups st /\
  ((exists e, fst (write_text p c st) = Raise e) /\
   fs (snd (write_text p c st)) = fs st
   \/
   fst (write_text p c st) = Ok tt /\
   is_dir (fs st) p = false /\ is_dir (fs st) (parent p) = true /\
   fs (snd (write_text p c st)) = upd p (Some (File c)) (fs st)).
Proof.
  run_prim. break_match; split; eauto 6.
Qed.

Lemma read_text_cases (p : path) (st : state) :
  backups (snd (read_text p st)) = backups st /\
  fs (snd (read_text p st)) = fs st.
Proof. run_prim. break_match; split; reflexivity. Qed.

Lemma copy2_cases (src dst : path) (st : state) :
  is_dir (fs st) dst = false ->
  backups (snd (copy2 src dst st)) = backups st /\
  ((exists e, fst (copy2 src dst st) = Raise e) /\
   fs (snd (copy2 src dst st)) = fs st
   \/
   exists c,
     fst (copy2 src dst st) = Ok tt /\
     node_at (fs st) src = Some (File c) /\
     fs (snd (copy2 src dst st)) = upd dst (Some (File c)) (fs st)).
Proof.
  intros Hd. run_prim. rewrite Hd.
  destruct (node_at (fs st) src) as [[c|]|]; simpl; eauto.
  break_match; split; eauto 6.
Qed.

Lemma unlink_cases (p : path) (st : state) :
  backups (snd (unlink p st)) = backups st /\
  ((exists e, fst (unlink p st) = Raise e) /\ fs (snd (unlink p st)) = fs st
   \/
   fst (unlink p st) = Ok tt /\ is_file (fs st) p = true /\
   fs (snd (unlink p st)) = upd p None (fs st)).
Proof.
  unfold is_file. run_prim. break_match; split; eauto 6.
Qed.

(** Moving a regular file over something that is not a directory. *)
Lemma shutil_move_cases (src dst : path) (c : string) (st : state) :
  node_at (fs st) src = Some (File c) ->
  is_dir (fs st) dst = false ->
  backups (snd (shutil_move src dst st)) = backups st /\
  ((exists e, fst (shutil_move src dst st) = Raise e) /\
   fs (snd (shutil_move src dst st)) = fs st
   \/
   fst (shutil_move src dst st) = Ok tt /\
   fs (snd (shutil_move src dst st))
   = upd dst (Some (File c)) (upd src None (fs st))).
Proof.
  intros Hs Hd. run_prim. rewrite Hd, Hs. simpl.
  break_match; split; eauto 6.
Qed.

(** ** The rollback restores the targets *)

Lemma is_file_upd_other (p q : path) (v : option node) (f : filesystem) :
  q <> p -> is_file (upd p v f) q = is_file f q.
Proof.
  intros H. unfold is_file. rewrite node_at_upd_other by exact H. reflexivity.
Qed.

Lemma is_file_not_dir (f : filesystem) (p : path) :
  is_file f p = true -> is_dir f p = false.
Proof.
  unfold is_file, is_dir. destruct (node_at f p) as [[c|]|]; congruence.
Qed.

Lemma file_at_is_file (f : filesystem) (p : path) (c : string) :
  file_at f p = Some c -> is_file f p = true.
Proof.
  unfold is_file, file_at. destruct (node_at f p) as [[c'|]|]; congruence.
Qed.

Lemma file_at_upd_same (p : path) (c : string) (f : filesystem) :
  p <> [] -> file_at (upd p (Some (File c)) f) p = Some c.
Proof.
  intros H. unfold file_at. rewrite node_at_upd_same by exact H. reflexivity.
Qed.

(** Making directories where no regular file stands changes no regular
    file. *)
Lemma file_at_mkdirs_eq (f : filesystem) (p q : path) :
  existsb (is_file f) (prefixes p) = false ->
  file_at (mkdirs (prefixes p) f) q = file_at f q.
Proof.
  intros Hnf. unfold file_at.
  destruct (mkdirs_cases (prefixes p) f q) as [[Hin E] | [Hn E]].
  - rewrite (node_at_mkdirs_in _ _ _ Hin).
    rewrite existsb_false in Hnf. specialize (Hnf q Hin).
    unfold is_file in Hnf. destruct (node_at f q) as [[c|]|]; congruence.
  - rewrite node_at_mkdirs_notin by exact Hn. reflexivity.
Qed.

Lemma is_file_mkdirs_eq (f : filesystem) (p q : path) :
  existsb (is_file f) (prefixes p) = false ->
  is_file (mkdirs (prefixes p) f) q = is_file f q.
Proof.
  intros Hnf. pose proof (file_at_mkdirs_eq f p q Hnf) as H.
  unfold file_at, is_file in *.
  destruct (node_at (mkdirs (prefixes p) f) q) as [[c|]|],
           (node_at f q) as [[c'|]|]; congruence.
Qed.

Lemma not_in_prefixes_parent (t : path) : ~ In t (prefixes (parent t)).
Proof.
  rewrite prefixes_spec. intros [Ht [s Hs]].
  destruct (path_snoc_cases t) as [E | (q & x & E)]; [congruence|].
  rewrite E, parent_snoc in Hs.
  apply (f_equal (@length string)) in Hs.
  rewrite !length_app in Hs. simpl in Hs. lia.
Qed.

Lemma backup_file_under_dir (base t : path) :
  under (backup_dir base) (backup_file base t) = true.
Proof. unfold backup_file. apply under_app. Qed.

Lemma backup_file_not_nil (base t : path) : backup_file base t <> [].
Proof. unfold backup_file. apply snoc_not_nil. Qed.

(** A prefix of the parent of a path outside a directory is outside
    it. *)
Lemma prefix_parent_outside (d t q : path) :
  under d t = false -> In q (prefixes (parent t)) -> under d q = false.
Proof.
  intros Ht Hq. apply prefixes_spec in Hq. destruct Hq as [_ [s Hs]].
  destruct (under d q) eqn:E; [|reflexivity].
  destruct (path_snoc_cases t) as [Et | (p & x & Et)].
  - subst t. simpl in Hs. symmetry in Hs. apply app_eq_nil in Hs.
    destruct Hs as [-> _]. congruence.
  - rewrite Et, parent_snoc in Hs. subst p.
    rewrite Et in Ht. rewrite <- app_assoc in Ht.
    rewrite (under_false_app d q (s ++ [x]) E) in Ht. discriminate.
Qed.

Section Fidelity.

Variable apply_diff : Patch -> list string -> option (list string).
Variable base : path.
Variable f0 : filesystem.
Variable ts : list path.

(** The targets have distinct final components and none lies in the
    backup directory. *)
Hypothesis Hnames : NoDup (map name ts).
Hypothesis Hout : forall t, In t ts -> under (backup_dir base) t = false.

Lemma target_not_backup (t t' : path) :
  In t ts -> t <> backup_file base t'.
Proof.
  intros Ht E. specialize (Hout t Ht).
  rewrite E, backup_file_under_dir in Hout. discriminate.
Qed.

Lemma names_injective (t t' : path) :
  In t ts -> In t' ts -> name t = name t' -> t = t'.
Proof.
  clear Hout. induction ts as [|x l IH]; simpl; [tauto|].
  inversion Hnames as [|? ? Hx Hl]; subst.
  intros [-> | Ht] [-> | Ht'] E; auto.
  - exfalso. apply Hx. rewrite E. apply in_map. exact Ht'.
  - exfalso. apply Hx. rewrite <- E. apply in_map. exact Ht.
Qed.

Lemma backups_distinct (t t' : path) :
  In t ts -> In t' ts -> t <> t' ->
  backup_file base t <> backup_file base t'.
Proof.
  intros Ht Ht' Hne E. apply backup_file_eq in E.
  apply Hne. apply names_injective; assumption.
Qed.

Lemma entry_faithful_weaken (cur : option path) (f : filesystem)
    (entry : path * option path) :
  entry_faithful f0 base None f entry -> entry_faithful f0 base cur f entry.
Proof.
  unfold entry_faithful. destruct (snd entry); [auto|].
  intros [H [H' | [H' _]]]; [auto | discriminate].
Qed.

Lemma faithful_weaken (cur : option path) (done : list path) (st : state) :
  faithful f0 base ts None done st -> faithful f0 base ts cur done st.
Proof.
  intros (H1 & H2 & H3 & H4 & H5 & H6 & H7).
  refine (conj H1 (conj H2 (conj H3 (conj H4 (conj H5 (conj H6 _)))))).
  eapply Forall_impl; [|exact H7]. apply entry_faithful_weaken.
Qed.

Lemma faithful_same (cur : option path) (done : list path) (st st' : state) :
  fs st' = fs st -> backups st' = backups st ->
  faithful f0 base ts cur done st -> faithful f0 base ts cur done st'.
Proof. intros Ef Eb H. unfold faithful in *. rewrite Ef, Eb. exact H. Qed.

(** A change of the file system that keeps what the invariant reads. *)
Lemma faithful_step (cur cur' : option path) (done : list path)
    (st st' : state) :
  backups st' = backups st ->
  grows (fs st) (fs st') ->
  (forall t, In t ts -> ~ In t done ->
             file_at (fs st') t = file_at (fs st) t) ->
  (forall t, In t ts -> is_dir (fs st) (backup_file base t) = false ->
             is_dir (fs st') (backup_file base t) = false) ->
  (forall entry, In entry (backups st) -> In (fst entry) done ->
                 entry_faithful f0 base cur (fs st) entry ->
                 entry_faithful f0 base cur' (fs st') entry) ->
  faithful f0 base ts cur done st -> faithful f0 base ts cur' done st'.
Proof.
  intros Eb Hg Ha Hd He (H1 & H2 & H3 & H4 & H5 & H6 & H7).
  unfold faithful. rewrite Eb.
  refine (conj H1 (conj H2 (conj H3 (conj _ (conj _ (conj _ _)))))).
  - eapply grows_trans; eassumption.
  - intros t Ht Hn. rewrite Ha by assumption. auto.
  - auto.
  - rewrite Forall_forall in *. intros entry Hin. apply He; auto.
    rewrite <- H1. apply in_map. exact Hin.
Qed.

Lemma faithful_path_exists (t : path) (cur : option path) (done : list path) :
  keeps (faithful f0 base ts cur done) (path_exists t).
Proof.
  intros st H. rewrite path_exists_run. apply (faithful_same _ _ st); auto.
Qed.

Lemma faithful_read_text (t : path) (cur : option path) (done : list path) :
  keeps (faithful f0 base ts cur done) (read_text t).
Proof.
  intros st H. destruct (read_text_cases t st) as [Eb Ef].
  apply (faithful_same _ _ st); auto.
Qed.

Lemma faithful_mkdir_parents (t : path) (done : list path) :
  In t ts ->
  keeps (faithful f0 base ts (Some t) done) (mkdir_parents (parent t)).
Proof.
  intros Ht st H.
  destruct (mkdir_parents_cases (parent t) st)
    as [Eb [[_ Ef] | (_ & Hnf & Ef)]].
  - apply (faithful_same _ _ st); auto.
  - apply (faithful_step (Some t) (Some t) done st); auto; rewrite Ef.
    + apply grows_mkdirs.
    + intros t' _ _. apply file_at_mkdirs_eq. exact Hnf.
    + intros t' Ht' Hd. unfold is_dir.
      rewrite node_at_mkdirs_notin; [exact Hd|].
      intros Hin. apply (prefix_parent_outside _ _ _ (Hout t Ht)) in Hin.
      rewrite backup_file_under_dir in Hin. discriminate.
    + intros entry _ _. unfold entry_faithful.
      destruct (snd entry) as [b|].
      * intros (Hb & (c & Hc0 & Hc) & Hf). repeat split; auto.
        -- exists c. split; [exact Hc0|].
           rewrite file_at_mkdirs_eq by exact Hnf. exact Hc.
        -- rewrite is_file_mkdirs_eq by exact Hnf. exact Hf.
      * intros [H0 [Hf | [Hc Hd]]]; split; auto.
        -- left. rewrite is_file_mkdirs_eq by exact Hnf. exact Hf.
        -- right. split; [exact Hc|]. inversion Hc as [E].
           unfold is_dir. rewrite node_at_mkdirs_notin; [exact Hd|].
           rewrite <- E. apply not_in_prefixes_parent.
Qed.

(** The backup of a target that is not recorded yet. *)
Lemma faithful_copy2 (t : path) (done : list path) :
  In t ts -> ~ In t done ->
  hoare (faithful f0 base ts None done) (copy2 t (backup_file base t))
    (fun r st =>
       faithful f0 base ts None done st /\
       (r = Ok tt ->
        exists c, file_at f0 t = Some c /\
                  file_at (fs st) (backup_file base t) = Some c /\
                  is_file (fs st) t = true)).
Proof.
  intros Ht Hn st H.
  pose proof H as (H1 & H2 & H3 & H4 & H5 & H6 & H7).
  destruct (copy2_cases t (backup_file base t) st (H6 t Ht))
    as [Eb [[[e Ee] Ef] | (c & Ek & Hsrc & Ef)]].
  - split; [apply (faithful_same _ _ st); auto|]. rewrite Ee. discriminate.
  - assert (Hc : file_at (fs st) t = Some c)
      by (unfold file_at; rewrite Hsrc; reflexivity).
    split.
    + apply (faithful_step None None done st); auto; rewrite Ef.
      * apply grows_upd_file. apply H6. exact Ht.
      * intros t' Ht' _. apply file_at_upd_other.
        apply target_not_backup. exact Ht'.
      * intros t' Ht' Hd.
        destruct (list_eq_dec string_dec (backup_file base t')
                              (backup_file base t)) as [E | E].
        -- rewrite E. unfold is_dir.
           rewrite node_at_upd_same by apply backup_file_not_nil.
           reflexivity.
        -- rewrite is_dir_upd_other by exact E. exact Hd.
      * intros entry _ Hdone. unfold entry_faithful.
        assert (Hin : In (fst entry) ts) by (apply H3; exact Hdone).
        assert (Hne : fst entry <> t) by (intros E; rewrite E in Hdone; auto).
        destruct (snd entry) as [b|].
        -- intros (Hb & (c' & Hc0 & Hc') & Hf). repeat split; auto.
           ++ exists c'. split; [exact Hc0|].
              rewrite file_at_upd_other; [exact Hc'|].
              rewrite Hb. apply backups_distinct; assumption.
           ++ rewrite is_file_upd_other; [exact Hf|].
              apply target_not_backup. exact Hin.
        -- intros [H0 [Hf | [Hcur _]]]; [|discriminate]. split; [exact H0|].
           left. rewrite is_file_upd_other; [exact Hf|].
           apply target_not_backup. exact Hin.
    + intros _. exists c. rewrite Ef. split; [|split].
      * rewrite <- (H5 t Ht Hn). exact Hc.
      * apply file_at_upd_same. apply backup_file_not_nil.
      * rewrite is_file_upd_other by (apply target_not_backup; exact Ht).
        apply (file_at_is_file _ _ c). exact Hc.
Qed.

Lemma faithful_push (t : path) (ob : option path) (cur : option path)
    (done : list path) (st : state) :
  In t ts -> ~ In t done ->
  entry_faithful f0 base cur (fs st) (t, ob) ->
  faithful f0 base ts cur done st ->
  faithful f0 base ts cur (done ++ [t]) (snd (push_backup (t, ob) st)).
Proof.
  intros Ht Hn He (H1 & H2 & H3 & H4 & H5 & H6 & H7). unfold faithful. simpl.
  refine (conj _ (conj _ (conj _ (conj H4 (conj _ (conj H6 _)))))).
  - rewrite map_app, H1. reflexivity.
  - apply NoDup_app; [exact H2 | constructor; [intros [] | constructor] |].
    intros x Hx [<- | []]. contradiction.
  - intros x Hx. apply in_app_or in Hx. destruct Hx as [Hx | [<- | []]]; auto.
  - intros t' Ht' Hn'. apply H5; [exact Ht'|].
    intros Hin. apply Hn'. apply in_or_app. left. exact Hin.
  - apply Forall_app. split; [exact H7|]. constructor; [exact He | constructor].
Qed.

(** The write of the target that was recorded last. *)
Lemma faithful_write_text (t : path) (c : string) (done : list path) :
  In t ts -> In t done ->
  hoare (faithful f0 base ts (Some t) done) (write_text t c)
    (fun r st =>
       match r with
       | Ok _ => faithful f0 base ts None done st
       | Raise _ => faithful f0 base ts (Some t) done st
       end).
Proof.
  intros Ht Hd st H.
  destruct (write_text_cases t c st)
    as [Eb [[[e Ee] Ef] | (Ek & Hnd & Hpar & Ef)]].
  - rewrite Ee. apply (faithful_same _ _ st); auto.
  - rewrite Ek.
    assert (Htn : t <> []) by (intros E; rewrite E in Hnd; discriminate).
    apply (faithful_step (Some t) None done st); auto; rewrite Ef.
    + apply grows_upd_file. exact Hnd.
    + intros t' Ht' Hn'. apply file_at_upd_other.
      intros E. rewrite E in Hn'. contradiction.
    + intros t' Ht' Hd'. rewrite is_dir_upd_other; [exact Hd'|].
      intros E. symmetry in E. revert E. apply target_not_backup. exact Ht.
    + intros entry _ Hdone. unfold entry_faithful.
      destruct (snd entry) as [b|].
      * intros (Hb & (c' & Hc0 & Hc') & Hf). repeat split; auto.
        -- exists c'. split; [exact Hc0|].
           rewrite file_at_upd_other; [exact Hc'|].
           rewrite Hb. intros E. symmetry in E. revert E.
           apply target_not_backup. exact Ht.
        -- destruct (list_eq_dec string_dec (fst entry) t) as [E | E].
           ++ rewrite E. unfold is_file.
              rewrite node_at_upd_same by exact Htn. reflexivity.
           ++ rewrite is_file_upd_other by exact E. exact Hf.
      * intros [H0 Hor]. split; [exact H0|]. left.
        destruct (list_eq_dec string_dec (fst entry) t) as [E | E].
        -- rewrite E. unfold is_file.
           rewrite node_at_upd_same by exact Htn. reflexivity.
        -- rewrite is_file_upd_other by exact E.
           destruct Hor as [Hf | [Hcur _]]; [exact Hf|].
           inversion Hcur. congruence.
Qed.

Lemma faithful_patch_step (p : Patch) (done : list path) :
  (forall t, patch_target base p = Some t -> In t ts /\ ~ In t done) ->
  (forall h t, header p = Some h -> target_of base h = Some t ->
               is_new h = false -> exists_at f0 t = true) ->
  hoare (faithful f0 base ts None done) (patch_step apply_diff base p)
    (fun r st =>
       match r with
       | Ok None => faithful f0 base ts None (done ++ target_list base p) st
       | Ok (Some _) => False
       | Raise _ => exists cur done', faithful f0 base ts cur done' st
       end).
Proof.
  unfold target_list, patch_target, patch_step. intros Ht Hpresent.
  destruct (header p) as [h|];
    [|apply hoare_ret; intros st H; rewrite app_nil_r; exact H].
  destruct (target_of base h) as [t|] eqn:Et;
    [|apply hoare_ret; intros st H; rewrite app_nil_r; exact H].
  destruct (Ht t eq_refl) as [Hin Hnew].
  specialize (Hpresent h t eq_refl Et).
  (* the target is there or is to be created *)
  eapply hoare_bind
    with (R := fun r st => faithful f0 base ts None done st /\ r = Ok false).
  { destruct (is_new h).
    - apply hoare_ret. auto.
    - eapply hoare_bind.
      + apply (path_exists_hoare _ t). apply faithful_path_exists.
      + intros e. apply hoare_ret. intros st [H He]. split; [exact H|].
        inversion He as [E]. f_equal.
        destruct H as (_ & _ & _ & Hg & _).
        rewrite (proj1 (Hg t) (Hpresent eq_refl)). reflexivity.
      + intros e st [_ He]. discriminate. }
  2: { intros e st [_ He]. discriminate. }
  intros missing.
  destruct missing; [intros st [_ He]; discriminate|].
  eapply hoare_consequence
    with (P' := faithful f0 base ts None done)
         (Q' := fun r st =>
                  match r with
                  | Ok None => faithful f0 base ts None (done ++ [t]) st
                  | Ok (Some _) => False
                  | Raise _ => exists cur done', faithful f0 base ts cur done' st
                  end);
    [|intros st [H _]; exact H | auto].
  eapply hoare_bind;
    [apply (path_exists_hoare _ t); apply faithful_path_exists | |
     intros e st [H _]; eauto].
  intros e.
  (* 1. the backup and its record *)
  eapply hoare_bind
    with (R := fun r st =>
                 match r with
                 | Ok _ => faithful f0 base ts (Some t) (done ++ [t]) st
                 | Raise _ => faithful f0 base ts None done st
                 end).
  { destruct e.
    - eapply hoare_bind.
      + eapply hoare_consequence;
          [apply (faithful_copy2 t done Hin Hnew) | intros st [H _]; exact H |
           intros r st H; exact H].
      + intros [] st [H Hc]. destruct (Hc eq_refl) as (c & Hc0 & Hcb & Hf).
        apply faithful_weaken.
        apply faithful_push; auto.
        unfold entry_faithful. simpl. eauto.
      + intros x st [H _]. exact H.
    - intros st [H He]. inversion He as [E].
      apply faithful_push; auto; [|apply faithful_weaken; exact H].
      unfold entry_faithful. simpl.
      destruct H as (_ & _ & _ & _ & Ha & _).
      assert (Hnone : file_at (fs st) t = None).
      { unfold file_at, exists_at in *. destruct (node_at (fs st) t); congruence. }
      split.
      + rewrite <- (Ha t Hin Hnew). exact Hnone.
      + right. split; [reflexivity|].
        unfold is_dir, exists_at in *. destruct (node_at (fs st) t); congruence. }
  2: { intros x st H. eauto. }
  intros u. cbv beta iota.
  assert (Hrec : In t (done ++ [t])) by (apply in_or_app; right; left; reflexivity).
  (* 2. the application *)
  eapply hoare_bind
    with (R := fun _ st => faithful f0 base ts (Some t) (done ++ [t]) st);
    [apply faithful_path_exists | | intros x st H; eauto].
  intros e'.
  eapply hoare_bind
    with (R := fun _ st => faithful f0 base ts (Some t) (done ++ [t]) st).
  { destruct e'; [apply faithful_read_text | apply keeps_ret]. }
  2: { intros x st H; eauto. }
  intros content.
  destruct (apply_diff p (splitlines content)) as [patched|];
    [|apply hoare_raise; intros st H; eauto].
  (* 3. the write *)
  eapply hoare_bind
    with (R := fun _ st => faithful f0 base ts (Some t) (done ++ [t]) st);
    [apply faithful_mkdir_parents; exact Hin | | intros x st H; eauto].
  intros _.
  eapply hoare_bind;
    [apply (faithful_write_text t _ (done ++ [t]) Hin Hrec) | |
     intros x st H; simpl in H; eauto].
  intros u2. apply hoare_ret. intros st H. exact H.
Qed.

Lemma faithful_apply_loop (patches : list Patch) :
  forall done,
  NoDup (done ++ targets base patches) ->
  incl (targets base patches) ts ->
  targets_present base patches f0 ->
  hoare (faithful f0 base ts None done) (apply_loop apply_diff base patches)
    (fun r st =>
       match r with
       | Ok b => b = true
       | Raise _ => exists cur done', faithful f0 base ts cur done' st
       end).
Proof.
  induction patches as [|p ps IH]; intros done Hnd Hincl Hpres; simpl.
  - apply hoare_ret. auto.
  - unfold targets in Hnd, Hincl. simpl in Hnd, Hincl.
    fold (targets base ps) in Hnd, Hincl. fold (target_list base p) in *.
    eapply hoare_bind.
    + apply faithful_patch_step.
      * intros t Et. unfold target_list in *. rewrite Et in *. split.
        -- apply Hincl. left. reflexivity.
        -- intros Hd. apply NoDup_remove_2 in Hnd. apply Hnd.
           apply in_or_app. left. exact Hd.
      * intros h t Eh Et Hn. apply (Hpres p h t); auto. left. reflexivity.
    + intros [b|]; [intros st []|].
      apply IH.
      * rewrite <- app_assoc. exact Hnd.
      * intros x Hx. apply Hincl. apply in_or_app. right. exact Hx.
      * intros q h t Hq. apply Hpres. right. exact Hq.
    + intros e st H. exact H.
Qed.

Lemma faithful_restoring (cur : option path) (done : list path) (st : state) :
  faithful f0 base ts cur done st ->
  restoring f0 base ts cur (backups st) st.
Proof.
  intros (H1 & H2 & H3 & H4 & H5 & H6 & H7). unfold restoring.
  rewrite H1. auto.
Qed.

(** A change of the file system that leaves an entry alone. *)
Lemma entry_faithful_other (cur : option path) (f f' : filesystem)
    (entry : path * option path) :
  (forall b, snd entry = Some b -> node_at f' b = node_at f b) ->
  node_at f' (fst entry) = node_at f (fst entry) ->
  entry_faithful f0 base cur f entry -> entry_faithful f0 base cur f' entry.
Proof.
  unfold entry_faithful, file_at, is_file, is_dir. intros Hb Hf.
  destruct (snd entry) as [b|].
  - rewrite Hf, (Hb b eq_refl). auto.
  - rewrite Hf. auto.
Qed.

(** Restoring one entry changes the file system at its target and its
    backup only, which leaves the other entries alone. *)
Lemma restoring_others (t : path) (rest : list (path * option path))
    (cur : option path) (f f' : filesystem) :
  In t ts -> ~ In t (map fst rest) -> incl (map fst rest) ts ->
  (forall q, q <> t -> q <> backup_file base t ->
             node_at f' q = node_at f q) ->
  Forall (entry_faithful f0 base cur f) rest ->
  Forall (entry_faithful f0 base cur f') rest.
Proof.
  intros Ht Hnt Hincl Hsame Hrest. rewrite Forall_forall in *.
  intros entry Hin.
  assert (Hin' : In (fst entry) (map fst rest)) by (apply in_map; exact Hin).
  assert (Hts : In (fst entry) ts) by (apply Hincl; exact Hin').
  assert (Hne : fst entry <> t) by (intros E; rewrite E in Hin'; contradiction).
  apply (entry_faithful_other cur f); auto.
  - intros b Eb. specialize (Hrest entry Hin). unfold entry_faithful in Hrest.
    rewrite Eb in Hrest. destruct Hrest as (-> & _ & _).
    apply Hsame.
    + intros E. symmetry in E. revert E. apply target_not_backup. exact Ht.
    + apply backups_distinct; assumption.
  - apply Hsame; [exact Hne|]. apply target_not_backup. exact Hts.
Qed.

Lemma restoring_entry (t : path) (ob : option path)
    (rest : list (path * option path)) (cur : option path) :
  hoare (restoring f0 base ts cur ((t, ob) :: rest))
    (rollback_entry (t, ob))
    (fun r st => r = Ok tt -> restoring f0 base ts cur rest st).
Proof.
  intros st (Hnd & Hincl & Ha & Hall). simpl in Hnd, Hincl.
  inversion Hnd as [|? ? Hnt Hnd']; subst.
  inversion Hall as [|? ? Hent Hrest]; subst.
  assert (Ht : In t ts) by (apply Hincl; left; reflexivity).
  assert (Hincl' : incl (map fst rest) ts)
    by (intros x Hx; apply Hincl; right; exact Hx).
  (* what is left to show once the file system after the entry is known *)
  assert (Hdone : forall st',
            file_at (fs st') t = file_at f0 t ->
            (forall q, q <> t -> q <> backup_file base t ->
                       node_at (fs st') q = node_at (fs st) q) ->
            restoring f0 base ts cur rest st').
  { intros st' Htarget Hsame. unfold restoring.
    refine (conj Hnd' (conj Hincl' (conj _ _))).
    - intros t' Ht' Hn'.
      destruct (list_eq_dec string_dec t' t) as [-> | Hne]; [exact Htarget|].
      rewrite <- Ha; [|exact Ht' | simpl; intros [E | E]; auto].
      unfold file_at. rewrite Hsame; auto.
      apply target_not_backup. exact Ht'.
    - apply (restoring_others t rest cur (fs st)); auto. }
  unfold entry_faithful in Hent. simpl in Hent.
  unfold rollback_entry. destruct ob as [b|].
  - destruct Hent as (-> & (c & Hc0 & Hcb) & Hfile).
    assert (Hsrc : node_at (fs st) (backup_file base t) = Some (File c)).
    { unfold file_at in Hcb.
      destruct (node_at (fs st) (backup_file base t)) as [[c'|]|]; congruence. }
    unfold bind. rewrite path_exists_run.
    unfold exists_at. rewrite Hsrc.
    set (st1 := mkState (fs st) (backups st)
                        (log st ++ [EStat (backup_file base t)])).
    destruct (shutil_move_cases (backup_file base t) t c st1 Hsrc
                (is_file_not_dir _ _ Hfile))
      as [_ [[[e Ee] _] | [Ek Ef]]].
    + rewrite Ee. discriminate.
    + intros _. apply Hdone.
      * rewrite Ef. simpl fs. rewrite Hc0. apply file_at_upd_same.
        intros E. rewrite E in Hfile. discriminate.
      * intros q Hq Hqb. rewrite Ef. simpl fs.
        rewrite node_at_upd_other by exact Hq.
        apply node_at_upd_other. exact Hqb.
  - destruct Hent as [H0 Hor].
    unfold bind. rewrite path_exists_run.
    set (st1 := mkState (fs st) (backups st) (log st ++ [EStat t])).
    destruct (exists_at (fs st) t) eqn:Eex.
    + destruct (unlink_cases t st1) as [_ [[[e Ee] _] | (Ek & Hf & Ef)]].
      * rewrite Ee. discriminate.
      * intros _. apply Hdone.
        -- rewrite Ef, H0. simpl fs. unfold file_at.
           rewrite node_at_nonroot by (intros E; rewrite E in Hf; discriminate).
           rewrite upd_same. reflexivity.
        -- intros q Hq _. rewrite Ef. simpl fs.
           apply node_at_upd_other. exact Hq.
    + intros _. apply Hdone; [|reflexivity].
      simpl. rewrite H0. unfold file_at, exists_at in *.
      destruct (node_at (fs st) t); congruence.
Qed.

Lemma restoring_loop (bs : list (path * option path)) (cur : option path) :
  hoare (restoring f0 base ts cur bs) (rollback_loop bs)
    (fun r st => r = Ok tt -> restoring f0 base ts cur [] st).
Proof.
  induction bs as [|[t ob] bs IH]; intros st H.
  - simpl. auto.
  - rewrite rollback_loop_cons.
    pose proof (restoring_entry t ob bs cur st H) as H1.
    destruct (rollback_entry (t, ob) st) as [[[]|e] st1]; simpl in H1.
    + apply IH. apply H1. reflexivity.
    + simpl. discriminate.
Qed.

End Fidelity.

(** X16.  Rollback fidelity where it holds.  When the targets of the diff have
    distinct final components, none lies in the backup directory, no
    directory stands in place of a backup, and every patch that does not
    create its target finds it, a call that returns failure leaves every
    target as it was before the call: a target that was a regular file
    has its text, and a target that was no regular file is none. *)
Theorem rollback_fidelity
    (apply_diff : Patch -> list string -> option (list string))
    (base : path) (patches : list Patch) (f : filesystem) :
  NoDup (map name (targets base patches)) ->
  (forall t, In t (targets base patches) ->
             under (backup_dir base) t = false) ->
  (forall t, In t (targets base patches) ->
             is_dir f (backup_file base t) = false) ->
  targets_present base patches f ->
  fst (call apply_diff base patches f) = Ok false ->
  forall t, In t (targets base patches) ->
            file_at (fs (snd (call apply_diff base patches f))) t
            = file_at f t.
Proof.
  intros Hnames Hout Hslots Hpres.
  destruct patches as [|p ps]; [intros _ t []|].
  rewrite call_cons.
  remember (p :: ps) as patches eqn:Eps. clear Eps p ps.
  set (ts := targets base patches) in *.
  destruct (mkdir_parents_cases (backup_dir base) (init f))
    as [Eb [[[e Ee] _] | (Ek & Hnf & Ef)]].
  { destruct (mkdir_parents (backup_dir base) (init f)) as [[[]|x] st1];
      simpl in *; discriminate. }
  destruct (mkdir_parents (backup_dir base) (init f)) as [[[]|x] st1];
    simpl in Eb, Ek, Ef; [|discriminate].
  assert (H1 : faithful f base ts None [] st1).
  { unfold faithful. rewrite Eb, Ef. simpl.
    refine (conj eq_refl (conj (NoDup_nil _) (conj _ (conj _ (conj _ (conj _ _)))))).
    - intros x [].
    - apply grows_mkdirs.
    - intros t _ _. apply file_at_mkdirs_eq. exact Hnf.
    - intros t Ht. unfold is_dir. rewrite node_at_mkdirs_notin; [apply Hslots; exact Ht|].
      rewrite prefixes_spec. intros [_ [s Hs]].
      unfold backup_file in Hs. rewrite <- app_assoc in Hs.
      apply (f_equal (@length string)) in Hs.
      rewrite !length_app in Hs. simpl in Hs. lia.
    - constructor. }
  pose proof (faithful_apply_loop apply_diff base f ts Hnames Hout patches []
                (NoDup_map_inv name ts Hnames) (fun x Hx => Hx) Hpres st1 H1)
    as H2.
  unfold try_except.
  destruct (apply_loop apply_diff base patches st1) as [[b|e] st2];
    simpl in H2.
  - subst b. discriminate.
  - destruct H2 as (cur & done' & H2).
    apply (faithful_restoring base f ts) in H2.
    pose proof (restoring_loop base f ts Hnames Hout (backups st2) cur st2 H2)
      as H3.
    unfold rollback, bind, get_backups.
    destruct (rollback_loop (backups st2) st2) as [[[]|x] st3]; simpl in *;
      [|discriminate].
    intros _ t Ht. destruct (H3 eq_refl) as (_ & _ & Ha & _).
    apply Ha; [exact Ht | intros []].
Qed.

(** X16 on the two files of [test_apply_unified_diff_rollback], one
    patch for each. *)
Lemma rollback_fidelity_witness :
  fst (apply Scenario.tmp Scenario.two_diff Scenario.two_fs) = Ok false /\
  file_at (fs (snd (apply Scenario.tmp Scenario.two_diff Scenario.two_fs)))
          Scenario.file1 = Some ("content 1" ++ NL)%string /\
  file_at (fs (snd (apply Scenario.tmp Scenario.two_diff Scenario.two_fs)))
          Scenario.file2 = Some ("content 2" ++ NL)%string.
Proof.
  assert (H : forall t, In t (targets Scenario.tmp Scenario.two_diff) ->
            file_at (fs (snd (apply Scenario.tmp Scenario.two_diff
                                    Scenario.two_fs))) t
            = file_at Scenario.two_fs t).
  { apply (rollback_fidelity spec_apply_diff Scenario.tmp Scenario.two_diff
             Scenario.two_fs).
    - simpl. repeat constructor; simpl; intuition discriminate.
    - intros t [<- | [<- | []]]; reflexivity.
    - intros t [<- | [<- | []]]; reflexivity.
    - intros p h t [<- | [<- | []]] Eh Et _;
        inversion Eh; subst h; inversion Et; subst t; reflexivity.
    - reflexivity. }
  split; [reflexivity|]. split.
  - rewrite H by (left; reflexivity). reflexivity.
  - rewrite H by (right; left; reflexivity). reflexivity.
Defined.

(** * Further properties *)

(** ** Writing a whole file *)

Lemma is_dir_mkdirs_parent (f : filesystem) (t : path) :
  is_dir (mkdirs (prefixes (parent t)) f) (parent t) = true.
Proof.
  destruct (parent t) as [|x q] eqn:E; [reflexivity|].
  unfold is_dir. rewrite node_at_mkdirs_in; [reflexivity|].
  apply prefixes_self. discriminate.
Qed.

Lemma is_dir_mkdirs_target (f : filesystem) (t : path) :
  is_dir (mkdirs (prefixes (parent t)) f) t = is_dir f t.
Proof.
  unfold is_dir. rewrite node_at_mkdirs_notin; [reflexivity|].
  apply not_in_prefixes_parent.
Qed.

(** The call where nothing is in the way. *)
Lemma apply_whole_file_run (t : path) (c : string) (st : state) :
  existsb (is_file (fs st)) (prefixes (parent t)) = false ->
  is_dir (fs st) t = false ->
  apply_whole_file t c st
  = (Ok true,
     mkState (upd t (Some (File c)) (mkdirs (prefixes (parent t)) (fs st)))
             (backups st) (log st ++ [EMkdir (parent t); EWrite t])).
Proof.
  intros Hnf Hnd. unfold apply_whole_file.
  erewrite bind_ok by (apply mkdir_parents_run; exact Hnf). cbv beta iota.
  erewrite bind_ok.
  2: { apply write_text_run; simpl fs.
       - rewrite is_dir_mkdirs_target. exact Hnd.
       - apply is_dir_mkdirs_parent. }
  cbv beta iota. unfold ret. simpl. rewrite <- app_assoc. reflexivity.
Qed.

(** The call where a regular file stands at the parent or above it. *)
Lemma apply_whole_file_blocked (t : path) (c : string) (st : state) :
  existsb (is_file (fs st)) (prefixes (parent t)) = true ->
  exists e, (e = FileExistsError \/ e = NotADirectoryError) /\
    apply_whole_file t c st
    = (Raise e, mkState (fs st) (backups st) (log st ++ [EMkdir (parent t)])).
Proof.
  intros Hf. unfold apply_whole_file, mkdir_parents, bind, emit, get_fs, raise.
  simpl. rewrite Hf.
  destruct (is_file (fs st) (parent t)); eauto.
Qed.

(** The call on a directory. *)
Lemma apply_whole_file_on_dir (t : path) (c : string) (st : state) :
  existsb (is_file (fs st)) (prefixes (parent t)) = false ->
  is_dir (fs st) t = true ->
  apply_whole_file t c st
  = (Raise IsADirectoryError,
     mkState (mkdirs (prefixes (parent t)) (fs st))
             (backups st) ((log st ++ [EMkdir (parent t)]) ++ [EWrite t])).
Proof.
  intros Hnf Hd. unfold apply_whole_file.
  erewrite bind_ok by (apply mkdir_parents_run; exact Hnf). cbv beta iota.
  unfold write_text, bind, emit, get_fs, raise. simpl.
  rewrite is_dir_mkdirs_target, Hd. reflexivity.
Qed.

(** A call that returns met nothing in its way. *)
Lemma apply_whole_file_ok_inv (t : path) (c : string) (st : state) :
  fst (apply_whole_file t c st) = Ok true ->
  existsb (is_file (fs st)) (prefixes (parent t)) = false /\
  is_dir (fs st) t = false.
Proof.
  destruct (existsb (is_file (fs st)) (prefixes (parent t))) eqn:Hf.
  - destruct (apply_whole_file_blocked t c st Hf) as (e & _ & E).
    rewrite E. discriminate.
  - destruct (is_dir (fs st) t) eqn:Hd; [|auto].
    rewrite (apply_whole_file_on_dir t c st Hf Hd). discriminate.
Qed.

(** X1.  [apply_whole_file] returns [True] exactly when no regular file
    stands at the parent of the target or above it and the target is
    not a directory; in every other case it raises, and it never
    returns [False]. *)
Theorem whole_file_outcome (t : path) (c : string) (st : state) :
  (fst (apply_whole_file t c st) = Ok true <->
   existsb (is_file (fs st)) (prefixes (parent t)) = false /\
   is_dir (fs st) t = false) /\
  fst (apply_whole_file t c st) <> Ok false.
Proof.
  destruct (existsb (is_file (fs st)) (prefixes (parent t))) eqn:Hf.
  - destruct (apply_whole_file_blocked t c st Hf) as (e & _ & E).
    rewrite E. simpl. split; [split|]; try discriminate.
    intros [H _]; discriminate.
  - destruct (is_dir (fs st) t) eqn:Hd.
    + rewrite (apply_whole_file_on_dir t c st Hf Hd). simpl.
      split; [split|]; try discriminate. intros [_ H]; discriminate.
    + rewrite (apply_whole_file_run t c st Hf Hd). simpl.
      split; [split|]; auto; discriminate.
Qed.

(** X2.  When [apply_whole_file] returns, the target is a regular file
    that holds exactly the content, its parent is a directory, every
    other regular file has the text it had, and whatever existed still
    exists. *)
Theorem whole_file_written (t : path) (c : string) (st : state) :
  fst (apply_whole_file t c st) = Ok true ->
  file_at (fs (snd (apply_whole_file t c st))) t = Some c /\
  is_dir (fs (snd (apply_whole_file t c st))) (parent t) = true /\
  (forall q, q <> t ->
     file_at (fs (snd (apply_whole_file t c st))) q = file_at (fs st) q) /\
  grows (fs st) (fs (snd (apply_whole_file t c st))).
Proof.
  intros H. apply apply_whole_file_ok_inv in H.
  destruct H as [Hf Hd].
  rewrite (apply_whole_file_run t c st Hf Hd). simpl.
  assert (Ht : t <> []) by (intros ->; discriminate).
  split; [|split; [|split]].
  - apply file_at_upd_same. exact Ht.
  - unfold is_dir. rewrite node_at_upd_other.
    + apply is_dir_mkdirs_parent.
    + intros E. apply (not_in_prefixes_parent t). rewrite <- E at 1.
      apply prefixes_self. rewrite E. exact Ht.
  - intros q Hq. rewrite file_at_upd_other by exact Hq.
    apply file_at_mkdirs_eq. exact Hf.
  - eapply grows_trans; [apply grows_mkdirs|].
    apply grows_upd_file. rewrite is_dir_mkdirs_target. exact Hd.
Qed.

(** X2 at a file two directories below the base, neither of which
    exists. *)
Lemma whole_file_written_witness :
  file_at (fs (snd (apply_whole_file Scenario.deep_txt "text"
                      (init Scenario.hello_fs)))) Scenario.deep_txt
  = Some "text" /\
  is_dir (fs (snd (apply_whole_file Scenario.deep_txt "text"
                     (init Scenario.hello_fs)))) (parent Scenario.deep_txt)
  = true /\
  (forall q, q <> Scenario.deep_txt ->
     file_at (fs (snd (apply_whole_file Scenario.deep_txt "text"
                         (init Scenario.hello_fs)))) q
     = file_at (fs (init Scenario.hello_fs)) q) /\
  grows (fs (init Scenario.hello_fs))
        (fs (snd (apply_whole_file Scenario.deep_txt "text"
                    (init Scenario.hello_fs)))).
Proof.
  apply (whole_file_written Scenario.deep_txt "text" (init Scenario.hello_fs)).
  vm_compute. reflexivity.
Defined.

(** X3.  When [apply_whole_file] raises, the exception is that of a
    regular file in place of a directory ([FileExistsError],
    [NotADirectoryError]) or of a directory in place of the target
    ([IsADirectoryError]), never that of a missing directory; no regular
    file has changed, and whatever existed still exists. *)
Theorem whole_file_failure (t : path) (c : string) (st : state) (e : exn) :
  fst (apply_whole_file t c st) = Raise e ->
  (e = FileExistsError \/ e = NotADirectoryError \/ e = IsADirectoryError) /\
  (forall q, file_at (fs (snd (apply_whole_file t c st))) q
             = file_at (fs st) q) /\
  grows (fs st) (fs (snd (apply_whole_file t c st))).
Proof.
  destruct (existsb (is_file (fs st)) (prefixes (parent t))) eqn:Hf.
  - destruct (apply_whole_file_blocked t c st Hf) as (x & Hx & E).
    rewrite E. simpl. intros He. inversion He; subst x.
    split; [tauto|]. split; [reflexivity | apply grows_refl].
  - destruct (is_dir (fs st) t) eqn:Hd.
    + rewrite (apply_whole_file_on_dir t c st Hf Hd). simpl.
      intros He. inversion He; subst e.
      split; [tauto|]. split.
      * intros q. apply file_at_mkdirs_eq. exact Hf.
      * apply grows_mkdirs.
    + rewrite (apply_whole_file_run t c st Hf Hd). discriminate.
Qed.

(** X3 at the base directory as the target. *)
Lemma whole_file_failure_witness :
  (IsADirectoryError = FileExistsError \/
   IsADirectoryError = NotADirectoryError \/
   IsADirectoryError = IsADirectoryError) /\
  (forall q, file_at (fs (snd (apply_whole_file Scenario.tmp "text"
                                 (init Scenario.hello_fs)))) q
             = file_at (fs (init Scenario.hello_fs)) q) /\
  grows (fs (init Scenario.hello_fs))
        (fs (snd (apply_whole_file Scenario.tmp "text"
                    (init Scenario.hello_fs)))).
Proof.
  apply (whole_file_failure Scenario.tmp "text" (init Scenario.hello_fs)
           IsADirectoryError).
  vm_compute. reflexivity.
Defined.

(** X4.  After a call that returned, a second call on the same path
    returns as well, and the file system it leaves is the one a single
    call with the second content leaves: the last content wins and
    nothing of the first remains. *)
Theorem whole_file_overwrite (t : path) (c1 c2 : string) (st : state) :
  fst (apply_whole_file t c1 st) = Ok true ->
  fst (apply_whole_file t c2 (snd (apply_whole_file t c1 st))) = Ok true /\
  forall q,
    fs (snd (apply_whole_file t c2 (snd (apply_whole_file t c1 st)))) q
    = fs (snd (apply_whole_file t c2 st)) q.
Proof.
  intros H. apply apply_whole_file_ok_inv in H. destruct H as [Hf Hd].
  assert (Ht : t <> []) by (intros ->; discriminate).
  rewrite (apply_whole_file_run t c1 st Hf Hd). cbn [snd].
  rewrite (apply_whole_file_run t c2 st Hf Hd). cbn [snd].
  set (f1 := upd t (Some (File c1)) (mkdirs (prefixes (parent t)) (fs st))).
  set (st1 := mkState f1 (backups st)
                      (log st ++ [EMkdir (parent t); EWrite t])).
  assert (Hf1 : existsb (is_file (fs st1)) (prefixes (parent t)) = false).
  { apply existsb_false. intros q Hq. simpl. unfold f1.
    rewrite is_file_upd_other.
    - rewrite is_file_mkdirs_eq by exact Hf.
      rewrite existsb_false in Hf. apply Hf, Hq.
    - intros ->. exact (not_in_prefixes_parent t Hq). }
  assert (Hd1 : is_dir (fs st1) t = false).
  { simpl. unfold f1, is_dir. rewrite node_at_upd_same by exact Ht.
    reflexivity. }
  rewrite (apply_whole_file_run t c2 st1 Hf1 Hd1). simpl.
  split; [reflexivity|]. intros q.
  destruct (list_eq_dec string_dec q t) as [-> | Hne].
  - rewrite !upd_same. reflexivity.
  - rewrite !upd_other by exact Hne.
    destruct (mkdirs_cases (prefixes (parent t)) f1 q) as [[Hin E] | [Hn E]];
      rewrite E.
    + symmetry. apply mkdirs_in. exact Hin.
    + unfold f1. rewrite upd_other by exact Hne. reflexivity.
Qed.

(** X4 at the file of the scenario, written twice. *)
Lemma whole_file_overwrite_witness :
  fst (apply_whole_file Scenario.deep_txt "second"
         (snd (apply_whole_file Scenario.deep_txt "first"
                 (init Scenario.hello_fs)))) = Ok true /\
  forall q,
    fs (snd (apply_whole_file Scenario.deep_txt "second"
               (snd (apply_whole_file Scenario.deep_txt "first"
                       (init Scenario.hello_fs))))) q
    = fs (snd (apply_whole_file Scenario.deep_txt "second"
                 (init Scenario.hello_fs))) q.
Proof.
  apply (whole_file_overwrite Scenario.deep_txt "first" "second"
           (init Scenario.hello_fs)).
  vm_compute. reflexivity.
Defined.

Lemma universal_newlines_no_cr (s : string) :
  has_cr s = false -> universal_newlines s = s.
Proof.
  induction s as [|c s IH]; [reflexivity|].
  cbn [has_cr universal_newlines]. intros H.
  apply orb_false_iff in H. destruct H as [Hc Hs].
  rewrite Hc, (IH Hs). reflexivity.
Qed.

(** X5.  What [apply_whole_file] wrote is what the applier reads back
    from the target: the content with every CR LF and lone CR turned
    into LF, which is the content itself when it holds no carriage
    return. *)
Theorem whole_file_read_back (t : path) (c : string) (st : state) :
  fst (apply_whole_file t c st) = Ok true ->
  fst (read_text t (snd (apply_whole_file t c st)))
  = Ok (universal_newlines c) /\
  (has_cr c = false ->
   fst (read_text t (snd (apply_whole_file t c st))) = Ok c).
Proof.
  intros H. apply apply_whole_file_ok_inv in H. destruct H as [Hf Hd].
  assert (Ht : t <> []) by (intros ->; discriminate).
  rewrite (apply_whole_file_run t c st Hf Hd).
  assert (E : forall st', node_at (fs st') t = Some (File c) ->
            fst (read_text t st') = Ok (universal_newlines c)).
  { intros st' Hn. unfold read_text, bind, emit, get_fs, ret. simpl.
    rewrite Hn. reflexivity. }
  rewrite E by (simpl; apply node_at_upd_same; exact Ht).
  split; [reflexivity|]. intros Hc.
  rewrite universal_newlines_no_cr by exact Hc. reflexivity.
Qed.

(** X5 at a text of two lines. *)
Lemma whole_file_read_back_witness :
  fst (read_text Scenario.deep_txt
         (snd (apply_whole_file Scenario.deep_txt ("a" ++ NL ++ "b" ++ NL)
                 (init Scenario.hello_fs))))
  = Ok (universal_newlines ("a" ++ NL ++ "b" ++ NL)) /\
  (has_cr ("a" ++ NL ++ "b" ++ NL) = false ->
   fst (read_text Scenario.deep_txt
          (snd (apply_whole_file Scenario.deep_txt ("a" ++ NL ++ "b" ++ NL)
                  (init Scenario.hello_fs))))
   = Ok ("a" ++ NL ++ "b" ++ NL)%string).
Proof.
  apply (whole_file_read_back Scenario.deep_txt ("a" ++ NL ++ "b" ++ NL)
           (init Scenario.hello_fs)).
  vm_compute. reflexivity.
Defined.

(** ** The applier: the backup directory, success, line endings *)

(** X6.  The backup directory is made before the [try]: when a regular
    file stands where [.akita/backups] or one of its ancestors is to be,
    a call on a diff with patches does not return [False]; the
    exception of [mkdir] escapes, and nothing but that [mkdir] was
    attempted: the file system is as it was. *)
Theorem backup_dir_failure_escapes
    (apply_diff : Patch -> list string -> option (list string))
    (base : path) (patches : list Patch) (f : filesystem) :
  patches <> [] ->
  existsb (is_file f) (prefixes (backup_dir base)) = true ->
  exists e, (e = FileExistsError \/ e = NotADirectoryError) /\
    call apply_diff base patches f
    = (Raise e, mkState f [] [EMkdir (backup_dir base)]).
Proof.
  intros Hne Hf. destruct patches as [|p ps]; [congruence|].
  rewrite call_cons.
  unfold mkdir_parents, bind, emit, get_fs, raise. simpl. rewrite Hf.
  destruct (is_file f (backup_dir base)); eauto.
Qed.

(** X6 at a base directory in which [.akita] is a regular file. *)
Lemma backup_dir_failure_escapes_witness :
  exists e, (e = FileExistsError \/ e = NotADirectoryError) /\
    call spec_apply_diff Scenario.tmp Scenario.hello_diff Scenario.blocked_fs
    = (Raise e, mkState Scenario.blocked_fs []
                        [EMkdir (backup_dir Scenario.tmp)]).
Proof.
  apply (backup_dir_failure_escapes spec_apply_diff Scenario.tmp
           Scenario.hello_diff Scenario.blocked_fs).
  - discriminate.
  - vm_compute. reflexivity.
Defined.

(** The loop body returns [False] or goes on; it never returns
    [True]. *)
Lemma patch_step_never_true
    (apply_diff : Patch -> list string -> option (list string))
    (base : path) (p : Patch) (st : state) :
  fst (patch_step apply_diff base p st) <> Ok (Some true).
Proof.
  apply (kept_patch_step apply_diff base (fs st) p [] st).
  split; [apply grows_refl | intros t []].
Qed.

(** When the loop returns [True], every target was recorded and
    written, in the order of the diff, and nothing was restored. *)
Lemma progress_apply_loop_true
    (apply_diff : Patch -> list string -> option (list string))
    (base : path) (patches : list Patch) (st0 : state) :
  forall ts ws,
  hoare (progress st0 ts ws) (apply_loop apply_diff base patches)
    (fun r st => r = Ok true ->
       progress st0 (ts ++ targets base patches)
                    (ws ++ targets base patches) st).
Proof.
  induction patches as [|p ps IH]; intros ts ws; simpl.
  - apply hoare_ret. intros st HP _. rewrite !app_nil_r. exact HP.
  - eapply hoare_bind
      with (R := fun r st =>
                   r <> Ok (Some true) /\
                   exists ts1 ws1,
                     progress st0 (ts ++ ts1) (ws ++ ws1) st /\
                     (r = Ok None ->
                      ws1 = ts1 /\ ts1 = target_list base p)).
    + intros st HP. split; [apply patch_step_never_true|].
      destruct (progress_patch_step apply_diff base p st0 ts ws st HP)
        as (ts1 & ws1 & H1 & _ & _ & H2).
      exists ts1, ws1. split; assumption.
    + intros [b|] st (Hb & ts1 & ws1 & HP & Hgo).
      * simpl. intros E. inversion E; subst. congruence.
      * destruct (Hgo eq_refl) as [-> ->].
        intros E.
        pose proof (IH (ts ++ target_list base p) (ws ++ target_list base p)
                       st HP E) as H.
        unfold targets. simpl. fold (targets base ps).
        fold (target_list base p). rewrite !app_assoc. exact H.
    + intros e st _. discriminate.
Qed.

(** X7.  When a call returns [True], each target of the diff was
    recorded once and written once, in the order of the patches, and no
    file was moved or unlinked: the rollback did not run and no patch
    was left out. *)
Theorem success_writes_every_target
    (apply_diff : Patch -> list string -> option (list string))
    (base : path) (patches : list Patch) (f : filesystem) :
  fst (call apply_diff base patches f) = Ok true ->
  flat_map written (log (snd (call apply_diff base patches f)))
  = targets base patches /\
  map fst (backups (snd (call apply_diff base patches f)))
  = targets base patches /\
  flat_map restored (log (snd (call apply_diff base patches f))) = [].
Proof.
  destruct patches as [|p ps]; [rewrite call_nil; discriminate|].
  rewrite call_cons.
  remember (p :: ps) as patches eqn:Eps. clear Eps p ps.
  pose proof (mkdir_parents_effect (backup_dir base) (init f)) as [Eb El].
  destruct (mkdir_parents (backup_dir base) (init f)) as [[[]|e] st1];
    simpl in Eb, El; [|discriminate].
  pose proof (progress_apply_loop_true apply_diff base patches st1 [] [] st1
                (progress_start st1)) as HP.
  unfold try_except.
  destruct (apply_loop apply_diff base patches st1) as [[b|e] st2];
    simpl in HP |- *.
  - intros E. destruct (HP E) as (evs & Hl & Hres & Hwr & Hb).
    rewrite Eb in Hb. simpl in Hb. rewrite El in Hl.
    rewrite Hb, Hl. rewrite !flat_map_app. simpl. rewrite Hres, Hwr.
    auto.
  - intros E. destruct (rollback_state e st2) as [_ [E' | [x E']]];
      congruence.
Qed.

(** X7 at the diff of [hello.py]. *)
Lemma success_writes_every_target_witness :
  flat_map written
    (log (snd (call spec_apply_diff Scenario.tmp Scenario.hello_diff
                    Scenario.hello_fs)))
  = targets Scenario.tmp Scenario.hello_diff /\
  map fst (backups (snd (call spec_apply_diff Scenario.tmp Scenario.hello_diff
                              Scenario.hello_fs)))
  = targets Scenario.tmp Scenario.hello_diff /\
  flat_map restored
    (log (snd (call spec_apply_diff Scenario.tmp Scenario.hello_diff
                    Scenario.hello_fs))) = [].
Proof.
  apply (success_writes_every_target spec_apply_diff Scenario.tmp
           Scenario.hello_diff Scenario.hello_fs).
  vm_compute. reflexivity.
Defined.

(** *** Targets after a call that returns [True] *)

Lemma is_file_upd_file (p q : path) (c : string) (f : filesystem) :
  is_file f q = true -> is_file (upd p (Some (File c)) f) q = true.
Proof.
  intros H. destruct (list_eq_dec string_dec q p) as [-> | Hne].
  - destruct p as [|x p]; [discriminate|].
    unfold is_file. rewrite node_at_upd_same by discriminate. reflexivity.
  - rewrite is_file_upd_other by exact Hne. exact H.
Qed.

Lemma mkdir_parents_keeps_files (p q : path) (st : state) :
  is_file (fs st) q = true ->
  is_file (fs (snd (mkdir_parents p st))) q = true.
Proof.
  intros H.
  destruct (mkdir_parents_cases p st) as [_ [[_ E] | (_ & Hnf & E)]];
    rewrite E; [exact H|].
  rewrite is_file_mkdirs_eq by exact Hnf. exact H.
Qed.

Lemma write_text_keeps_files (p q : path) (c : string) (st : state) :
  is_file (fs st) q = true ->
  is_file (fs (snd (write_text p c st))) q = true.
Proof.
  intros H.
  destruct (write_text_cases p c st) as [_ [[_ E] | (_ & _ & _ & E)]];
    rewrite E; [exact H|].
  apply is_file_upd_file. exact H.
Qed.

Lemma write_text_makes_file (p : path) (c : string) (st : state) :
  fst (write_text p c st) = Ok tt ->
  is_file (fs (snd (write_text p c st))) p = true.
Proof.
  intros Hok.
  destruct (write_text_cases p c st) as [_ [[[e He] _] | (_ & Hd & _ & E)]];
    [congruence|].
  rewrite E. destruct p as [|x p]; [discriminate|].
  unfold is_file. rewrite node_at_upd_same by discriminate. reflexivity.
Qed.

Lemma copy2_keeps_files (src dst q : path) (st : state) :
  is_file (fs st) q = true ->
  is_file (fs (snd (copy2 src dst st))) q = true.
Proof.
  intros H. run_prim. break_match; try exact H;
    apply is_file_upd_file; exact H.
Qed.

Lemma read_text_keeps_files (p q : path) (st : state) :
  is_file (fs st) q = true ->
  is_file (fs (snd (read_text p st))) q = true.
Proof.
  intros H. rewrite (proj2 (read_text_cases p st)). exact H.
Qed.

Section Files.

Variable apply_diff : Patch -> list string -> option (list string).
Variable base : path.

Lemma files_kept_prim {A} (m : M A) (done : list path) :
  (forall st q, is_file (fs st) q = true ->
                is_file (fs (snd (m st))) q = true) ->
  keeps (files_kept done) m.
Proof. intros Hm st H t Hin. apply Hm, H, Hin. Qed.

Lemma files_kept_path_exists (t : path) (done : list path) :
  keeps (files_kept done) (path_exists t).
Proof.
  apply files_kept_prim. intros st q H. rewrite path_exists_run. exact H.
Qed.

Lemma files_kept_push (entry : path * option path) (done : list path) :
  keeps (files_kept done) (push_backup entry).
Proof. apply files_kept_prim. intros st q H. exact H. Qed.

(** One patch keeps the regular files regular, and when the loop goes
    on its target is a regular file. *)
Lemma files_kept_patch_step (p : Patch) (done : list path) :
  hoare (files_kept done) (patch_step apply_diff base p)
    (fun r st =>
       files_kept done st /\
       (r = Ok None -> files_kept (target_list base p ++ done) st)).
Proof.
  unfold target_list, patch_target, patch_step.
  destruct (header p) as [h|];
    [|apply hoare_ret; intros st H; split; [exact H | intros _; exact H]].
  destruct (target_of base h) as [t|];
    [|apply hoare_ret; intros st H; split; [exact H | intros _; exact H]].
  assert (Hstop : forall (r : result (option bool)) st,
            r <> Ok None -> files_kept done st ->
            files_kept done st /\
            (r = Ok None -> files_kept ([t] ++ done) st)).
  { intros r st Hn H. split; [exact H | congruence]. }
  eapply hoare_bind with (R := fun _ st => files_kept done st).
  { destruct (is_new h); [apply keeps_ret|].
    apply keeps_bind; [apply files_kept_path_exists|].
    intros a. apply keeps_ret. }
  2: { intros e st H. apply Hstop; [discriminate | exact H]. }
  intros missing. destruct missing.
  { apply hoare_ret. intros st H. apply Hstop; [discriminate | exact H]. }
  eapply hoare_bind with (R := fun _ st => files_kept done st);
    [apply files_kept_path_exists | |
     intros e st H; apply Hstop; [discriminate | exact H]].
  intros e.
  eapply hoare_bind with (R := fun _ st => files_kept done st).
  { destruct e; [|apply files_kept_push].
    apply keeps_bind; [|intros _; apply files_kept_push].
    apply files_kept_prim. intros st q. apply copy2_keeps_files. }
  2: { intros x st H. apply Hstop; [discriminate | exact H]. }
  intros _.
  eapply hoare_bind with (R := fun _ st => files_kept done st);
    [apply files_kept_path_exists | |
     intros x st H; apply Hstop; [discriminate | exact H]].
  intros e'.
  eapply hoare_bind with (R := fun _ st => files_kept done st).
  { destruct e'; [|apply keeps_ret].
    apply files_kept_prim. intros st q. apply read_text_keeps_files. }
  2: { intros x st H. apply Hstop; [discriminate | exact H]. }
  intros content.
  destruct (apply_diff p (splitlines content)) as [patched|].
  2: { apply hoare_raise. intros st H.
       apply Hstop; [discriminate | exact H]. }
  eapply hoare_bind with (R := fun _ st => files_kept done st).
  { apply files_kept_prim. intros st q. apply mkdir_parents_keeps_files. }
  2: { intros x st H. apply Hstop; [discriminate | exact H]. }
  intros _.
  eapply hoare_bind
    with (R := fun r st =>
                 files_kept done st /\
                 (r = Ok tt -> is_file (fs st) t = true)).
  - intros st H. split.
    + intros x Hx. apply write_text_keeps_files, H, Hx.
    + apply write_text_makes_file.
  - intros []. apply hoare_ret. intros st [H Ht]. split; [exact H|].
    intros _ x [<- | Hx]; [apply Ht; reflexivity | apply H, Hx].
  - intros x st [H _]. apply Hstop; [discriminate | exact H].
Qed.

Lemma files_kept_apply_loop (patches : list Patch) :
  forall done,
  hoare (files_kept done) (apply_loop apply_diff base patches)
    (fun r st =>
       r = Ok true -> files_kept (targets base patches ++ done) st).
Proof.
  induction patches as [|p ps IH]; intros done; simpl.
  - apply hoare_ret. intros st H _. exact H.
  - eapply hoare_bind
      with (R := fun r st =>
                   r <> Ok (Some true) /\
                   (r = Ok None ->
                    files_kept (target_list base p ++ done) st)).
    + intros st H. split; [apply patch_step_never_true|].
      apply (files_kept_patch_step p done st H).
    + intros [b|] st [Hb Hgo].
      * simpl. intros E. inversion E; subst. congruence.
      * intros E.
        pose proof (IH (target_list base p ++ done) st (Hgo eq_refl) E) as H.
        unfold targets. simpl. fold (targets base ps).
        fold (target_list base p).
        intros x Hx. apply H. rewrite !in_app_iff in *. tauto.
    + intros e st _. discriminate.
Qed.

End Files.

(** X8.  When a call returns [True], every target of the diff is a
    regular file after the call, also the target of a patch whose new
    side is [/dev/null]: no patch removes its target. *)
Theorem success_leaves_every_target
    (apply_diff : Patch -> list string -> option (list string))
    (base : path) (patches : list Patch) (f : filesystem) :
  fst (call apply_diff base patches f) = Ok true ->
  forall t, In t (targets base patches) ->
    is_file (fs (snd (call apply_diff base patches f))) t = true.
Proof.
  destruct patches as [|p ps]; [rewrite call_nil; discriminate|].
  rewrite call_cons.
  remember (p :: ps) as patches eqn:Eps. clear Eps p ps.
  destruct (mkdir_parents (backup_dir base) (init f)) as [[[]|e] st1];
    [|discriminate].
  assert (H0 : files_kept [] st1) by (intros t []).
  pose proof (files_kept_apply_loop apply_diff base patches [] st1 H0) as H.
  unfold try_except.
  destruct (apply_loop apply_diff base patches st1) as [[b|e] st2];
    simpl in H |- *.
  - intros E t Hin. apply (H E). apply in_or_app. left. exact Hin.
  - intros E. destruct (rollback_state e st2) as [_ [E' | [x E']]];
      congruence.
Qed.

(** X8 at the patch that deletes [f.py]. *)
Lemma success_leaves_every_target_witness :
  is_file (fs (snd (call spec_apply_diff Scenario.tmp Scenario.delete_diff
                         Scenario.one_file_fs))) Scenario.f_py = true.
Proof.
  apply (success_leaves_every_target spec_apply_diff Scenario.tmp
           Scenario.delete_diff Scenario.one_file_fs).
  - vm_compute. reflexivity.
  - left. reflexivity.
Defined.

(** *** Nothing is removed on the way to success *)

(** X20.  When a call returns [True], whatever existed before the call
    still exists after it, every directory is still a directory, and
    the backup directory [.akita/backups] of the base is there: a
    successful call only adds and overwrites, and it leaves its backup
    directory behind. *)
Theorem success_removes_nothing
    (apply_diff : Patch -> list string -> option (list string))
    (base : path) (patches : list Patch) (f : filesystem) :
  fst (call apply_diff base patches f) = Ok true ->
  grows f (fs (snd (call apply_diff base patches f))) /\
  is_dir (fs (snd (call apply_diff base patches f))) (backup_dir base) = true.
Proof.
  destruct patches as [|p ps]; [rewrite call_nil; discriminate|].
  rewrite call_cons.
  remember (p :: ps) as patches eqn:Eps. clear Eps p ps.
  pose proof (mkdir_parents_grows (backup_dir base) (init f)) as Hg.
  pose proof (mkdir_parents_ok (backup_dir base) [] (init f)) as Hd.
  rewrite app_nil_r in Hd.
  destruct (mkdir_parents (backup_dir base) (init f)) as [[[]|e] st1];
    simpl in Hg, Hd; [|discriminate].
  specialize (Hd eq_refl).
  assert (H0 : backups_kept (fs st1) base [] st1).
  { split; [apply grows_refl | intros t []]. }
  pose proof (kept_apply_loop apply_diff base (fs st1) patches [] st1 H0)
    as [[H _] _].
  unfold try_except.
  destruct (apply_loop apply_diff base patches st1) as [[b|e] st2];
    simpl in *.
  - intros _. split.
    + eapply grows_trans; [exact Hg | exact H].
    + apply (H (backup_dir base)). exact Hd.
  - intros E. destruct (rollback_state e st2) as [_ [E' | [x E']]];
      congruence.
Qed.

(** X20 at the patch that deletes [f.py]. *)
Lemma success_removes_nothing_witness :
  grows Scenario.one_file_fs
        (fs (snd (call spec_apply_diff Scenario.tmp Scenario.delete_diff
                       Scenario.one_file_fs))) /\
  is_dir (fs (snd (call spec_apply_diff Scenario.tmp Scenario.delete_diff
                        Scenario.one_file_fs)))
         (backup_dir Scenario.tmp) = true.
Proof.
  apply (success_removes_nothing spec_apply_diff Scenario.tmp
           Scenario.delete_diff Scenario.one_file_fs).
  vm_compute. reflexivity.
Defined.

(** *** Lines read and lines written *)

Lemma splitlines_from_nil (cur : string) :
  splitlines_from cur "" = if String.eqb cur "" then [] else [cur].
Proof. reflexivity. Qed.

Lemma splitlines_from_cr_lf (cur : string) (c c2 : ascii) (s : string) :
  is_cr c = true -> is_lf c2 = true ->
  splitlines_from cur (String c (String c2 s)) = cur :: splitlines_from "" s.
Proof. intros H1 H2. cbn [splitlines_from]. rewrite H1, H2. reflexivity. Qed.

Lemma splitlines_from_cr (cur : string) (c c2 : ascii) (s : string) :
  is_cr c = true -> is_lf c2 = false ->
  splitlines_from cur (String c (String c2 s))
  = cur :: splitlines_from "" (String c2 s).
Proof. intros H1 H2. cbn [splitlines_from]. rewrite H1, H2. reflexivity. Qed.

Lemma splitlines_from_cr_end (cur : string) (c : ascii) :
  is_cr c = true -> splitlines_from cur (String c "") = [cur].
Proof. intros H1. cbn [splitlines_from]. rewrite H1. reflexivity. Qed.

Lemma splitlines_from_break (cur : string) (c : ascii) (s : string) :
  is_cr c = false -> is_linebreak c = true ->
  splitlines_from cur (String c s) = cur :: splitlines_from "" s.
Proof. intros H1 H2. cbn [splitlines_from]. rewrite H1, H2. reflexivity. Qed.

Lemma splitlines_from_char (cur : string) (c : ascii) (s : string) :
  is_cr c = false -> is_linebreak c = false ->
  splitlines_from cur (String c s) = splitlines_from (cur ++ String c "") s.
Proof. intros H1 H2. cbn [splitlines_from]. rewrite H1, H2. reflexivity. Qed.

Lemma splitlines_from_lf (cur s : string) :
  splitlines_from cur (String "010"%char s) = cur :: splitlines_from "" s.
Proof. apply splitlines_from_break; reflexivity. Qed.

Lemma is_cr_linebreak (c : ascii) : is_cr c = true -> is_linebreak c = true.
Proof.
  unfold is_cr, is_linebreak. intros H. rewrite H.
  rewrite !orb_true_r. reflexivity.
Qed.

Lemma splitlines_from_universal (n : nat) :
  forall s cur, String.length s <= n ->
    splitlines_from cur (universal_newlines s) = splitlines_from cur s.
Proof.
  induction n as [|n IH]; intros s cur Hn.
  - destruct s; [reflexivity | simpl in Hn; lia].
  - destruct s as [|c s]; [reflexivity|].
    simpl in Hn. cbn [universal_newlines].
    destruct (is_cr c) eqn:Hc.
    + destruct s as [|c2 s].
      * rewrite splitlines_from_lf, splitlines_from_cr_end by exact Hc.
        reflexivity.
      * destruct (is_lf c2) eqn:Hl.
        -- rewrite splitlines_from_lf, splitlines_from_cr_lf by assumption.
           rewrite IH by (simpl in Hn; lia). reflexivity.
        -- rewrite splitlines_from_lf, splitlines_from_cr by assumption.
           rewrite IH by (simpl in Hn |- *; lia). reflexivity.
    + destruct (is_linebreak c) eqn:Hb.
      * rewrite !splitlines_from_break by assumption.
        rewrite IH by lia. reflexivity.
      * rewrite !splitlines_from_char by assumption.
        apply IH. lia.
Qed.

(** X9.  The translation of line endings made when the target is read
    does not change the lines handed to the hunk application: a file
    with CR LF or CR line endings is split into the same lines as the
    text that was read. *)
Theorem read_translation_keeps_lines (c : string) :
  splitlines (universal_newlines c) = splitlines c.
Proof.
  unfold splitlines. apply (splitlines_from_universal (String.length c)).
  apply le_n.
Qed.

Lemma splitlines_from_line (l cur s : string) :
  has_linebreak l = false ->
  splitlines_from cur (l ++ s) = splitlines_from (cur ++ l) s.
Proof.
  revert cur. induction l as [|c l IH]; intros cur H.
  - simpl. replace (cur ++ "")%string with cur; [reflexivity|].
    clear. induction cur as [|x cur IH]; simpl; congruence.
  - cbn [has_linebreak] in H. apply orb_false_iff in H. destruct H as [Hc Hl].
    change (String c l ++ s)%string with (String c (l ++ s)).
    rewrite splitlines_from_char; [|
      destruct (is_cr c) eqn:E; [apply is_cr_linebreak in E; congruence
                                | reflexivity] | exact Hc].
    rewrite IH by exact Hl. rewrite string_app_assoc. reflexivity.
Qed.

Lemma splitlines_join_lines (l : string) (ls : list string) :
  Forall (fun x => has_linebreak x = false) (l :: ls) ->
  splitlines (join_lines (l :: ls)) = l :: ls.
Proof.
  unfold splitlines, join_lines. revert l.
  induction ls as [|l' ls IH]; intros l H; inversion H as [|? ? Hl Hls]; subst.
  - simpl String.concat. rewrite splitlines_from_line by exact Hl.
    unfold NL. rewrite splitlines_from_lf. reflexivity.
  - change (String.concat NL (l :: l' :: ls))
      with (l ++ NL ++ String.concat NL (l' :: ls))%string.
    rewrite !string_app_assoc.
    rewrite splitlines_from_line by exact Hl.
    unfold NL at 1.
    change (String "010"%char "" ++ String.concat NL (l' :: ls) ++ NL)%string
      with (String "010"%char (String.concat NL (l' :: ls) ++ NL)).
    rewrite splitlines_from_lf. simpl app.
    rewrite (IH l' Hls). reflexivity.
Qed.

(** X10.  The text the applier writes is read back as the lines that
    were written: when there is at least one line and no line holds a
    line break, splitting the text read from ["\n".join(lines) + "\n"]
    gives the lines again, so that a later patch of the same file sees
    what the earlier one produced. *)
Theorem written_lines_read_back (ls : list string) :
  ls <> [] ->
  Forall (fun l => has_linebreak l = false) ls ->
  splitlines (universal_newlines (join_lines ls)) = ls.
Proof.
  intros Hne H. destruct ls as [|l ls]; [congruence|].
  unfold splitlines.
  rewrite (splitlines_from_universal (String.length (join_lines (l :: ls))))
    by apply le_n.
  apply splitlines_join_lines. exact H.
Qed.

(** X10 at two lines, one of them empty. *)
Lemma written_lines_read_back_witness :
  splitlines (universal_newlines (join_lines ["print('hello world')"; ""]))
  = ["print('hello world')"; ""].
Proof.
  apply (written_lines_read_back ["print('hello world')"; ""]).
  - discriminate.
  - repeat constructor.
Defined.

(** *** The prefixes [a/] and [b/] *)

Lemma rel_path_strips (h : Header) (pre r : string) :
  pre = "a/" \/ pre = "b/" ->
  select_path h = Some (pre ++ r)%string ->
  rel_path h = Some r.
Proof.
  intros Hpre Hs. unfold rel_path. rewrite Hs.
  assert (Hnil : String.prefix "" r = true) by (destruct r; reflexivity).
  destruct Hpre as [-> | ->]; simpl; rewrite Hnil; simpl;
    rewrite Nat.sub_0_r, substring_all; reflexivity.
Qed.

(** X11.  One leading [a/] or [b/] is taken off the path of the header,
    whatever follows it and whether or not the diff comes from git: the
    target is the base joined with the rest.  A file in a directory
    named [a] or [b] of the base is therefore not the target of a patch
    that names it by its path. *)
Theorem git_prefix_is_stripped (base : path) (h : Header) (r : string) :
  select_path h = Some ("a/" ++ r)%string \/
  select_path h = Some ("b/" ++ r)%string ->
  target_of base h = Some (resolve base r).
Proof.
  intros [H | H]; unfold target_of;
    [rewrite (rel_path_strips h "a/" r) | rewrite (rel_path_strips h "b/" r)];
    auto.
Qed.

(** X11 at the header of a file [a/x.py] on both sides: the target is
    [x.py] in the base. *)
Lemma git_prefix_is_stripped_witness :
  target_of Scenario.tmp (mkHeader (Some "a/x.py") (Some "a/x.py"))
  = Some (resolve Scenario.tmp "x.py").
Proof.
  apply (git_prefix_is_stripped Scenario.tmp
           (mkHeader (Some "a/x.py") (Some "a/x.py")) "x.py").
  left. reflexivity.
Defined.

(** *** A patch whose target is missing *)

(** X12.  When the first patch of a diff does not create its target and
    the target does not exist (and is not a directory the call makes
    for the backups), the call returns [False] at once: the later
    patches are not looked at, nothing is written or recorded, and all
    the call leaves is the backup directory. *)
Theorem missing_first_target_fails
    (apply_diff : Patch -> list string -> option (list string))
    (base : path) (p : Patch) (ps : list Patch) (h : Header) (t : path)
    (f : filesystem) :
  header p = Some h ->
  is_new h = false ->
  target_of base h = Some t ->
  exists_at f t = false ->
  existsb (path_eqb t) (prefixes (backup_dir base)) = false ->
  existsb (is_file f) (prefixes (backup_dir base)) = false ->
  call apply_diff base (p :: ps) f
  = (Ok false,
     mkState (mkdirs (prefixes (backup_dir base)) f) []
             [EMkdir (backup_dir base); EStat t]).
Proof.
  intros Hh Hnew Ht Hex Hnb Hbd. rewrite call_cons.
  rewrite mkdir_parents_run by exact Hbd.
  unfold try_except. cbn [apply_loop]. unfold patch_step.
  rewrite Hh, Ht, Hnew. unfold bind at 1 2 3.
  rewrite path_exists_run. simpl.
  assert (E : exists_at (mkdirs (prefixes (backup_dir base)) f) t = false).
  { unfold exists_at in *.
    rewrite node_at_mkdirs_notin by (apply existsb_path_eqb; exact Hnb).
    exact Hex. }
  rewrite E. reflexivity.
Qed.

(** X12 at a diff whose first patch names a file that is not there,
    before the patch of [hello.py]. *)
Lemma missing_first_target_fails_witness :
  call spec_apply_diff Scenario.tmp
       (Scenario.modify "missing.py" "x" "y" :: Scenario.hello_diff)
       Scenario.hello_fs
  = (Ok false,
     mkState (mkdirs (prefixes (backup_dir Scenario.tmp)) Scenario.hello_fs) []
             [EMkdir (backup_dir Scenario.tmp);
              EStat (Scenario.tmp ++ ["missing.py"])]).
Proof.
  apply (missing_first_target_fails spec_apply_diff Scenario.tmp
           (Scenario.modify "missing.py" "x" "y") Scenario.hello_diff
           (mkHeader (Some "missing.py") (Some "missing.py"))
           (Scenario.tmp ++ ["missing.py"]) Scenario.hello_fs);
    reflexivity.
Defined.

(** *** A diff without targets *)

Lemma targets_nil_cons (base : path) (p : Patch) (ps : list Patch) :
  targets base (p :: ps) = [] ->
  patch_target base p = None /\ targets base ps = [].
Proof.
  unfold targets. simpl. destruct (patch_target base p); [discriminate|].
  auto.
Qed.

Lemma apply_loop_no_targets
    (apply_diff : Patch -> list string -> option (list string))
    (base : path) (patches : list Patch) (st : state) :
  targets base patches = [] ->
  apply_loop apply_diff base patches st = (Ok true, st).
Proof.
  induction patches as [|p ps IH]; intros H; [reflexivity|].
  apply targets_nil_cons in H. destruct H as [Hp Hps].
  cbn [apply_loop].
  erewrite bind_ok by (apply patch_step_skips; exact Hp).
  apply IH. exact Hps.
Qed.

(** X17.  A diff with patches of which none has a target (no header, or
    a header whose selected side is absent, empty or [/dev/null]) is
    reported as applied: the call returns [True] although it has read
    and written no file and recorded nothing; all it leaves is the
    backup directory.  (The diff without any patch returns [False].) *)
Theorem targetless_diff_succeeds
    (apply_diff : Patch -> list string -> option (list string))
    (base : path) (patches : list Patch) (f : filesystem) :
  patches <> [] ->
  targets base patches = [] ->
  existsb (is_file f) (prefixes (backup_dir base)) = false ->
  call apply_diff base patches f
  = (Ok true,
     mkState (mkdirs (prefixes (backup_dir base)) f) []
             [EMkdir (backup_dir base)]).
Proof.
  intros Hne Ht Hbd. destruct patches as [|p ps]; [congruence|].
  rewrite call_cons. rewrite mkdir_parents_run by exact Hbd.
  unfold try_except. rewrite apply_loop_no_targets by exact Ht.
  reflexivity.
Qed.

(** X17 at a patch without header followed by the patch with the
    sentinel on both sides. *)
Lemma targetless_diff_succeeds_witness :
  call spec_apply_diff Scenario.tmp
       [mkPatch None []; Scenario.null_patch] Scenario.hello_fs
  = (Ok true,
     mkState (mkdirs (prefixes (backup_dir Scenario.tmp)) Scenario.hello_fs) []
             [EMkdir (backup_dir Scenario.tmp)]).
Proof.
  apply (targetless_diff_succeeds spec_apply_diff Scenario.tmp
           [mkPatch None []; Scenario.null_patch] Scenario.hello_fs).
  - discriminate.
  - reflexivity.
  - reflexivity.
Defined.

(** *** Modification of any file *)

Lemma backup_file_not_prefix (base t : path) :
  ~ In (backup_file base t) (prefixes (backup_dir base)).
Proof.
  rewrite prefixes_spec. intros [_ [s Hs]].
  unfold backup_file in Hs. rewrite <- app_assoc in Hs.
  apply (f_equal (@length string)) in Hs.
  rewrite !length_app in Hs. simpl in Hs. lia.
Qed.

(** In a well-formed file system nothing but directories stands above a
    file. *)
Lemma wf_no_file_above (f : filesystem) (t : path) :
  wf f -> exists_at f t = true ->
  forall q, In q (prefixes (parent t)) -> is_dir f q = true.
Proof.
  intros Hwf Hex q Hq. apply prefixes_spec in Hq. destruct Hq as [Hq [s Hs]].
  destruct (path_snoc_cases t) as [E | (p & x & E)].
  - subst t. simpl in Hs. symmetry in Hs. apply app_eq_nil in Hs.
    destruct Hs; congruence.
  - subst t. rewrite parent_snoc in Hs. subst p.
    apply (wf_ancestors f q (s ++ [x]) Hwf).
    + destruct s; discriminate.
    + unfold exists_at in Hex. rewrite node_at_nonroot in Hex
        by (rewrite <- app_assoc; destruct q; [congruence | discriminate]).
      rewrite <- app_assoc in Hex. destruct (f (q ++ s ++ [x])); congruence.
Qed.

(** The file system a modifying call leaves. *)
Lemma modify_call_run
    (apply_diff : Patch -> list string -> option (list string))
    (base : path) (p : Patch) (h : Header) (r c : string)
    (out : list string) (f : filesystem) :
  wf f ->
  header p = Some h ->
  is_new h = false ->
  rel_path h = Some r ->
  file_at f (resolve base r) = Some c ->
  existsb (is_file f) (prefixes (backup_dir base)) = false ->
  is_dir f (backup_file base (resolve base r)) = false ->
  apply_diff p (splitlines c) = Some out ->
  exists bs l,
    call apply_diff base [p] f
    = (Ok true,
       mkState (upd (resolve base r) (Some (File (join_lines out)))
                  (mkdirs (prefixes (parent (resolve base r)))
                     (upd (backup_file base (resolve base r)) (Some (File c))
                        (mkdirs (prefixes (backup_dir base)) f))))
               bs l).
Proof.
  intros Hwf Hh Hn Hr Hfile Hbd Hbf Hdiff.
  set (t := resolve base r) in *.
  assert (Hnode : node_at f t = Some (File c)).
  { unfold file_at in Hfile. destruct (node_at f t) as [[c'|]|]; congruence. }
  assert (Hex : exists_at f t = true)
    by (unfold exists_at; rewrite Hnode; reflexivity).
  pose proof (wf_no_file_above f t Hwf Hex) as Habove.
  assert (Hbd' := Hbd). rewrite existsb_false in Hbd'.
  assert (Hnin : ~ In t (prefixes (backup_dir base))).
  { intros Hin. specialize (Hbd' t Hin). unfold is_file in Hbd'.
    rewrite Hnode in Hbd'. discriminate. }
  assert (Hnp : ~ In (backup_file base t) (prefixes (parent t))).
  { intros Hin. apply Habove in Hin. congruence. }
  rewrite call_cons.
  rewrite mkdir_parents_run by exact Hbd.
  unfold try_except. simpl apply_loop.
  erewrite bind_ok.
  2: { apply (patch_step_modify apply_diff base p h r c out);
       try assumption; fold t; simpl fs.
       - rewrite node_at_mkdirs_notin by exact Hnin. exact Hnode.
       - unfold is_dir. rewrite node_at_mkdirs_notin; [exact Hbf|].
         apply backup_file_not_prefix.
       - unfold is_dir. rewrite node_at_mkdirs_in; [reflexivity|].
         apply prefixes_self. unfold backup_dir. destruct base; discriminate.
       - apply no_file_mkdirs. apply existsb_false. intros q Hq.
         apply Habove in Hq. unfold is_dir, is_file in *.
         destruct (node_at f q) as [[c'|]|]; congruence.
       - apply existsb_false. intros q Hq. apply path_eqb_neq.
         intros E. subst q. exact (Hnp Hq).
       - unfold splitlines in *.
         rewrite (splitlines_from_universal (String.length c)) by apply le_n.
         exact Hdiff. }
  fold t. simpl. eauto.
Qed.

(** What that file system holds, and that it is fit for a further
    call. *)
Lemma modified_fs_ready (base t : path) (c new : string) (f : filesystem) :
  wf f ->
  file_at f t = Some c ->
  existsb (is_file f) (prefixes (backup_dir base)) = false ->
  is_dir f (backup_file base t) = false ->
  wf (upd t (Some (File new))
        (mkdirs (prefixes (parent t))
           (upd (backup_file base t) (Some (File c))
              (mkdirs (prefixes (backup_dir base)) f)))) /\
  file_at (upd t (Some (File new))
             (mkdirs (prefixes (parent t))
                (upd (backup_file base t) (Some (File c))
                   (mkdirs (prefixes (backup_dir base)) f)))) t
  = Some new /\
  file_at (upd t (Some (File new))
             (mkdirs (prefixes (parent t))
                (upd (backup_file base t) (Some (File c))
                   (mkdirs (prefixes (backup_dir base)) f))))
          (backup_file base t)
  = Some c /\
  existsb (is_file (upd t (Some (File new))
                      (mkdirs (prefixes (parent t))
                         (upd (backup_file base t) (Some (File c))
                            (mkdirs (prefixes (backup_dir base)) f)))))
          (prefixes (backup_dir base)) = false.
Proof.
  intros Hwf Hfile Hbd Hbf.
  set (bf := backup_file base t).
  set (g1 := mkdirs (prefixes (backup_dir base)) f).
  set (g2 := upd bf (Some (File c)) g1).
  set (g3 := mkdirs (prefixes (parent t)) g2).
  assert (Hnode : node_at f t = Some (File c)).
  { unfold file_at in Hfile. destruct (node_at f t) as [[c'|]|]; congruence. }
  assert (Ht : t <> []) by (intros E; rewrite E in Hnode; discriminate).
  assert (Hex : exists_at f t = true)
    by (unfold exists_at; rewrite Hnode; reflexivity).
  pose proof (wf_no_file_above f t Hwf Hex) as Habove.
  assert (Hbd' := Hbd). rewrite existsb_false in Hbd'.
  assert (Hnin : ~ In t (prefixes (backup_dir base))).
  { intros Hin. specialize (Hbd' t Hin). unfold is_file in Hbd'.
    rewrite Hnode in Hbd'. discriminate. }
  assert (Hnp : ~ In bf (prefixes (parent t))).
  { intros Hin. apply Habove in Hin. unfold bf in Hin. congruence. }
  assert (Hne : t <> bf) by apply target_not_backup_file.
  assert (Hbfp : ~ In bf (prefixes (backup_dir base)))
    by apply backup_file_not_prefix.
  assert (W1 : wf g1) by (apply wf_mkdirs; assumption).
  assert (D1 : is_dir g1 bf = false).
  { unfold g1, is_dir. rewrite node_at_mkdirs_notin by exact Hbfp. exact Hbf. }
  assert (P1 : is_dir g1 (parent bf) = true).
  { unfold bf, backup_file. rewrite parent_snoc. unfold g1, is_dir.
    rewrite node_at_mkdirs_in; [reflexivity|].
    apply prefixes_self. unfold backup_dir. destruct base; discriminate. }
  assert (W2 : wf g2) by (apply wf_upd_file; assumption).
  assert (N2 : existsb (is_file g2) (prefixes (parent t)) = false).
  { apply existsb_false. intros q Hq. unfold g2.
    rewrite is_file_upd_other by (intros ->; exact (Hnp Hq)).
    unfold g1. destruct (is_file (mkdirs (prefixes (backup_dir base)) f) q) eqn:E;
      [|reflexivity].
    apply is_file_mkdirs in E. apply Habove in Hq.
    rewrite (is_file_not_dir _ _ E) in Hq. discriminate. }
  assert (W3 : wf g3) by (apply wf_mkdirs; assumption).
  assert (T3 : node_at g3 t = Some (File c)).
  { unfold g3. rewrite node_at_mkdirs_notin by apply not_in_prefixes_parent.
    unfold g2. rewrite node_at_upd_other by exact Hne.
    unfold g1. rewrite node_at_mkdirs_notin by exact Hnin. exact Hnode. }
  split; [|split; [|split]].
  - apply wf_upd_file; [exact W3 | |].
    + unfold is_dir. rewrite T3. reflexivity.
    + apply is_dir_mkdirs_parent.
  - apply file_at_upd_same. exact Ht.
  - rewrite file_at_upd_other by (intros E; symmetry in E; exact (Hne E)).
    unfold file_at, g3. rewrite node_at_mkdirs_notin by exact Hnp.
    unfold g2. rewrite node_at_upd_same by apply backup_file_not_nil.
    reflexivity.
  - apply existsb_false. intros q Hq.
    rewrite is_file_upd_other by (intros ->; exact (Hnin Hq)).
    destruct (is_file g3 q) eqn:E; [|reflexivity].
    unfold g3 in E. apply is_file_mkdirs in E. unfold g2 in E.
    rewrite is_file_upd_other in E by (intros ->; exact (Hbfp Hq)).
    unfold g1, is_file in E. rewrite node_at_mkdirs_in in E by exact Hq.
    discriminate.
Qed.

(** X15.  A diff of one patch that does not create its target, on a
    well-formed file system in which the target is a regular file, the
    backup directory can be made and no directory stands in place of the
    backup artifact: when hunk application on the lines of the file
    gives lines, the call returns [True], the target holds those lines
    joined by newlines plus one newline, and the artifact holds the text
    the target had before, character for character. *)
Theorem modify_patch_rewrites_file
    (apply_diff : Patch -> list string -> option (list string))
    (base : path) (p : Patch) (h : Header) (r c : string)
    (out : list string) (f : filesystem) :
  wf f ->
  header p = Some h ->
  is_new h = false ->
  rel_path h = Some r ->
  file_at f (resolve base r) = Some c ->
  existsb (is_file f) (prefixes (backup_dir base)) = false ->
  is_dir f (backup_file base (resolve base r)) = false ->
  apply_diff p (splitlines c) = Some out ->
  fst (call apply_diff base [p] f) = Ok true /\
  file_at (fs (snd (call apply_diff base [p] f))) (resolve base r)
  = Some (join_lines out) /\
  file_at (fs (snd (call apply_diff base [p] f)))
          (backup_file base (resolve base r))
  = Some c.
Proof.
  intros Hwf Hh Hn Hr Hfile Hbd Hbf Hdiff.
  destruct (modify_call_run apply_diff base p h r c out f)
    as (bs & l & E); try assumption.
  destruct (modified_fs_ready base (resolve base r) c (join_lines out) f)
    as (_ & T & B & _); try assumption.
  rewrite E. cbn [fst snd fs]. auto.
Qed.

(** X15 on [test_apply_unified_diff_success]. *)
Lemma modify_patch_rewrites_file_witness :
  fst (call spec_apply_diff Scenario.tmp Scenario.hello_diff Scenario.hello_fs)
  = Ok true /\
  file_at (fs (snd (call spec_apply_diff Scenario.tmp Scenario.hello_diff
                         Scenario.hello_fs)))
          (resolve Scenario.tmp "hello.py")
  = Some (join_lines ["print('hello world')"]) /\
  file_at (fs (snd (call spec_apply_diff Scenario.tmp Scenario.hello_diff
                         Scenario.hello_fs)))
          (backup_file Scenario.tmp (resolve Scenario.tmp "hello.py"))
  = Some ("print('hello')" ++ NL)%string.
Proof.
  apply (modify_patch_rewrites_file spec_apply_diff Scenario.tmp
           (Scenario.modify "hello.py" "print('hello')" "print('hello world')")
           (mkHeader (Some "hello.py") (Some "hello.py")) "hello.py"
           ("print('hello')" ++ NL)%string ["print('hello world')"]
           Scenario.hello_fs); try reflexivity.
  apply wf_add_file; try reflexivity.
  apply wf_add_dir; try reflexivity.
  apply wf_empty_fs.
Defined.

(** *** Two calls on the same file *)

(** X21.  Two calls that modify the same file, one after the other,
    under the conditions of the single call: the second call returns
    [True] as well, the file holds the lines of the second patch, and
    the backup artifact holds the text the first call wrote; the text
    from before the first call is no longer kept. *)
Theorem second_call_overwrites_backup
    (apply_diff : Patch -> list string -> option (list string))
    (base : path) (p1 p2 : Patch) (h1 h2 : Header) (r c : string)
    (out1 out2 : list string) (f : filesystem) :
  wf f ->
  header p1 = Some h1 -> is_new h1 = false -> rel_path h1 = Some r ->
  header p2 = Some h2 -> is_new h2 = false -> rel_path h2 = Some r ->
  file_at f (resolve base r) = Some c ->
  existsb (is_file f) (prefixes (backup_dir base)) = false ->
  is_dir f (backup_file base (resolve base r)) = false ->
  apply_diff p1 (splitlines c) = Some out1 ->
  apply_diff p2 (splitlines (join_lines out1)) = Some out2 ->
  fst (call apply_diff base [p1] f) = Ok true /\
  fst (call apply_diff base [p2] (fs (snd (call apply_diff base [p1] f))))
  = Ok true /\
  file_at (fs (snd (call apply_diff base [p2]
                         (fs (snd (call apply_diff base [p1] f))))))
          (resolve base r)
  = Some (join_lines out2) /\
  file_at (fs (snd (call apply_diff base [p2]
                         (fs (snd (call apply_diff base [p1] f))))))
          (backup_file base (resolve base r))
  = Some (join_lines out1).
Proof.
  intros Hwf Hh1 Hn1 Hr1 Hh2 Hn2 Hr2 Hfile Hbd Hbf Hd1 Hd2.
  destruct (modify_call_run apply_diff base p1 h1 r c out1 f)
    as (bs1 & l1 & E1); try assumption.
  destruct (modified_fs_ready base (resolve base r) c (join_lines out1) f)
    as (W1 & T1 & B1 & N1); try assumption.
  rewrite E1. cbn [fst snd fs].
  set (f1 := upd (resolve base r) (Some (File (join_lines out1))) _) in *.
  assert (D1 : is_dir f1 (backup_file base (resolve base r)) = false).
  { apply is_file_not_dir. apply (file_at_is_file _ _ _ B1). }
  destruct (modify_call_run apply_diff base p2 h2 r (join_lines out1) out2 f1)
    as (bs2 & l2 & E2); try assumption.
  destruct (modified_fs_ready base (resolve base r) (join_lines out1)
              (join_lines out2) f1)
    as (_ & T2 & B2 & _); try assumption.
  rewrite E2. cbn [fst snd fs]. auto.
Qed.

(** X21 on [hello.py], patched twice. *)
Lemma second_call_overwrites_backup_witness :
  fst (call spec_apply_diff Scenario.tmp Scenario.hello_diff Scenario.hello_fs)
  = Ok true /\
  fst (call spec_apply_diff Scenario.tmp
         [Scenario.modify "hello.py" "print('hello world')" "print('bye')"]
         (fs (snd (call spec_apply_diff Scenario.tmp Scenario.hello_diff
                        Scenario.hello_fs))))
  = Ok true /\
  file_at (fs (snd (call spec_apply_diff Scenario.tmp
                      [Scenario.modify "hello.py" "print('hello world')"
                                       "print('bye')"]
                      (fs (snd (call spec_apply_diff Scenario.tmp
                                     Scenario.hello_diff Scenario.hello_fs))))))
          (resolve Scenario.tmp "hello.py")
  = Some (join_lines ["print('bye')"]) /\
  file_at (fs (snd (call spec_apply_diff Scenario.tmp
                      [Scenario.modify "hello.py" "print('hello world')"
                                       "print('bye')"]
                      (fs (snd (call spec_apply_diff Scenario.tmp
                                     Scenario.hello_diff Scenario.hello_fs))))))
          (backup_file Scenario.tmp (resolve Scenario.tmp "hello.py"))
  = Some (join_lines ["print('hello world')"]).
Proof.
  apply (second_call_overwrites_backup spec_apply_diff Scenario.tmp
           (Scenario.modify "hello.py" "print('hello')" "print('hello world')")
           (Scenario.modify "hello.py" "print('hello world')" "print('bye')")
           (mkHeader (Some "hello.py") (Some "hello.py"))
           (mkHeader (Some "hello.py") (Some "hello.py"))
           "hello.py" ("print('hello')" ++ NL)%string
           ["print('hello world')"] ["print('bye')"] Scenario.hello_fs);
    try reflexivity.
  apply wf_add_file; try reflexivity.
  apply wf_add_dir; try reflexivity.
  apply wf_empty_fs.
Defined.

(** *** Creation through a diff and [apply_whole_file] *)

(** X18.  A diff of one patch that creates a file which is not there
    does to the file system what [apply_whole_file] does with the
    patched lines joined by newlines plus one newline: both return
    [True], and apart from the directories made for the backups every
    path holds the same after the one as after the other. *)
Theorem create_patch_is_whole_file
    (apply_diff : Patch -> list string -> option (list string))
    (base : path) (p : Patch) (h : Header) (r : string)
    (out : list string) (f : filesystem) :
  header p = Some h ->
  old_path h = Some DEV_NULL ->
  rel_path h = Some r ->
  exists_at f (resolve base r) = false ->
  existsb (path_eqb (resolve base r)) (prefixes (backup_dir base)) = false ->
  existsb (is_file f) (prefixes (backup_dir base)) = false ->
  existsb (is_file f) (prefixes (parent (resolve base r))) = false ->
  apply_diff p [] = Some out ->
  fst (call apply_diff base [p] f) = Ok true /\
  fst (apply_whole_file (resolve base r) (join_lines out) (init f))
  = Ok true /\
  forall q, ~ In q (prefixes (backup_dir base)) ->
    fs (snd (call apply_diff base [p] f)) q
    = fs (snd (apply_whole_file (resolve base r) (join_lines out) (init f))) q.
Proof.
  intros Hh Ho Hr Hnew Hnp Hbd Hpar Hout.
  apply existsb_path_eqb in Hnp.
  set (t := resolve base r) in *.
  assert (Hd : is_dir f t = false).
  { unfold is_dir, exists_at in *. destruct (node_at f t); congruence. }
  rewrite call_cons.
  rewrite (mkdir_parents_run (backup_dir base) (init f) Hbd).
  unfold try_except. simpl apply_loop.
  erewrite bind_ok.
  2: { apply (patch_step_create apply_diff base p h r out);
         try assumption; simpl fs; fold t.
       - unfold exists_at in *. rewrite node_at_mkdirs_notin by exact Hnp.
         exact Hnew.
       - apply no_file_mkdirs. exact Hpar. }
  fold t. rewrite (apply_whole_file_run t (join_lines out) (init f) Hpar Hd).
  simpl. split; [reflexivity | split; [reflexivity|]].
  intros q Hq.
  destruct (list_eq_dec string_dec q t) as [-> | Hne].
  - rewrite !upd_same. reflexivity.
  - rewrite !upd_other by exact Hne.
    destruct (mkdirs_cases (prefixes (parent t)) f q) as [[Hin E] | [Hn E]];
      rewrite E.
    + apply mkdirs_in. exact Hin.
    + rewrite mkdirs_notin by exact Hn. apply mkdirs_notin. exact Hq.
Qed.

(** X18 on [test_apply_new_file]. *)
Lemma create_patch_is_whole_file_witness :
  fst (call spec_apply_diff Scenario.tmp Scenario.new_file_diff
            (add_dir Scenario.tmp empty_fs)) = Ok true /\
  fst (apply_whole_file (resolve Scenario.tmp "new_file.py")
         (join_lines ["print('new file')"])
         (init (add_dir Scenario.tmp empty_fs))) = Ok true /\
  forall q, ~ In q (prefixes (backup_dir Scenario.tmp)) ->
    fs (snd (call spec_apply_diff Scenario.tmp Scenario.new_file_diff
                  (add_dir Scenario.tmp empty_fs))) q
    = fs (snd (apply_whole_file (resolve Scenario.tmp "new_file.py")
                 (join_lines ["print('new file')"])
                 (init (add_dir Scenario.tmp empty_fs)))) q.
Proof.
  apply (create_patch_is_whole_file spec_apply_diff Scenario.tmp
           (Scenario.create "new_file.py" "print('new file')")
           (mkHeader (Some DEV_NULL) (Some "new_file.py"))
           "new_file.py" ["print('new file')"]
           (add_dir Scenario.tmp empty_fs));
    reflexivity.
Defined.

(** *** A guarded call returns *)

Section Returns.

Variable base : path.
Variable f0 : filesystem.
Variable ts : list path.

Hypothesis Hnames : NoDup (map name ts).
Hypothesis Hout : forall t, In t ts -> under (backup_dir base) t = false.

(** In a well-formed file system an entry that keeps its promise is
    restored without an exception. *)
Lemma rollback_entry_returns (t : path) (ob : option path)
    (rest : list (path * option path)) (cur : option path) (st : state) :
  restoring f0 base ts cur ((t, ob) :: rest) st ->
  wf (fs st) ->
  fst (rollback_entry (t, ob) st) = Ok tt.
Proof.
  intros (_ & _ & _ & Hall) Hwf.
  inversion Hall as [|? ? Hent _]; subst.
  unfold entry_faithful in Hent. simpl in Hent.
  unfold rollback_entry. destruct ob as [b|].
  - destruct Hent as (-> & (c & _ & Hcb) & Hfile).
    assert (Hsrc : node_at (fs st) (backup_file base t) = Some (File c)).
    { unfold file_at in Hcb.
      destruct (node_at (fs st) (backup_file base t)) as [[c'|]|]; congruence. }
    assert (Hnd : is_dir (fs st) t = false) by (apply is_file_not_dir; exact Hfile).
    assert (Hpar : is_dir (fs st) (parent t) = true).
    { destruct (path_snoc_cases t) as [E | (q & x & E)].
      - rewrite E in Hfile. discriminate.
      - subst t. rewrite parent_snoc. apply (Hwf q x).
        unfold is_file in Hfile.
        rewrite node_at_nonroot in Hfile by apply snoc_not_nil.
        destruct (fs st (q ++ [x])); [discriminate | discriminate]. }
    unfold bind. rewrite path_exists_run.
    unfold exists_at. rewrite Hsrc.
    unfold shutil_move, bind, emit, get_fs, put_fs, raise, ret. simpl.
    rewrite Hnd. simpl. rewrite Hsrc, Hpar. reflexivity.
  - destruct Hent as [_ Hor].
    unfold bind. rewrite path_exists_run.
    destruct (exists_at (fs st) t) eqn:Eex; [|reflexivity].
    assert (Hfile : is_file (fs st) t = true).
    { destruct Hor as [H | [_ H]]; [exact H|].
      unfold is_file, is_dir, exists_at in *.
      destruct (node_at (fs st) t) as [[c|]|]; congruence. }
    unfold unlink, bind, emit, get_fs, put_fs, raise. simpl.
    unfold is_file in Hfile.
    destruct (node_at (fs st) t) as [[c|]|]; try discriminate. reflexivity.
Qed.

Lemma framed_rollback_entry (entry : path * option path) :
  In (fst entry) ts ->
  (forall b, snd entry = Some b -> under (backup_dir base) b = true) ->
  keeps (framed f0 base ts) (rollback_entry entry).
Proof.
  destruct entry as [t [b|]]; simpl; intros Ht Hb.
  - apply keeps_bind; [apply framed_path_exists|].
    intros [|]; [|apply keeps_ret].
    apply framed_shutil_move; [apply Hb; reflexivity | exact Ht].
  - apply keeps_bind; [apply framed_path_exists|].
    intros [|]; [|apply keeps_ret].
    apply framed_unlink. exact Ht.
Qed.

Lemma rollback_loop_returns (bs : list (path * option path))
    (cur : option path) :
  forall st,
  restoring f0 base ts cur bs st -> framed f0 base ts st ->
  fst (rollback_loop bs st) = Ok tt.
Proof.
  induction bs as [|[t ob] bs IH]; intros st Hr Hf; [reflexivity|].
  rewrite rollback_loop_cons.
  pose proof (rollback_entry_returns t ob bs cur st Hr (proj1 Hf)) as Hok.
  pose proof (restoring_entry base f0 ts Hnames Hout t ob bs cur st Hr) as Hr1.
  assert (Hf1 : framed f0 base ts (snd (rollback_entry (t, ob) st))).
  { apply framed_rollback_entry; [| |exact Hf].
    - destruct Hr as (_ & Hincl & _). apply Hincl. left. reflexivity.
    - destruct Hr as (_ & _ & _ & Hall).
      inversion Hall as [|? ? Hent _]; subst.
      unfold entry_faithful in Hent. simpl in *.
      intros b E. rewrite E in Hent. destruct Hent as (-> & _).
      apply backup_file_under_dir. }
  destruct (rollback_entry (t, ob) st) as [[[]|e] st1];
    simpl in Hok, Hr1, Hf1; [|discriminate].
  apply IH; [apply Hr1; reflexivity | exact Hf1].
Qed.

End Returns.

(** X19.  The conditions under which a call keeps its signature.  In a
    well-formed file system in which the backup directory can be made,
    when the targets of the diff have distinct final components, none
    lies in the backup directory, no directory stands in place of a
    backup artifact and every patch that does not create its target
    finds it, the call returns [True] or [False]: no exception escapes,
    neither from the patches nor from the rollback. *)
Theorem guarded_call_returns
    (apply_diff : Patch -> list string -> option (list string))
    (base : path) (patches : list Patch) (f : filesystem) :
  wf f ->
  existsb (is_file f) (prefixes (backup_dir base)) = false ->
  NoDup (map name (targets base patches)) ->
  (forall t, In t (targets base patches) ->
             under (backup_dir base) t = false) ->
  (forall t, In t (targets base patches) ->
             is_dir f (backup_file base t) = false) ->
  targets_present base patches f ->
  fst (call apply_diff base patches f) = Ok true \/
  fst (call apply_diff base patches f) = Ok false.
Proof.
  intros Hwf Hbd Hnames Hout Hslots Hpres.
  destruct patches as [|p ps]; [rewrite call_nil; auto|].
  rewrite call_cons.
  remember (p :: ps) as patches eqn:Eps. clear Eps p ps.
  set (ts := targets base patches) in *.
  assert (F0 : framed f base ts (init f)).
  { repeat split; simpl; auto. }
  pose proof (framed_mkdir_parents base f ts (backup_dir base) (init f) F0)
    as F1.
  rewrite (mkdir_parents_run (backup_dir base) (init f) Hbd) in *.
  set (st1 := mkState (mkdirs (prefixes (backup_dir base)) (fs (init f)))
                      (backups (init f))
                      (log (init f) ++ [EMkdir (backup_dir base)])) in *.
  change (framed f base ts st1) in F1.
  assert (H1 : faithful f base ts None [] st1).
  { unfold faithful. simpl.
    refine (conj eq_refl (conj (NoDup_nil _) (conj _ (conj _ (conj _ (conj _ _)))))).
    - intros x [].
    - apply grows_mkdirs.
    - intros t _ _. apply file_at_mkdirs_eq. exact Hbd.
    - intros t Ht. unfold is_dir.
      rewrite node_at_mkdirs_notin; [apply Hslots; exact Ht|].
      apply backup_file_not_prefix.
    - constructor. }
  pose proof (faithful_apply_loop apply_diff base f ts Hnames Hout patches []
                (NoDup_map_inv name ts Hnames) (fun x Hx => Hx) Hpres st1 H1)
    as H2.
  pose proof (framed_apply_loop apply_diff base f ts patches
                (fun t Ht => Ht) st1 F1) as F2.
  unfold try_except.
  destruct (apply_loop apply_diff base patches st1) as [[b|e] st2];
    simpl in H2, F2.
  - subst b. auto.
  - destruct H2 as (cur & done' & H2).
    apply (faithful_restoring base f ts) in H2.
    pose proof (rollback_loop_returns base f ts Hnames Hout (backups st2) cur
                  st2 H2 F2) as H3.
    unfold rollback, bind, get_backups.
    destruct (rollback_loop (backups st2) st2) as [[[]|x] st3]; simpl in *;
      [auto | discriminate].
Qed.

(** X19 on the two files of [test_apply_unified_diff_rollback], one
    patch for each. *)
Lemma guarded_call_returns_witness :
  fst (call spec_apply_diff Scenario.tmp Scenario.two_diff Scenario.two_fs)
  = Ok true \/
  fst (call spec_apply_diff Scenario.tmp Scenario.two_diff Scenario.two_fs)
  = Ok false.
Proof.
  apply (guarded_call_returns spec_apply_diff Scenario.tmp Scenario.two_diff
           Scenario.two_fs).
  - apply wf_add_file; try reflexivity.
    apply wf_add_file; try reflexivity.
    apply wf_add_dir; try reflexivity.
    apply wf_empty_fs.
  - reflexivity.
  - simpl. repeat constructor; simpl; intuition discriminate.
  - intros t [<- | [<- | []]]; reflexivity.
  - intros t [<- | [<- | []]]; reflexivity.
  - intros p h t [<- | [<- | []]] Eh Et _;
      inversion Eh; subst h; inversion Et; subst t; reflexivity.
Defined.

(** *** A hunk that does not apply *)

Lemma shutil_move_run (src dst : path) (c : string) (st : state) :
  node_at (fs st) src = Some (File c) ->
  is_dir (fs st) dst = false ->
  is_dir (fs st) (parent dst) = true ->
  shutil_move src dst st
  = (Ok tt, mkState (upd dst (Some (File c)) (upd src None (fs st)))
                    (backups st) (log st ++ [EMove src dst])).
Proof.
  intros Hs Hd Hp. run_prim. rewrite Hd. simpl. rewrite Hs, Hp. reflexivity.
Qed.

(** The loop body on a patch whose hunks do not apply to a file which
    is there: the backup is made and recorded, then the failure is
    raised. *)
Lemma patch_step_hunk_failure
    (apply_diff : Patch -> list string -> option (list string))
    (base : path) (p : Patch) (h : Header) (r c : string) (st : state) :
  header p = Some h ->
  is_new h = false ->
  rel_path h = Some r ->
  node_at (fs st) (resolve base r) = Some (File c) ->
  is_dir (fs st) (backup_file base (resolve base r)) = false ->
  is_dir (fs st) (backup_dir base) = true ->
  apply_diff p (splitlines (universal_newlines c)) = None ->
  exists l,
    patch_step apply_diff base p st
    = (Raise PatchFailure,
       mkState (upd (backup_file base (resolve base r)) (Some (File c)) (fs st))
               (backups st
                ++ [(resolve base r, Some (backup_file base (resolve base r)))])
               l).
Proof.
  intros Hh Hn Hr Hfile Hbf Hbd Hout.
  set (t := resolve base r) in *.
  set (bf := backup_file base t) in *.
  assert (Hex : exists_at (fs st) t = true)
    by (unfold exists_at; rewrite Hfile; reflexivity).
  assert (Hne : t <> bf) by apply target_not_backup_file.
  assert (Hfile' : node_at (upd bf (Some (File c)) (fs st)) t = Some (File c))
    by (rewrite node_at_upd_other by exact Hne; exact Hfile).
  unfold patch_step. rewrite Hh. unfold target_of. rewrite Hr.
  unfold option_map. fold t. rewrite Hn.
  erewrite bind_ok.
  2: { erewrite bind_ok by apply path_exists_run. reflexivity. }
  rewrite Hex. cbn [negb]. cbv beta iota.
  erewrite bind_ok by apply path_exists_run. cbv beta iota.
  simpl fs. rewrite Hex.
  erewrite bind_ok.
  2: { erewrite bind_ok.
       2: { fold bf. apply (copy2_run t bf c); simpl fs; auto.
            unfold bf, backup_file. rewrite parent_snoc. exact Hbd. }
       reflexivity. }
  cbv beta iota.
  erewrite bind_ok by apply path_exists_run. cbv beta iota. simpl fs.
  assert (Hex' : exists_at (upd bf (Some (File c)) (fs st)) t = true)
    by (unfold exists_at; rewrite Hfile'; reflexivity).
  rewrite Hex'.
  erewrite bind_ok by (apply (read_text_run t c); exact Hfile').
  cbv beta iota. rewrite Hout. unfold raise. simpl. eauto.
Qed.

(** X23.  When the hunks of the first patch of a diff do not apply to
    its target, a regular file of a well-formed file system in which the
    backup directory can be made, the call returns [False] and the
    later patches are not looked at; the target holds the text it had,
    the backup artifact made for it is gone again, and apart from it and
    the directories made for the backups every path holds what it
    held. *)
Theorem failed_hunk_restores_file
    (apply_diff : Patch -> list string -> option (list string))
    (base : path) (p : Patch) (ps : list Patch) (h : Header) (r c : string)
    (f : filesystem) :
  wf f ->
  header p = Some h ->
  is_new h = false ->
  rel_path h = Some r ->
  file_at f (resolve base r) = Some c ->
  existsb (is_file f) (prefixes (backup_dir base)) = false ->
  is_dir f (backup_file base (resolve base r)) = false ->
  apply_diff p (splitlines c) = None ->
  fst (call apply_diff base (p :: ps) f) = Ok false /\
  file_at (fs (snd (call apply_diff base (p :: ps) f))) (resolve base r)
  = Some c /\
  exists_at (fs (snd (call apply_diff base (p :: ps) f)))
            (backup_file base (resolve base r)) = false /\
  forall q, q <> backup_file base (resolve base r) ->
            ~ In q (prefixes (backup_dir base)) ->
            fs (snd (call apply_diff base (p :: ps) f)) q = f q.
Proof.
  intros Hwf Hh Hn Hr Hfile Hbd Hbf Hdiff.
  set (t := resolve base r) in *.
  set (bf := backup_file base t) in *.
  assert (Hnode : node_at f t = Some (File c)).
  { unfold file_at in Hfile. destruct (node_at f t) as [[c'|]|]; congruence. }
  assert (Ht : t <> []) by (intros E; rewrite E in Hnode; discriminate).
  assert (Hex : exists_at f t = true)
    by (unfold exists_at; rewrite Hnode; reflexivity).
  assert (Hbd' := Hbd). rewrite existsb_false in Hbd'.
  assert (Hnin : ~ In t (prefixes (backup_dir base))).
  { intros Hin. specialize (Hbd' t Hin). unfold is_file in Hbd'.
    rewrite Hnode in Hbd'. discriminate. }
  assert (Hne : t <> bf) by apply target_not_backup_file.
  assert (Hbfn : bf <> []) by apply backup_file_not_nil.
  set (g1 := mkdirs (prefixes (backup_dir base)) f).
  assert (W1 : wf g1) by (apply wf_mkdirs; assumption).
  assert (N1 : node_at g1 t = Some (File c)).
  { unfold g1. rewrite node_at_mkdirs_notin by exact Hnin. exact Hnode. }
  assert (Hpar : is_dir g1 (parent t) = true).
  { destruct (path_snoc_cases t) as [E | (q & x & E)]; [congruence|].
    rewrite E, parent_snoc. apply (W1 q x).
    rewrite E in N1. rewrite node_at_nonroot in N1 by apply snoc_not_nil.
    congruence. }
  assert (Hparb : is_dir (upd bf (Some (File c)) g1) (parent t) = true).
  { rewrite is_dir_upd_other; [exact Hpar|].
    intros Eq.
    assert (Hin : In bf (prefixes (parent t)))
      by (rewrite Eq; apply prefixes_self; exact Hbfn).
    apply (wf_no_file_above f t Hwf Hex) in Hin. congruence. }
  destruct (patch_step_hunk_failure apply_diff base p h r c
              (mkState g1 [] ([] ++ [EMkdir (backup_dir base)])))
    as (l & E); try assumption.
  { simpl fs. unfold is_dir, g1.
    rewrite node_at_mkdirs_notin; [exact Hbf | apply backup_file_not_prefix]. }
  { simpl fs. unfold is_dir, g1. rewrite node_at_mkdirs_in; [reflexivity|].
    apply prefixes_self. unfold backup_dir. destruct base; discriminate. }
  { unfold splitlines in *.
    rewrite (splitlines_from_universal (String.length c)) by apply le_n.
    exact Hdiff. }
  fold t bf in E. simpl fs in E. simpl backups in E.
  assert (Ecall : exists l',
            call apply_diff base (p :: ps) f
            = (Ok false,
               mkState (upd t (Some (File c))
                          (upd bf None (upd bf (Some (File c)) g1)))
                       [(t, Some bf)] l')).
  { eexists. rewrite call_cons.
    rewrite mkdir_parents_run by exact Hbd.
    change (mkState (mkdirs (prefixes (backup_dir base)) (fs (init f)))
                    (backups (init f))
                    (log (init f) ++ [EMkdir (backup_dir base)]))
      with (mkState g1 [] ([] ++ [EMkdir (backup_dir base)])).
    unfold try_except. cbn [apply_loop]. unfold bind at 1. rewrite E.
    unfold rollback. unfold bind at 1. unfold get_backups. cbn [backups app].
    unfold bind at 1. rewrite rollback_loop_cons. unfold rollback_entry.
    erewrite bind_ok by apply path_exists_run. cbv beta iota.
    cbn [fs backups log].
    assert (Hexb : exists_at (upd bf (Some (File c)) g1) bf = true).
    { unfold exists_at. rewrite node_at_upd_same by exact Hbfn. reflexivity. }
    rewrite Hexb.
    rewrite (shutil_move_run bf t c).
    2: { simpl fs. apply node_at_upd_same. exact Hbfn. }
    2: { simpl fs. unfold is_dir. rewrite node_at_upd_other by exact Hne.
         rewrite N1. reflexivity. }
    2: { simpl fs. exact Hparb. }
    cbn [rollback_loop]. unfold ret. simpl. reflexivity. }
  destruct Ecall as (l' & Ecall). rewrite Ecall. cbn [fst snd fs].
  split; [reflexivity | split; [|split]].
  - apply file_at_upd_same. exact Ht.
  - unfold exists_at.
    rewrite node_at_upd_other by (intros Eq; symmetry in Eq; exact (Hne Eq)).
    rewrite node_at_nonroot by exact Hbfn. rewrite upd_same. reflexivity.
  - intros q Hq Hqn.
    destruct (list_eq_dec string_dec q t) as [-> | Hqt].
    + rewrite upd_same. rewrite node_at_nonroot in Hnode by exact Ht.
      symmetry. exact Hnode.
    + rewrite !upd_other by assumption.
      unfold g1. apply mkdirs_notin. exact Hqn.
Qed.

(** X23 on the two files of [test_apply_unified_diff_rollback], the
    failing patch first. *)
Lemma failed_hunk_restores_file_witness :
  fst (call spec_apply_diff Scenario.tmp
         (Scenario.modify "file2.py" "WRONG CONTENT" "modified 2"
          :: [Scenario.modify "file1.py" "content 1" "modified 1"])
         Scenario.two_fs) = Ok false /\
  file_at (fs (snd (call spec_apply_diff Scenario.tmp
                      (Scenario.modify "file2.py" "WRONG CONTENT" "modified 2"
                       :: [Scenario.modify "file1.py" "content 1" "modified 1"])
                      Scenario.two_fs)))
          (resolve Scenario.tmp "file2.py")
  = Some ("content 2" ++ NL)%string /\
  exists_at (fs (snd (call spec_apply_diff Scenario.tmp
                        (Scenario.modify "file2.py" "WRONG CONTENT" "modified 2"
                         :: [Scenario.modify "file1.py" "content 1"
                                             "modified 1"])
                        Scenario.two_fs)))
            (backup_file Scenario.tmp (resolve Scenario.tmp "file2.py"))
  = false /\
  forall q, q <> backup_file Scenario.tmp (resolve Scenario.tmp "file2.py") ->
            ~ In q (prefixes (backup_dir Scenario.tmp)) ->
            fs (snd (call spec_apply_diff Scenario.tmp
                       (Scenario.modify "file2.py" "WRONG CONTENT" "modified 2"
                        :: [Scenario.modify "file1.py" "content 1"
                                            "modified 1"])
                       Scenario.two_fs)) q
            = Scenario.two_fs q.
Proof.
  apply (failed_hunk_restores_file spec_apply_diff Scenario.tmp
           (Scenario.modify "file2.py" "WRONG CONTENT" "modified 2")
           [Scenario.modify "file1.py" "content 1" "modified 1"]
           (mkHeader (Some "file2.py") (Some "file2.py")) "file2.py"
           ("content 2" ++ NL)%string Scenario.two_fs);
    try reflexivity.
  apply wf_add_file; try reflexivity.
  apply wf_add_file; try reflexivity.
  apply wf_add_dir; try reflexivity.
  apply wf_empty_fs.
Defined.

(** *** A patch that names a directory *)

(** X22.  When the target of the first patch of a diff is a directory,
    the copy for the backup raises before anything is recorded; the
    handler has nothing to restore, and the call returns [False] having
    written no file: the file system is as the creation of the backup
    directory left it, and the later patches are not looked at. *)
Theorem directory_target_fails
    (apply_diff : Patch -> list string -> option (list string))
    (base : path) (p : Patch) (ps : list Patch) (h : Header) (t : path)
    (f : filesystem) :
  header p = Some h ->
  target_of base h = Some t ->
  is_dir f t = true ->
  existsb (is_file f) (prefixes (backup_dir base)) = false ->
  exists l,
    call apply_diff base (p :: ps) f
    = (Ok false, mkState (mkdirs (prefixes (backup_dir base)) f) [] l).
Proof.
  intros Hh Ht Hd Hbd.
  set (g1 := mkdirs (prefixes (backup_dir base)) f).
  assert (Hd1 : is_dir g1 t = true) by (apply (grows_mkdirs _ f t); exact Hd).
  assert (Hn1 : node_at g1 t = Some Dir).
  { unfold is_dir in Hd1. destruct (node_at g1 t) as [[c|]|]; congruence. }
  assert (Hex : exists_at g1 t = true)
    by (unfold exists_at; rewrite Hn1; reflexivity).
  assert (Hcopy : forall st, fs st = g1 ->
            copy2 t (backup_file base t) st
            = (Raise IsADirectoryError,
               mkState g1 (backups st)
                       (log st ++ [ECopy t (backup_file base t)]))).
  { intros st E. unfold copy2, bind, emit, get_fs, raise. simpl.
    rewrite E, Hn1. reflexivity. }
  destruct (is_new h) eqn:En; eexists; rewrite call_cons;
    rewrite mkdir_parents_run by exact Hbd;
    change (mkState (mkdirs (prefixes (backup_dir base)) (fs (init f)))
                    (backups (init f))
                    (log (init f) ++ [EMkdir (backup_dir base)]))
      with (mkState g1 [] ([] ++ [EMkdir (backup_dir base)]));
    unfold try_except; cbn [apply_loop]; unfold patch_step;
    rewrite Hh, Ht, En.
  - unfold bind at 1. unfold bind at 1. unfold ret at 1. cbv beta iota.
    unfold bind at 1. rewrite path_exists_run. cbn [fs backups log].
    rewrite Hex. unfold bind at 1. unfold bind at 1.
    rewrite Hcopy by reflexivity.
    unfold rollback, bind, get_backups. cbn [fs backups log rollback_loop].
    unfold ret. reflexivity.
  - unfold bind at 1. unfold bind at 1. unfold bind at 1.
    rewrite path_exists_run. cbn [fs backups log]. rewrite Hex.
    unfold ret at 1. cbn [negb]. cbv beta iota.
    unfold bind at 1. rewrite path_exists_run. cbn [fs backups log].
    rewrite Hex. unfold bind at 1. unfold bind at 1.
    rewrite Hcopy by reflexivity.
    unfold rollback, bind, get_backups. cbn [fs backups log rollback_loop].
    unfold ret. reflexivity.
Qed.

(** X22 at a patch whose path is [a/]: the target is the base
    directory. *)
Lemma directory_target_fails_witness :
  exists l,
    call spec_apply_diff Scenario.tmp
         (Scenario.modify "a/" "x" "y" :: Scenario.hello_diff)
         Scenario.hello_fs
    = (Ok false,
       mkState (mkdirs (prefixes (backup_dir Scenario.tmp)) Scenario.hello_fs)
               [] l).
Proof.
  apply (directory_target_fails spec_apply_diff Scenario.tmp
           (Scenario.modify "a/" "x" "y") Scenario.hello_diff
           (mkHeader (Some "a/") (Some "a/")) Scenario.tmp Scenario.hello_fs);
    reflexivity.
Defined.

(** ** Provider detection *)

Lemma prefix_head_other (a b : ascii) (p s : string) :
  a <> b -> String.prefix (String a p) (String b s) = false.
Proof.
  intros H. simpl. destruct (ascii_dec a b); [congruence | reflexivity].
Qed.

Lemma lower_head_other (c : ascii) (s : string) :
  lower_char c <> "o"%char -> String.eqb (lower (String c s)) "ollama" = false.
Proof.
  intros H. apply String.eqb_neq. simpl. intros E. inversion E. congruence.
Qed.

(** A key with the prefix of Anthropic has that of OpenAI. *)
Lemma prefix_ant_sk (k : string) :
  String.prefix "sk-ant-" k = true -> String.prefix "sk-" k = true.
Proof.
  intros H.
  apply prefix_cons in H. destruct H as (k1 & -> & H).
  apply prefix_cons in H. destruct H as (k2 & -> & H).
  apply prefix_cons in H. destruct H as (k3 & -> & H).
  simpl. apply prefix_nil.
Qed.

Lemma prefix_sk_others (k : string) :
  String.prefix "sk-" k = true ->
  String.eqb (lower k) "ollama" = false /\
  String.prefix "gsk_" k = false /\ String.prefix "AIza" k = false.
Proof.
  intros H. apply prefix_cons in H. destruct H as (k1 & -> & _).
  split; [|split].
  - apply lower_head_other. vm_compute. discriminate.
  - apply prefix_head_other. discriminate.
  - apply prefix_head_other. discriminate.
Qed.

Lemma prefix_gsk_others (k : string) :
  String.prefix "gsk_" k = true ->
  String.eqb (lower k) "ollama" = false /\
  String.prefix "sk-" k = false /\ String.prefix "sk-ant-" k = false /\
  String.prefix "AIza" k = false.
Proof.
  intros H. apply prefix_cons in H. destruct H as (k1 & -> & _).
  split; [|split; [|split]].
  - apply lower_head_other. vm_compute. discriminate.
  - apply prefix_head_other. discriminate.
  - apply prefix_head_other. discriminate.
  - apply prefix_head_other. discriminate.
Qed.

Lemma prefix_aiza_others (k : string) :
  String.prefix "AIza" k = true ->
  String.eqb (lower k) "ollama" = false /\
  String.prefix "sk-" k = false /\ String.prefix "sk-ant-" k = false /\
  String.prefix "gsk_" k = false.
Proof.
  intros H. apply prefix_cons in H. destruct H as (k1 & -> & _).
  split; [|split; [|split]].
  - apply lower_head_other. vm_compute. discriminate.
  - apply prefix_head_other. discriminate.
  - apply prefix_head_other. discriminate.
  - apply prefix_head_other. discriminate.
Qed.

Ltac provider_facts k :=
  pose proof (prefix_ant_sk k);
  pose proof (prefix_sk_others k);
  pose proof (prefix_gsk_others k);
  pose proof (prefix_aiza_others k).

(** X13.  What [detect_provider] answers, for every key: Ollama for the
    word [ollama] in any case, Anthropic for the prefix [sk-ant-], Groq
    for [gsk_], OpenAI for [sk-] unless the key has the prefix of
    Anthropic, Gemini for [AIza], and nothing for every other key.  The
    order of the tests matters only between Anthropic and OpenAI. *)
Theorem detect_provider_cases (k : string) :
  (detect_provider k = Some OllamaProvider <-> lower k = "ollama") /\
  (detect_provider k = Some AnthropicProvider <->
   String.prefix "sk-ant-" k = true) /\
  (detect_provider k = Some GroqProvider <-> String.prefix "gsk_" k = true) /\
  (detect_provider k = Some OpenAIProvider <->
   String.prefix "sk-" k = true /\ String.prefix "sk-ant-" k = false) /\
  (detect_provider k = Some GeminiProvider <->
   String.prefix "AIza" k = true) /\
  (detect_provider k = None <->
   lower k <> "ollama" /\ String.prefix "sk-" k = false /\
   String.prefix "gsk_" k = false /\ String.prefix "AIza" k = false).
Proof.
  provider_facts k. unfold detect_provider.
  pose proof (String.eqb_eq (lower k) "ollama").
  pose proof (String.eqb_neq (lower k) "ollama").
  destruct (String.eqb (lower k) "ollama") eqn:E0,
           (String.prefix "sk-ant-" k) eqn:E1,
           (String.prefix "gsk_" k) eqn:E2,
           (String.prefix "sk-" k) eqn:E3,
           (String.prefix "AIza" k) eqn:E4;
    intuition congruence.
Qed.

(** X14.  The provider that [detect_provider] answers accepts the key in
    its own [validate_key] as far as the form of the key goes: the
    answer of Anthropic, Groq and Gemini is [True], and that of OpenAI
    and Ollama is the outcome of their request. *)
Theorem detected_provider_accepts_key (request_ok : bool) (k : string)
    (p : Provider) :
  detect_provider k = Some p ->
  validate_key request_ok p k
  = match p with
    | OpenAIProvider | OllamaProvider => request_ok
    | _ => true
    end.
Proof.
  provider_facts k. unfold detect_provider, validate_key.
  destruct (String.eqb (lower k) "ollama") eqn:E0,
           (String.prefix "sk-ant-" k) eqn:E1,
           (String.prefix "gsk_" k) eqn:E2,
           (String.prefix "sk-" k) eqn:E3,
           (String.prefix "AIza" k) eqn:E4;
    intros E; inversion E; subst; simpl; try reflexivity;
    intuition congruence.
Qed.

(** X14 at a key of Anthropic. *)
Lemma detected_provider_accepts_key_witness :
  validate_key false AnthropicProvider "sk-ant-api03-abc" = true.
Proof.
  apply (detected_provider_accepts_key false "sk-ant-api03-abc"
           AnthropicProvider).
  reflexivity.
Defined.
